(** * ol/expr/expression: the expression parser and the accessor processor

    A shallow embedding of [src/ol/expr/expression.js]: the encoded
    expressions are JavaScript values, the parsing context is threaded
    explicitly, a thrown [Error] is an outcome carrying its message, and the
    recursion of [parse] through the argument validators is bounded by a fuel
    argument (with a proof that the nesting depth of the input is enough).

    The JavaScript number primitives are taken through the interface
    [JsNumber]; the colour-string parser of [ol/color.js] is a parameter.

    The interpolation of the evaluator follows ([ol/expr/cpu.js] is not
    among the sources: it is modelled from the specification), and then
    the icon image cache of [ol/style/IconImageCache], as a record of its
    fields with explicit state passing. *)

From Stdlib Require Import List String Ascii Bool Arith Lia ZArith QArith Qround
  DecimalString DecimalPos DecimalNat DecimalZ Btauto.
Import ListNotations.
Open Scope nat_scope.
Open Scope string_scope.

Set Implicit Arguments.

(** ** JavaScript numbers

    The parser never computes with numbers: it tests them ([typeof],
    [Number.isNaN], [b <= 0], truthiness) and converts them from and to
    strings.  These primitives of the language are the fields of this
    interface. *)

Class JsNumber : Type := {
  number : Type;
  NaN : number;
  zero : number;                       (* Number(false), Number(null) *)
  one : number;                        (* Number(true), the literal 1 *)
  ofNat : nat -> number;               (* the length of an array or a string *)
  isNaN : number -> bool;              (* Number.isNaN(n) *)
  isFinite : number -> bool;           (* Number.isFinite(n) *)
  truthy : number -> bool;             (* Boolean(n): n is neither 0 nor NaN *)
  atMostZero : number -> bool;     (* n <= 0 *)
  numberToString : number -> string;   (* Number::toString(n) *)
  stringToNumber : string -> number;   (* StringToNumber(s) *)
  isNaN_zero : isNaN zero = false;
  isNaN_one : isNaN one = false
}.

(** ** The messages of the engine

    A [TypeError] that the language itself throws carries a message of
    the engine's own wording.  [typeErrorMessage name] is the message of
    the one thrown when the member [name] that an object inherits from
    [Object.prototype] is called as a plain function, with no [this]. *)

Class JsEngine : Type := {
  typeErrorMessage : string -> string
}.

(** The double quote character, and a text between double quotes. *)
Definition dquote : string := String (ascii_of_nat 34) "".

Definition quoted (s : string) : string := dquote ++ s ++ dquote.

Definition isSome {A : Type} (o : option A) : bool :=
  match o with Some _ => true | None => false end.

(** The decimal form of a natural number (a length, a count, an index). *)
Definition decimal (n : nat) : string :=
  NilZero.string_of_uint (Nat.to_uint n).

(** ** JavaScript values *)

Module Js.
Section Values.
Context {N : JsNumber}.

#[warnings="-register-all"]
Inductive Value : Type :=
| VUndefined
| VNull
| VBool (b : bool)
| VNum (n : number)
| VStr (s : string)
| VArr (items : list Value)
| VObj (fields : list (string * Value)).

(** [typeof v] *)
Definition typeof (v : Value) : string :=
  match v with
  | VUndefined => "undefined"
  | VNull => "object"
  | VBool _ => "boolean"
  | VNum _ => "number"
  | VStr _ => "string"
  | VArr _ => "object"
  | VObj _ => "object"
  end.

(** [Array.isArray(v)] *)
Definition isArray (v : Value) : bool :=
  match v with VArr _ => true | _ => false end.

(** [encoded[i]] on the items of an array: [undefined] past the end. *)
Definition item (items : list Value) (i : nat) : Value :=
  nth i items VUndefined.

(** [String(v)], also the conversion of a template literal [`${v}`].  An
    array is joined with commas, [null] and [undefined] items giving the
    empty string; a plain object gives ["[object Object]"]. *)
Fixpoint toStr (v : Value) : string :=
  match v with
  | VUndefined => "undefined"
  | VNull => "null"
  | VBool b => if b then "true" else "false"
  | VNum n => numberToString n
  | VStr s => s
  | VArr items =>
      String.concat ","
        (map (fun x => match x with
                       | VUndefined | VNull => ""
                       | _ => toStr x
                       end) items)
  | VObj _ => "[object Object]"
  end.

(** [Number(v)] *)
Definition toNumber (v : Value) : number :=
  match v with
  | VUndefined => NaN
  | VNull => zero
  | VBool b => if b then one else zero
  | VNum n => n
  | VStr s => stringToNumber s
  | VArr _ | VObj _ => stringToNumber (toStr v)
  end.

(** [Boolean(v)], the truthiness of [v] *)
Definition toBoolean (v : Value) : bool :=
  match v with
  | VUndefined | VNull => false
  | VBool b => b
  | VNum n => truthy n
  | VStr s => negb (s =? "")
  | VArr _ | VObj _ => true
  end.

(** *** JSON.stringify *)

Definition hexDigit (n : nat) : ascii :=
  nth n (list_ascii_of_string "0123456789abcdef") (ascii_of_nat 48).

(** QuoteJSONString on one code unit. *)
Definition escapeChar (c : ascii) : string :=
  let n := nat_of_ascii c in
  if (n =? 34)%nat then "\" ++ dquote
  else if (n =? 92)%nat then "\\"
  else if (n =? 8)%nat then "\b"
  else if (n =? 9)%nat then "\t"
  else if (n =? 10)%nat then "\n"
  else if (n =? 12)%nat then "\f"
  else if (n =? 13)%nat then "\r"
  else if (n <? 32)%nat then
    "\u00" ++ String (hexDigit (n / 16)) (String (hexDigit (n mod 16)) "")
  else String c "".

Fixpoint escape (s : string) : string :=
  match s with
  | EmptyString => ""
  | String c rest => escapeChar c ++ escape rest
  end.

Definition quote (s : string) : string := quoted (escape s).

(** [JSON.stringify(v)]: [None] is the [undefined] it returns for
    [undefined].  Inside an array [undefined] is written [null]; a property
    whose value is [undefined] is left out; a number that is not finite is
    written [null]. *)
Fixpoint jsonStringify (v : Value) : option string :=
  match v with
  | VUndefined => None
  | VNull => Some "null"
  | VBool b => Some (if b then "true" else "false")
  | VNum n => Some (if isFinite n then numberToString n else "null")
  | VStr s => Some (quote s)
  | VArr items =>
      Some ("[" ++ String.concat ","
                     (map (fun x => match jsonStringify x with
                                    | Some s => s
                                    | None => "null"
                                    end) items) ++ "]")
  | VObj fields =>
      Some ("{" ++ String.concat ","
                     (flat_map (fun kv => let '(k, x) := kv in
                                          match jsonStringify x with
                                          | Some s => [quote k ++ ":" ++ s]
                                          | None => []
                                          end) fields) ++ "}")
  end.

(** A value that JSON can write: it holds no [undefined] and every number
    in it is finite. *)
Fixpoint jsonSafe (v : Value) : bool :=
  match v with
  | VUndefined => false
  | VNull | VBool _ | VStr _ => true
  | VNum n => isFinite n
  | VArr items => forallb jsonSafe items
  | VObj fields => forallb (fun kv => let '(_, x) := kv in jsonSafe x) fields
  end.

(** [`${JSON.stringify(v)}`] *)
Definition jsonText (v : Value) : string :=
  match jsonStringify v with
  | Some s => s
  | None => "undefined"
  end.

(** *** Own properties *)

(** The fields of a plain object: [key in o], [o[key]]. *)
Fixpoint lookupField (key : string) (fields : list (string * Value))
  : option Value :=
  match fields with
  | [] => None
  | (k, v) :: rest => if k =? key then Some v else lookupField key rest
  end.

(** The array index a property key denotes, below [len]. *)
Definition indexOfKey (key : string) (len : nat) : option nat :=
  find (fun i => decimal i =? key) (seq 0 len).

Definition charAt (s : string) (i : nat) : Value :=
  match String.get i s with
  | Some c => VStr (String c "")
  | None => VUndefined
  end.

(** [Object.hasOwn(v, key)] for a truthy [v]: an array and a string own
    their indices and [length], a plain object its fields, a number or a
    boolean nothing. *)
Definition hasOwn (v : Value) (key : string) : bool :=
  match v with
  | VArr items =>
      (key =? "length") || isSome (indexOfKey key (List.length items))
  | VStr s =>
      (key =? "length") || isSome (indexOfKey key (String.length s))
  | VObj fields => isSome (lookupField key fields)
  | _ => false
  end.

(** [v[key]] restricted to own properties (the methods inherited from the
    prototypes are not modelled). *)
Definition getProp (v : Value) (key : string) : Value :=
  match v with
  | VArr items =>
      if key =? "length" then VNum (ofNat (List.length items))
      else match indexOfKey key (List.length items) with
           | Some i => item items i
           | None => VUndefined
           end
  | VStr s =>
      if key =? "length" then VNum (ofNat (String.length s))
      else match indexOfKey key (String.length s) with
           | Some i => charAt s i
           | None => VUndefined
           end
  | VObj fields =>
      match lookupField key fields with
      | Some x => x
      | None => VUndefined
      end
  | _ => VUndefined
  end.

End Values.
End Js.

(** ** Outcomes and the state monad of the parser *)

(** What a call does: it returns, it throws an [Error] with a message, or
    the model's recursion bound was reached. *)
Inductive Outcome (A : Type) : Type :=
| Return (a : A)
| Throw (message : string)
| OutOfFuel.

Arguments Return {A} a.
Arguments Throw {A} message.
Arguments OutOfFuel {A}.

(** A computation over a mutable object of type [St]: the object after the
    call comes with the outcome, also when the call throws. *)
Definition M (St A : Type) : Type := St -> St * Outcome A.

Definition ret {St A : Type} (a : A) : M St A := fun s => (s, Return a).

Definition throw {St A : Type} (message : string) : M St A :=
  fun s => (s, Throw message).

Definition lift {St A : Type} (o : Outcome A) : M St A := fun s => (s, o).

Definition bind {St A B : Type} (m : M St A) (k : A -> M St B) : M St B :=
  fun s =>
    match m s with
    | (s', Return a) => k a s'
    | (s', Throw message) => (s', Throw message)
    | (s', OutOfFuel) => (s', OutOfFuel)
    end.

(** [try { m } catch (err) { throw new Error(prefix + err.message) }] *)
Definition rethrow {St A : Type} (prefix : string) (m : M St A) : M St A :=
  fun s =>
    match m s with
    | (s', Throw message) => (s', Throw (prefix ++ message))
    | r => r
    end.

Declare Scope js_scope.
Delimit Scope js_scope with js.
Notation "x <- m ;; k" := (bind m (fun x => k))
  (at level 100, m at next level, right associativity) : js_scope.
Open Scope js_scope.

(** [for (let i = start; ...; i += step) { acc = body(i, acc) }], run
    [count] times. *)
Fixpoint forLoop {St A : Type} (count start step : nat)
    (body : nat -> A -> M St A) (acc : A) : M St A :=
  match count with
  | 0 => ret acc
  | S count' =>
      acc' <- body start acc ;;
      forLoop count' (start + step) step body acc'
  end.

(** How many times [for (i = 0; i < bound; i += 2)] runs its body. *)
Definition pairsBelow (bound : nat) : nat := Nat.div2 (bound + 1).

(** ** The expression module *)

Module Expr.
Import Js.

Inductive ValueType : Type :=
| BooleanType
| NumberType
| StringType
| ColorType
| NumberArrayType
| SizeType.

(** The string each type constant stands for. *)
Definition typeName (t : ValueType) : string :=
  match t with
  | BooleanType => "boolean"
  | NumberType => "number"
  | StringType => "string"
  | ColorType => "color"
  | NumberArrayType => "number[]"
  | SizeType => "size"
  end.

(** The type an expression is parsed for: one of the six constants, or
    the [undefined] that [expression.type] is when what a parser returned
    is no expression. *)
Inductive PassedType : Type :=
| Declared (t : ValueType)
| UndefinedType.

Coercion Declared : ValueType >-> PassedType.

(** The operator names, [Ops]. *)
Module Ops.
Definition Get : string := "get".
Definition Var : string := "var".
Definition Concat : string := "concat".
Definition GeometryType : string := "geometry-type".
Definition LineMetric : string := "line-metric".
Definition Any : string := "any".
Definition All : string := "all".
Definition Not : string := "!".
Definition Resolution : string := "resolution".
Definition Zoom : string := "zoom".
Definition Time : string := "time".
Definition Equal : string := "==".
Definition NotEqual : string := "!=".
Definition GreaterThan : string := ">".
Definition GreaterThanOrEqualTo : string := ">=".
Definition LessThan : string := "<".
Definition LessThanOrEqualTo : string := "<=".
Definition Multiply : string := "*".
Definition Divide : string := "/".
Definition Add : string := "+".
Definition Subtract : string := "-".
Definition Clamp : string := "clamp".
Definition Mod : string := "%".
Definition Pow : string := "^".
Definition Abs : string := "abs".
Definition Floor : string := "floor".
Definition Ceil : string := "ceil".
Definition Round : string := "round".
Definition Sin : string := "sin".
Definition Cos : string := "cos".
Definition Atan : string := "atan".
Definition Sqrt : string := "sqrt".
Definition MatchNumber : string := "match-number".
Definition MatchString : string := "match-string".
Definition Between : string := "between".
Definition Interpolate : string := "interpolate".
Definition Case : string := "case".
Definition In : string := "in".
Definition Array : string := "array".
Definition Color : string := "color".
Definition Id : string := "id".
Definition Band : string := "band".
Definition Palette : string := "palette".
Definition Has : string := "has".
End Ops.

(** The values of [Ops], in the order of the source. *)
Definition operators : list string :=
  [ Ops.Get; Ops.Var; Ops.Concat; Ops.GeometryType; Ops.LineMetric; Ops.Any;
    Ops.All; Ops.Not; Ops.Resolution; Ops.Zoom; Ops.Time; Ops.Equal;
    Ops.NotEqual; Ops.GreaterThan; Ops.GreaterThanOrEqualTo; Ops.LessThan;
    Ops.LessThanOrEqualTo; Ops.Multiply; Ops.Divide; Ops.Add; Ops.Subtract;
    Ops.Clamp; Ops.Mod; Ops.Pow; Ops.Abs; Ops.Floor; Ops.Ceil; Ops.Round;
    Ops.Sin; Ops.Cos; Ops.Atan; Ops.Sqrt; Ops.MatchNumber; Ops.MatchString;
    Ops.Between; Ops.Interpolate; Ops.Case; Ops.In; Ops.Array; Ops.Color;
    Ops.Id; Ops.Band; Ops.Palette; Ops.Has ].

(** The names that every object inherits from [Object.prototype]:
    [parsers[name]] is defined for them, although the table has no such
    entry.  [constructor] is the function [Object], [__proto__] is the
    prototype object itself, the others are its methods. *)
Definition inheritedNames : list string :=
  [ "constructor"; "hasOwnProperty"; "isPrototypeOf"; "propertyIsEnumerable";
    "toLocaleString"; "toString"; "valueOf"; "__defineGetter__";
    "__defineSetter__"; "__lookupGetter__"; "__lookupSetter__"; "__proto__" ].

Section Parser.
Context {N : JsNumber} {E : JsEngine}.

(** [fromString] of [ol/color.js]: the colour as an array of four numbers,
    or the message of the error it throws. *)
Variable colorFromString : string -> Value + string.

(** [type] as a value: the string of the constant, or [undefined]. *)
Definition typeValue (type : PassedType) : Value :=
  match type with
  | Declared t => VStr (typeName t)
  | UndefinedType => VUndefined
  end.

(** What a parser returns: an instance of one of the two expression
    classes, or, from a member that [parsers] inherits, a value that is
    no expression (the encoded array itself, or a string). *)
#[warnings="-register-all"]
Inductive Expression : Type :=
| LiteralExpression (type : ValueType) (value : Value)
| CallExpression (type : PassedType) (operator : string)
                 (args : list Expression)
| NotExpression (value : Value).

(** [expression.type]; an array and a string have no such property. *)
Definition exprType (e : Expression) : PassedType :=
  match e with
  | LiteralExpression t _ => t
  | CallExpression t _ _ => t
  | NotExpression _ => UndefinedType
  end.

(** [expression instanceof LiteralExpression] *)
Definition isLiteral (e : Expression) : bool :=
  match e with
  | LiteralExpression _ _ => true
  | CallExpression _ _ _ => false
  | NotExpression _ => false
  end.

Record PreAccessorInfo : Type := {
  slug : string;
  path : list Value;
  type : PassedType;
  default : option Value
}.

Record PostAccessorInfo : Type := {
  postValue : Value;
  postType : PassedType;
  postSlug : string
}.

(** An object used as a lookup: its entries in the order of insertion. *)
Definition Lookup (A : Type) : Type := list (string * A).

Fixpoint lookup {A : Type} (key : string) (l : Lookup A) : option A :=
  match l with
  | [] => None
  | (k, a) :: rest => if k =? key then Some a else lookup key rest
  end.

Record ParsingContext : Type := {
  variables : Lookup PreAccessorInfo;
  properties : Lookup PreAccessorInfo;
  featureId : bool;
  geometryType : bool
}.

(** [keyForAccessor(path, type, options)]: the JSON text of
    [{path, type}], with [default] when the options have one. *)
Definition keyForAccessor (path : list Value) (type : PassedType)
    (options : list (string * Value)) : string :=
  let config := [("path", VArr path); ("type", typeValue type)] in
  let config :=
    match lookupField "default" options with
    | Some d => (config ++ [("default", d)])%list
    | None => config
    end in
  jsonText (VObj config).

Definition newParsingContext : ParsingContext :=
  {| variables := []; properties := []; featureId := false;
     geometryType := false |}.

(** Modelled from the spec: [toSize] of [ol/size.js], the size normalizer
    that expands a scalar [n] to the pair [[n, n]]. *)
Definition toSize (n : Value) : Value := VArr [n; n].

(** [for (const item of encoded) if (typeof item !== 'number') throw] *)
Definition allNumbers (items : list Value) : bool :=
  forallb (fun x => typeof x =? "number") items.

Definition parseLiteralExpression (encoded : Value)
    (expectedType : PassedType) : Outcome Expression :=
  match expectedType with
  | Declared BooleanType =>
      if typeof encoded =? "boolean"
      then Return (LiteralExpression BooleanType encoded)
      else Return (LiteralExpression BooleanType (VBool (toBoolean encoded)))
  | Declared StringType =>
      if typeof encoded =? "string"
      then Return (LiteralExpression StringType encoded)
      else Return (LiteralExpression StringType (VStr (toStr encoded)))
  | Declared NumberType =>
      if typeof encoded =? "number"
      then Return (LiteralExpression NumberType encoded)
      else
        let value := toNumber encoded in
        if isNaN value then Throw "expected a number"
        else Return (LiteralExpression NumberType (VNum (toNumber encoded)))
  | Declared NumberArrayType =>
      match encoded with
      | VArr items =>
          if allNumbers items
          then Return (LiteralExpression NumberArrayType encoded)
          else Throw "expected an array of numbers"
      | _ => Throw "expected an array of numbers"
      end
  | Declared ColorType =>
      match encoded with
      | VStr s =>
          match colorFromString s with
          | inl color => Return (LiteralExpression ColorType color)
          | inr message => Throw message
          end
      | VArr items =>
          if negb (allNumbers items) then Throw "expected an array of numbers"
          else if (List.length items =? 3)%nat
          then Return (LiteralExpression ColorType
                         (VArr (items ++ [VNum one])%list))
          else if (List.length items =? 4)%nat
          then Return (LiteralExpression ColorType encoded)
          else Throw ("expected an array of 3 or 4 values for a color, got "
                      ++ decimal (List.length items))
      | _ => Throw "expected a string or an array of numbers"
      end
  | Declared SizeType =>
      match encoded with
      | VNum _ => Return (LiteralExpression SizeType (toSize encoded))
      | VArr items =>
          if negb (List.length items =? 2)%nat
          then Throw ("expected an array of two values for a size, got "
                      ++ decimal (List.length items))
          else if allNumbers items
          then Return (LiteralExpression SizeType encoded)
          else Throw "expected an array of numbers"
      | _ => Throw "expected a number or an array of numbers"
      end
  | UndefinedType =>
      Throw ("unsupported type: " ++ toStr (typeValue expectedType))
  end.

(** *** Argument validators

    A validator checks the encoded call [encoded] (the items of the array,
    the operator first) and returns the parsed arguments, or nothing
    ([None], the [undefined] of a validator that only checks).  The
    validators that parse arguments take [parse] as [parseArg]. *)

Definition Ctx (A : Type) : Type := M ParsingContext A.

Definition ArgValidator : Type :=
  list Value -> PassedType -> Ctx (option (list Expression)).

Definition Parser : Type := list Value -> PassedType -> Ctx Expression.

(** The path and the options of an accessor: the loop of
    [withAccessorArgs] from argument [i] on, [args] being the arguments
    not yet read. *)
Fixpoint accessorArgs (args : list Value) (i argsCount : nat)
    (path : list Value) (options : list (string * Value))
  : Outcome (list Value * list (string * Value)) :=
  match args with
  | [] => Return (path, options)
  | key :: rest =>
      let keyType := typeof key in
      if (keyType =? "number") || (keyType =? "string")
      then accessorArgs rest (i + 1) argsCount (path ++ [key])%list options
      else if (i <? argsCount - 1)%nat || negb (toBoolean key)
              || isArray key || negb (keyType =? "object")
      then Throw ("expected a string key or numeric array index for a get operation, got "
                  ++ toStr key)
      else
        match key with
        | VObj fields => accessorArgs rest (i + 1) argsCount path fields
        | _ => accessorArgs rest (i + 1) argsCount path options
        end
  end.

(** [path.join('_')] *)
Definition joinPath (path : list Value) : string :=
  String.concat "_" (map toStr path).

Definition withAccessorArgs (encoded : list Value) (type : PassedType)
  : M (Lookup PreAccessorInfo) (list Expression) :=
  fun infoLookup =>
    let argsCount := List.length encoded - 1 in
    match accessorArgs (tl encoded) 0 argsCount [] [] with
    | Return (path, options) =>
        let key := keyForAccessor path type options in
        let args := [LiteralExpression StringType (VStr key)] in
        if isSome (lookup key infoLookup) then (infoLookup, Return args)
        else
          let count := List.length infoLookup in
          let slug := joinPath path ++ "_" ++ decimal count in
          let info := {| slug := slug; path := path; type := type;
                         default := lookupField "default" options |} in
          ((infoLookup ++ [(key, info)])%list, Return args)
    | Throw message => (infoLookup, Throw message)
    | OutOfFuel => (infoLookup, OutOfFuel)
    end.

Definition withGetArgs : ArgValidator :=
  fun encoded type context =>
    let (infoLookup, result) := withAccessorArgs encoded type (properties context) in
    ({| variables := variables context; properties := infoLookup;
        featureId := featureId context;
        geometryType := geometryType context |},
     match result with
     | Return args => Return (Some args)
     | Throw message => Throw message
     | OutOfFuel => OutOfFuel
     end).

Definition withVarArgs : ArgValidator :=
  fun encoded type context =>
    let (infoLookup, result) := withAccessorArgs encoded type (variables context) in
    ({| variables := infoLookup; properties := properties context;
        featureId := featureId context;
        geometryType := geometryType context |},
     match result with
     | Return args => Return (Some args)
     | Throw message => Throw message
     | OutOfFuel => OutOfFuel
     end).

Definition usesFeatureId : ArgValidator :=
  fun encoded returnType context =>
    ({| variables := variables context; properties := properties context;
        featureId := true; geometryType := geometryType context |},
     Return None).

Definition usesGeometryType : ArgValidator :=
  fun encoded returnType context =>
    ({| variables := variables context; properties := properties context;
        featureId := featureId context; geometryType := true |},
     Return None).

Definition withNoArgs : ArgValidator :=
  fun encoded returnType =>
    let operation := item encoded 0 in
    if negb (List.length encoded =? 1)%nat
    then throw ("expected no arguments for " ++ toStr operation ++ " operation")
    else ret (Some []).

(** [maxArgs] is [None] for [Infinity]. *)
Definition hasArgsCount (minArgs : nat) (maxArgs : option nat)
  : ArgValidator :=
  fun encoded returnType =>
    let operation := item encoded 0 in
    let argCount := List.length encoded - 1 in
    match maxArgs with
    | Some maxArgs' =>
        if (minArgs =? maxArgs')%nat then
          if negb (argCount =? minArgs)%nat then
            let plural := if (minArgs =? 1)%nat then "" else "s" in
            throw ("expected " ++ decimal minArgs ++ " argument" ++ plural
                   ++ " for " ++ toStr operation ++ ", got " ++ decimal argCount)
          else ret None
        else if (argCount <? minArgs)%nat || (maxArgs' <? argCount)%nat then
          let range := decimal minArgs ++ " to " ++ decimal maxArgs' in
          throw ("expected " ++ range ++ " arguments for " ++ toStr operation
                 ++ ", got " ++ decimal argCount)
        else ret None
    | None =>
        if (argCount <? minArgs)%nat then
          let range := decimal minArgs ++ " or more" in
          throw ("expected " ++ range ++ " arguments for " ++ toStr operation
                 ++ ", got " ++ decimal argCount)
        else ret None
    end.

Definition hasOddArgs : ArgValidator :=
  fun encoded returnType =>
    let operation := item encoded 0 in
    let argCount := List.length encoded - 1 in
    if (argCount mod 2 =? 0)%nat
    then throw ("expected an odd number of arguments for " ++ toStr operation
                ++ ", got " ++ decimal argCount ++ " instead")
    else ret None.

Definition hasEvenArgs : ArgValidator :=
  fun encoded returnType =>
    let operation := item encoded 0 in
    let argCount := List.length encoded - 1 in
    if (argCount mod 2 =? 1)%nat
    then throw ("expected an even number of arguments for operation "
                ++ toStr operation ++ ", got " ++ decimal argCount ++ " instead")
    else ret None.

Section Validators.
(** The recursive call of [parse]. *)
Variable parseArg : Value -> PassedType -> Ctx Expression.

Definition withArgsOfType (argType : ValueType) : ArgValidator :=
  fun encoded returnType =>
    let argCount := List.length encoded - 1 in
    args <- forLoop argCount 0 1
              (fun i args =>
                 expression <- parseArg (item encoded (i + 1)) argType ;;
                 ret (args ++ [expression])%list) [] ;;
    ret (Some args).

Definition withArgsOfReturnType : ArgValidator :=
  fun encoded returnType =>
    let argCount := List.length encoded - 1 in
    args <- forLoop argCount 0 1
              (fun i args =>
                 expression <- parseArg (item encoded (i + 1)) returnType ;;
                 ret (args ++ [expression])%list) [] ;;
    ret (Some args).

(** Reached with an even number of at least four arguments, after
    [hasArgsCount 4 None] and [hasEvenArgs]; the loop then fills every
    slot of [args]. *)
Definition withMatchArgs (inputType : ValueType) : ArgValidator :=
  fun encoded returnType =>
    let argsCount := List.length encoded - 1 in
    input <- parseArg (item encoded 1) inputType ;;
    fallback <- parseArg (item encoded (List.length encoded - 1)) returnType ;;
    args <- forLoop (pairsBelow (argsCount - 2)) 0 2
              (fun i args =>
                 match_ <- rethrow ("failed to parse argument " ++ decimal (i + 1)
                                    ++ " of match expression: ")
                             (parseArg (item encoded (i + 2)) (exprType input)) ;;
                 output <- rethrow ("failed to parse argument " ++ decimal (i + 2)
                                    ++ " of match expression: ")
                             (parseArg (item encoded (i + 3)) (exprType fallback)) ;;
                 ret (args ++ [match_; output])%list) [] ;;
    ret (Some ([input] ++ args ++ [fallback])%list).

(** The base of the interpolation, from [encoded[1]].  Reading index 0 of
    [null] or [undefined] throws a [TypeError]; its message is the one of
    V8. *)
Definition interpolationBase (interpolationType : Value) : Outcome number :=
  match interpolationType with
  | VUndefined =>
      Throw "Cannot read properties of undefined (reading '0')"
  | VNull => Throw "Cannot read properties of null (reading '0')"
  | _ =>
      match getProp interpolationType "0" with
      | VStr kind =>
          if kind =? "linear" then Return one
          else if kind =? "exponential" then
            let b := getProp interpolationType "1" in
            match b with
            | VNum base =>
                if atMostZero base
                then Throw ("expected a number base for exponential interpolation, got "
                            ++ jsonText b ++ " instead")
                else Return base
            | _ => Throw ("expected a number base for exponential interpolation, got "
                          ++ jsonText b ++ " instead")
            end
          else Throw ("invalid interpolation type: " ++ jsonText interpolationType)
      | _ => Throw ("invalid interpolation type: " ++ jsonText interpolationType)
      end
  end.

(** Reached with an even number of at least six arguments. *)
Definition withInterpolateArgs : ArgValidator :=
  fun encoded returnType =>
    let interpolationType := item encoded 1 in
    base <- lift (interpolationBase interpolationType) ;;
    let interpolation := LiteralExpression NumberType (VNum base) in
    input <- rethrow "failed to parse argument 1 in interpolate expression: "
               (parseArg (item encoded 2) NumberType) ;;
    args <- forLoop (pairsBelow (List.length encoded - 3)) 0 2
              (fun i args =>
                 stop <- rethrow ("failed to parse argument " ++ decimal (i + 2)
                                  ++ " for interpolate expression: ")
                           (parseArg (item encoded (i + 3)) NumberType) ;;
                 output <- rethrow ("failed to parse argument " ++ decimal (i + 3)
                                    ++ " for interpolate expression: ")
                             (parseArg (item encoded (i + 4)) returnType) ;;
                 ret (args ++ [stop; output])%list) [] ;;
    ret (Some ([interpolation; input] ++ args)%list).

(** Reached with an odd number of at least three arguments. *)
Definition withCaseArgs : ArgValidator :=
  fun encoded returnType =>
    fallback <- parseArg (item encoded (List.length encoded - 1)) returnType ;;
    args <- forLoop (pairsBelow (List.length encoded - 1 - 1)) 0 2
              (fun i args =>
                 condition <- rethrow ("failed to parse argument " ++ decimal i
                                       ++ " of case expression: ")
                                (parseArg (item encoded (i + 1)) BooleanType) ;;
                 output <- rethrow ("failed to parse argument " ++ decimal (i + 1)
                                    ++ " of case expression: ")
                             (parseArg (item encoded (i + 2)) (exprType fallback)) ;;
                 ret (args ++ [condition; output])%list) [] ;;
    ret (Some (args ++ [fallback])%list).

Definition withInArgs : ArgValidator :=
  fun encoded returnType =>
    match item encoded 2 with
    | VArr haystack =>
        let continue (haystack : list Value) (needleType : ValueType) :=
          args <- forLoop (List.length haystack) 0 1
                    (fun i args =>
                       arg <- rethrow ("failed to parse haystack item " ++ decimal i
                                       ++ " for " ++ quoted "in" ++ " expression: ")
                                (parseArg (item haystack i) needleType) ;;
                       ret (args ++ [arg])%list) [] ;;
          needle <- parseArg (item encoded 1) needleType ;;
          ret (Some ([needle] ++ args)%list) in
        match item haystack 0 with
        | VStr first =>
            if negb (first =? "literal")
            then throw ("for the " ++ quoted "in"
                        ++ " operator, a string array should be wrapped in a "
                        ++ quoted "literal"
                        ++ " operator to disambiguate from expressions")
            else
              match item haystack 1 with
              | VArr literal => continue literal StringType
              | _ => throw ("failed to parse " ++ quoted "in"
                            ++ " expression: the literal operator must be followed by an array")
              end
        | _ => continue haystack NumberType
        end
    | _ => throw ("the second argument for the " ++ quoted "in"
                  ++ " operator must be an array")
    end.

Definition withPaletteArgs : ArgValidator :=
  fun encoded returnType =>
    index <- rethrow "failed to parse first argument in palette expression: "
               (parseArg (item encoded 1) NumberType) ;;
    match item encoded 2 with
    | VArr colors =>
        parsedColors <-
          forLoop (List.length colors) 0 1
            (fun i parsedColors =>
               color <- rethrow ("failed to parse color at index " ++ decimal i
                                 ++ " in palette expression: ")
                          (parseArg (item colors i) ColorType) ;;
               if negb (isLiteral color)
               then throw ("the palette color at index " ++ decimal i
                           ++ " must be a literal value")
               else ret (parsedColors ++ [color])%list) [] ;;
        ret (Some ([index] ++ parsedColors)%list)
    | _ => throw "the second argument of palette must be an array"
    end.

(** *** Call parsers *)

(** [encoded[0]] as the operator of a call: a string, when the parser is
    reached through [parseCallExpression]. *)
Definition operatorOf (encoded : list Value) : string :=
  toStr (item encoded 0).

(** The loop of [createCallExpressionParser]: every validator runs, the
    last one gives the arguments.  Without any validator [args] stays
    [undefined] and spreading it throws a [TypeError]. *)
Fixpoint runValidators (validators : list ArgValidator)
    (encoded : list Value) (returnType : PassedType)
  : Ctx (list Expression) :=
  match validators with
  | [] => throw "Spread syntax requires ...iterable[Symbol.iterator] to be a function"
  | [validator] =>
      parsed <- validator encoded returnType ;;
      match parsed with
      | Some args => ret args
      | None => throw "expected last argument validator to return the parsed args"
      end
  | validator :: rest =>
      _ <- validator encoded returnType ;;
      runValidators rest encoded returnType
  end.

Definition createCallExpressionParser (validators : list ArgValidator)
  : Parser :=
  fun encoded returnType =>
    let operator := operatorOf encoded in
    args <- runValidators validators encoded returnType ;;
    ret (CallExpression returnType operator args).

Definition Infinity : option nat := None.

(** The validator chains of [parsers], in the order of the source. *)
Definition validatorsOf : list (string * list ArgValidator) :=
  [ (Ops.Get, [hasArgsCount 1 Infinity; withGetArgs]);
    (Ops.Has, [hasArgsCount 1 Infinity; withGetArgs]);
    (Ops.Var, [hasArgsCount 1 Infinity; withVarArgs]);
    (Ops.Id, [usesFeatureId; withNoArgs]);
    (Ops.Concat, [hasArgsCount 2 Infinity; withArgsOfType StringType]);
    (Ops.GeometryType, [usesGeometryType; withNoArgs]);
    (Ops.LineMetric, [withNoArgs]);
    (Ops.Resolution, [withNoArgs]);
    (Ops.Zoom, [withNoArgs]);
    (Ops.Time, [withNoArgs]);
    (Ops.Any, [hasArgsCount 2 Infinity; withArgsOfType BooleanType]);
    (Ops.All, [hasArgsCount 2 Infinity; withArgsOfType BooleanType]);
    (Ops.Not, [hasArgsCount 1 (Some 1); withArgsOfType BooleanType]);
    (Ops.Equal, [hasArgsCount 2 (Some 2); withArgsOfType NumberType]);
    (Ops.NotEqual, [hasArgsCount 2 (Some 2); withArgsOfType NumberType]);
    (Ops.GreaterThan, [hasArgsCount 2 (Some 2); withArgsOfType NumberType]);
    (Ops.GreaterThanOrEqualTo,
       [hasArgsCount 2 (Some 2); withArgsOfType NumberType]);
    (Ops.LessThan, [hasArgsCount 2 (Some 2); withArgsOfType NumberType]);
    (Ops.LessThanOrEqualTo,
       [hasArgsCount 2 (Some 2); withArgsOfType NumberType]);
    (Ops.Multiply, [hasArgsCount 2 Infinity; withArgsOfType NumberType]);
    (Ops.Divide, [hasArgsCount 2 (Some 2); withArgsOfType NumberType]);
    (Ops.Add, [hasArgsCount 2 Infinity; withArgsOfType NumberType]);
    (Ops.Subtract, [hasArgsCount 2 (Some 2); withArgsOfType NumberType]);
    (Ops.Clamp, [hasArgsCount 3 (Some 3); withArgsOfType NumberType]);
    (Ops.Mod, [hasArgsCount 2 (Some 2); withArgsOfType NumberType]);
    (Ops.Pow, [hasArgsCount 2 (Some 2); withArgsOfType NumberType]);
    (Ops.Abs, [hasArgsCount 1 (Some 1); withArgsOfType NumberType]);
    (Ops.Floor, [hasArgsCount 1 (Some 1); withArgsOfType NumberType]);
    (Ops.Ceil, [hasArgsCount 1 (Some 1); withArgsOfType NumberType]);
    (Ops.Round, [hasArgsCount 1 (Some 1); withArgsOfType NumberType]);
    (Ops.Sin, [hasArgsCount 1 (Some 1); withArgsOfType NumberType]);
    (Ops.Cos, [hasArgsCount 1 (Some 1); withArgsOfType NumberType]);
    (Ops.Atan, [hasArgsCount 1 (Some 2); withArgsOfType NumberType]);
    (Ops.Sqrt, [hasArgsCount 1 (Some 1); withArgsOfType NumberType]);
    (Ops.MatchString,
       [hasArgsCount 4 Infinity; hasEvenArgs; withMatchArgs StringType]);
    (Ops.MatchNumber,
       [hasArgsCount 4 Infinity; hasEvenArgs; withMatchArgs NumberType]);
    (Ops.Between, [hasArgsCount 3 (Some 3); withArgsOfType NumberType]);
    (Ops.Interpolate,
       [hasArgsCount 6 Infinity; hasEvenArgs; withInterpolateArgs]);
    (Ops.Case, [hasArgsCount 3 Infinity; hasOddArgs; withCaseArgs]);
    (Ops.In, [hasArgsCount 2 (Some 2); withInArgs]);
    (Ops.Array, [hasArgsCount 1 Infinity; withArgsOfType NumberType]);
    (Ops.Color, [hasArgsCount 1 (Some 4); withArgsOfType NumberType]);
    (Ops.Band, [hasArgsCount 1 (Some 3); withArgsOfType NumberType]);
    (Ops.Palette, [hasArgsCount 2 (Some 2); withPaletteArgs]) ].

(** What [parsers[name]] does when called, for a name that the table
    inherits: [Object(encoded, ...)] returns the array it is given;
    [Object.prototype.toString], called without [this] as the module is
    strict code, returns a string; the other methods need a [this] and
    throw a [TypeError], as does the call of the prototype object under
    [__proto__], which is no function. *)
Definition inheritedParser (name : string) : Parser :=
  fun encoded returnType =>
    if name =? "constructor" then ret (NotExpression (VArr encoded))
    else if name =? "toString"
    then ret (NotExpression (VStr "[object Undefined]"))
    else throw (typeErrorMessage name).

(** [parsers[operator]]: an entry of the table, or a member inherited
    from [Object.prototype]. *)
Definition parsers (operator : string) : option Parser :=
  match lookup operator validatorsOf with
  | Some validators => Some (createCallExpressionParser validators)
  | None =>
      if existsb (String.eqb operator) inheritedNames
      then Some (inheritedParser operator)
      else None
  end.

Definition parseCallExpression : Parser :=
  fun encoded returnType =>
    let operator := operatorOf encoded in
    match parsers operator with
    | None => throw ("unknown operator: " ++ operator)
    | Some parser => parser encoded returnType
    end.

End Validators.

(** *** parse *)

Fixpoint parse (fuel : nat) (encoded : Value) (expectedType : PassedType)
  : Ctx Expression :=
  match fuel with
  | 0 => lift OutOfFuel
  | S fuel' =>
      match encoded with
      | VArr items =>
          if (List.length items =? 0)%nat then throw "empty expression"
          else if typeof (item items 0) =? "string"
          then parseCallExpression (parse fuel') items expectedType
          else lift (parseLiteralExpression encoded expectedType)
      | _ => lift (parseLiteralExpression encoded expectedType)
      end
  end.

(** *** processAccessorValues *)

(** The property key a path segment denotes. *)
Definition propertyKey (key : Value) : string := toStr key.

(** The loop over [info.path]: the flag [absent] and the value reached. *)
Fixpoint walkPath (path : list Value) (absent : bool) (value : Value)
  : bool * Value :=
  match path with
  | [] => (absent, value)
  | key :: rest =>
      if negb (toBoolean value) || negb (hasOwn value (propertyKey key))
      then (true, value)
      else walkPath rest false (getProp value (propertyKey key))
  end.

(** [expression.value], which only a literal has. *)
Definition exprValue (e : Expression) : Value :=
  match e with
  | LiteralExpression _ v => v
  | CallExpression _ _ _ => VUndefined
  | NotExpression _ => VUndefined
  end.

(** [{type: expression.type, value: expression.value, slug: info.slug}] *)
Definition postInfo (expression : Expression) (info : PreAccessorInfo)
  : PostAccessorInfo :=
  {| postValue := exprValue expression;
     postType := exprType expression;
     postSlug := slug info |}.

(** The body of the loop for one accessor: the entry it adds, if any. *)
Definition processAccessor (values : Value) (info : PreAccessorInfo)
  : Outcome (option PostAccessorInfo) :=
  let (absent, value) := walkPath (path info) true values in
  if negb absent then
    match parseLiteralExpression value (type info) with
    | Return expression => Return (Some (postInfo expression info))
    | Throw message => Throw message
    | OutOfFuel => OutOfFuel
    end
  else
    match default info with
    | Some d =>
        match parseLiteralExpression d (type info) with
        | Return expression => Return (Some (postInfo expression info))
        | Throw message => Throw message
        | OutOfFuel => OutOfFuel
        end
    | None => Return None
    end.

Fixpoint processAccessorValuesFrom (values : Value)
    (infoLookup : Lookup PreAccessorInfo)
    (processedValues : Lookup PostAccessorInfo)
  : Outcome (Lookup PostAccessorInfo) :=
  match infoLookup with
  | [] => Return processedValues
  | (accessorKey, info) :: rest =>
      match processAccessor values info with
      | Return (Some post) =>
          processAccessorValuesFrom values rest
            (processedValues ++ [(accessorKey, post)])%list
      | Return None => processAccessorValuesFrom values rest processedValues
      | Throw message => Throw message
      | OutOfFuel => OutOfFuel
      end
  end.

Definition processAccessorValues (values : Value)
    (infoLookup : Lookup PreAccessorInfo)
  : Outcome (Lookup PostAccessorInfo) :=
  processAccessorValuesFrom values infoLookup [].

(** *** Notions used by the statements *)

(** The tree [e] has a call node whose operator is [operator]. *)
Fixpoint hasOperator (operator : string) (e : Expression) : bool :=
  match e with
  | LiteralExpression _ _ => false
  | CallExpression _ op args =>
      (op =? operator) || existsb (hasOperator operator) args
  | NotExpression _ => false
  end.

(** The encoded expression has a call of [operator] among its nodes: it
    is such a call, or an argument of the call that it is has one. *)
Fixpoint hasCall (operator : string) (encoded : Value) : bool :=
  match encoded with
  | VArr (VStr op :: args) =>
      (op =? operator) || existsb (hasCall operator) args
  | _ => false
  end.

(** The encoded value is no call of [constructor] or [toString], the two
    inherited members of [parsers] that return: what [parse] returns
    from it is an expression. *)
Definition plain (encoded : Value) : bool :=
  match encoded with
  | VArr (VStr operator :: _) =>
      negb ((operator =? "constructor") || (operator =? "toString"))
  | _ => true
  end.

(** No array inside the encoded value, at any depth, is a call of
    [constructor] or [toString]. *)
Fixpoint ordinary (encoded : Value) : bool :=
  match encoded with
  | VArr items => plain encoded && forallb ordinary items
  | _ => true
  end.

(** A lookup grows: its entries stay, in place, and new ones follow. *)
Definition extends {A : Type} (before after : Lookup A) : Prop :=
  exists added, after = (before ++ added)%list.

(** A parsing context grows: both lookups grow and no flag is reset. *)
Record grows (before after : ParsingContext) : Prop := {
  grows_variables : extends (variables before) (variables after);
  grows_properties : extends (properties before) (properties after);
  grows_featureId : featureId before = true -> featureId after = true;
  grows_geometryType :
    geometryType before = true -> geometryType after = true
}.

(** The walk along a path in the words of the specification: every
    segment is an own key of the current subtree.  [None] is absent. *)
Fixpoint ownWalk (value : Value) (path : list Value) : option Value :=
  match path with
  | [] => Some value
  | key :: rest =>
      if hasOwn value (propertyKey key)
      then ownWalk (getProp value (propertyKey key)) rest
      else None
  end.

(** The accessor is present at [leaf]: the path is not empty and each of
    its segments is an own key of a truthy subtree. *)
Inductive Present : Value -> list Value -> Value -> Prop :=
| Present_last value key :
    toBoolean value = true ->
    hasOwn value (propertyKey key) = true ->
    Present value [key] (getProp value (propertyKey key))
| Present_step value key next rest leaf :
    toBoolean value = true ->
    hasOwn value (propertyKey key) = true ->
    Present (getProp value (propertyKey key)) (next :: rest) leaf ->
    Present value (key :: next :: rest) leaf.

(** The nesting depth of arrays, which bounds the recursion of [parse]. *)
Fixpoint depth (v : Value) : nat :=
  match v with
  | VArr items => S (fold_right Nat.max 0 (map depth items))
  | _ => 0
  end.

End Parser.

(** *** computeGeometryType *)

(** What [computeGeometryType] reads of a geometry: its type, and the
    geometries of a collection.  [NoGeometry] is a geometry that is
    [undefined] or [null]. *)
#[warnings="-register-all"]
Inductive Geometry : Type :=
| NoGeometry
| GeometryOf (type : string) (geometries : list Geometry).

(** The first geometry of an empty collection is [undefined], for which
    the recursive call returns the empty string. *)
Fixpoint computeGeometryType (geometry : Geometry) : string :=
  match geometry with
  | NoGeometry => ""
  | GeometryOf type geometries =>
      if (type =? "Point") || (type =? "LineString") || (type =? "Polygon")
      then type
      else if (type =? "MultiPoint") || (type =? "MultiLineString")
              || (type =? "MultiPolygon")
      then String.substring 5 (String.length type - 5) type
      else if type =? "Circle" then "Polygon"
      else if type =? "GeometryCollection" then
        match geometries with
        | [] => ""
        | first :: _ => computeGeometryType first
        end
      else ""
  end.

End Expr.

(** ** Interpolation in the evaluator

    [ol/expr/cpu.js] is not among the sources; its tests are.  The
    numbers of the evaluator are rationals here, and what the sources do
    not give is a parameter: the real power [pow] that the exponential
    weight needs, and the colour space in which two colours are mixed. *)

Module Cpu.
#[local] Open Scope Q_scope.

(** What an expression evaluates to in an interpolation: a number, or a
    colour of four channels. *)
Inductive Output : Type :=
| NumberOutput (value : Q)
| ColorOutput (r g b a : Q).

Definition Stop : Type := (Q * Output)%type.

Definition Channels : Type := (Q * Q * Q * Q)%type.

Section Interpolation.
Variable pow : Q -> Q -> Q.

(** The channels that are mixed are those of the colour space of the
    colour module, which is not among the sources: the test
    [interpolate (linear color)] expects [[219, 170, 0, 1]] halfway
    between [red] and [[0, 255, 0]], which is not the mean of their red,
    green and blue channels.  [toSpace] takes the four channels of a
    colour to that space and [fromSpace] takes them back. *)
Variables toSpace fromSpace : Channels -> Channels.

(** [Math.round] *)
Definition round (q : Q) : Q := inject_Z (Qfloor (q + (1 # 2))).

(** Modelled from the spec: the weight of the input between two stops,
    [(x - s) / delta] when the base is 1 and
    [(base^(x - s) - 1) / (base^delta - 1)] otherwise. *)
Definition weight (base x s delta : Q) : Q :=
  if Qeq_bool base 1 then (x - s) / delta
  else (pow base (x - s) - 1) / (pow base delta - 1).

Definition mix (t a b : Q) : Q := (1 - t) * a + t * b.

(** Modelled from the spec: the output [(1 - t) * o1 + t * o2]; a colour
    is blended channel by channel, the red, green and blue ones rounded
    to integers. *)
Definition blend (t : Q) (o1 o2 : Output) : Output :=
  match o1, o2 with
  | NumberOutput a, NumberOutput b => NumberOutput (mix t a b)
  | ColorOutput r1 g1 b1 a1, ColorOutput r2 g2 b2 a2 =>
      let '(x1, y1, z1, w1) := toSpace (r1, g1, b1, a1) in
      let '(x2, y2, z2, w2) := toSpace (r2, g2, b2, a2) in
      let '(r, g, b, a) :=
        fromSpace (mix t x1 x2, mix t y1 y2, mix t z1 z2, mix t w1 w2) in
      ColorOutput (round r) (round g) (round b) a
  | _, _ => o2
  end.

(** Modelled from the spec: the search of the stops [previous], [next]
    with [s previous <= x < s next], and the output between them; when
    the two stops coincide the output is the one of [next]. *)
Fixpoint between (base x : Q) (previous : Stop) (rest : list Stop)
  : option Output :=
  match rest with
  | [] => None
  | next :: rest' =>
      if Qle_bool (fst next) x then between base x next rest'
      else
        let delta := fst next - fst previous in
        if Qeq_bool delta 0 then Some (snd next)
        else Some (blend (weight base x (fst previous) delta)
                         (snd previous) (snd next))
  end.

(** Modelled from the spec: the evaluation of [interpolate] at the input
    [x] over the stops.  At or below the first stop the result is the
    first output; otherwise at or above the last stop it is the last
    output; otherwise it lies between two stops. *)
Definition interpolate (base x : Q) (stops : list Stop) : option Output :=
  match stops with
  | [] => None
  | first :: rest =>
      if Qle_bool x (fst first) then Some (snd first)
      else
        let final := last stops first in
        if Qle_bool (fst final) x then Some (snd final)
        else between base x first rest
  end.

(** The stops do not decrease. *)
Fixpoint nonDecreasing (stops : list Stop) : Prop :=
  match stops with
  | [] => True
  | first :: rest =>
      match rest with
      | [] => True
      | next :: _ => fst first <= fst next
      end /\ nonDecreasing rest
  end.

(** *** The compiled expression *)

Section Evaluator.
Context {N : JsNumber}.

(** Modelled from the spec: the evaluation context that the caller
    supplies at each evaluation, with the processed accessor values
    under their keys; the feature id, the geometry type and the
    resolution may be unset. *)
Record EvaluationContext : Type := {
  properties : Expr.Lookup Expr.PostAccessorInfo;
  variables : Expr.Lookup Expr.PostAccessorInfo;
  featureId : option Js.Value;
  geometryType : option string;
  resolution : option Q
}.

(** The rational that a finite number is. *)
Variable rational : number -> option Q.

(** The closure of a call of another operator than [interpolate]: the
    specification of the other operators is not modelled. *)
Variable compileCall :
  Expr.PassedType -> string -> list Expr.Expression ->
  EvaluationContext -> option Output.

(** The value of a literal, when it is a number or a colour. *)
Definition outputOf (value : Js.Value) : option Output :=
  match value with
  | Js.VNum n => option_map NumberOutput (rational n)
  | Js.VArr [Js.VNum r; Js.VNum g; Js.VNum b; Js.VNum a] =>
      match rational r, rational g, rational b, rational a with
      | Some r', Some g', Some b', Some a' => Some (ColorOutput r' g' b' a')
      | _, _, _, _ => None
      end
  | _ => None
  end.

(** The stops that the evaluated arguments after the input make: each
    stop a number, followed by its output. *)
Fixpoint stopsOf (values : list (option Output)) : option (list Stop) :=
  match values with
  | [] => Some []
  | Some (NumberOutput s) :: Some o :: rest =>
      option_map (cons (s, o)) (stopsOf rest)
  | _ => None
  end.

(** Modelled from the spec: the closure of an [interpolate] node on the
    values of its arguments, which the parser left in the order base,
    input, stops. *)
Definition interpolateValues (values : list (option Output))
  : option Output :=
  match values with
  | Some (NumberOutput base) :: Some (NumberOutput x) :: stops =>
      match stopsOf stops with
      | Some pairs => interpolate base x pairs
      | None => None
      end
  | _ => None
  end.

(** Modelled from the spec: the closure that the evaluator makes of a
    typed tree, applied to an evaluation context.  A literal returns its
    value; an [interpolate] node evaluates its arguments and
    interpolates. *)
Fixpoint compileExpression (e : Expr.Expression)
    (context : EvaluationContext) : option Output :=
  match e with
  | Expr.LiteralExpression _ value => outputOf value
  | Expr.CallExpression type operator args =>
      if operator =? Expr.Ops.Interpolate
      then interpolateValues
             (map (fun arg => compileExpression arg context) args)
      else compileCall type operator args context
  | Expr.NotExpression _ => None
  end.

End Evaluator.
End Interpolation.
End Cpu.

(** ** The icon image cache

    A shallow embedding of [ol/style/IconImageCache].  The icons and the
    canvas patterns are objects of the library and the browser: the cache
    only stores them and asks an icon whether it is a [RegularShape],
    whether it has a listener and whether its image is loading.  An
    object used as a map is the list of its entries in the order of
    insertion, which is the order of [for ... in] since no key made by
    [getIconKey] is an array index. *)

Module IconImageCache.
Import Expr.

(** [String(v)] for a string or [null]. *)
Definition text (v : option string) : string :=
  match v with
  | Some s => s
  | None => "null"
  end.

(** [getIconKey(src, crossOrigin, color)] *)
Definition getIconKey (src : string) (crossOrigin color : option string)
  : string :=
  src ++ ":" ++ text crossOrigin ++ ":" ++ text color.

(** [o[key] = value]: an own key keeps its place, a new one comes last. *)
Fixpoint assign {A : Type} (key : string) (value : A) (l : Lookup A)
  : Lookup A :=
  match l with
  | [] => [(key, value)]
  | (k, a) :: rest =>
      if k =? key then (k, value) :: rest
      else (k, a) :: assign key value rest
  end.

(** [delete o[key]] *)
Definition delete {A : Type} (key : string) (l : Lookup A) : Lookup A :=
  filter (fun entry => negb (fst entry =? key)) l.

Section Cache.
(** An [IconImage] or a [RegularShape], and a [CanvasPattern]. *)
Variables Icon Pattern : Type.
(** [icon instanceof RegularShape] *)
Variable isRegularShape : Icon -> bool.
(** [icon.hasListener()] *)
Variable hasListener : Icon -> bool.
(** [iconImage.getImageState() === ImageState.LOADING], after [load] was
    called on an idle image. *)
Variable isLoading : Icon -> bool.
(** [getSharedCanvasContext2D().createPattern(iconImage.getImage(1),
    'repeat')] *)
Variable createPattern : Icon -> Pattern.

(** The fields of the cache; an icon that is [null] is [None], and the
    two sizes are integers. *)
Record Cache : Type := {
  cache_ : Lookup (option Icon);
  patternCache_ : Lookup Pattern;
  cacheSize_ : Z;
  maxCacheSize_ : Z
}.

(** [new IconImageCache()] *)
Definition create : Cache :=
  {| cache_ := []; patternCache_ := []; cacheSize_ := 0;
     maxCacheSize_ := 128 |}.

Definition clear (s : Cache) : Cache :=
  {| cache_ := []; patternCache_ := []; cacheSize_ := 0;
     maxCacheSize_ := maxCacheSize_ s |}.

Definition canExpireCache (s : Cache) : bool :=
  (maxCacheSize_ s <? cacheSize_ s)%Z.

(** The body of [expire] for the keys not yet visited, [i] being the
    counter.  A key that is no longer there is skipped, as [for ... in]
    does. *)
Fixpoint expireKeys (keys : list string) (i : nat) (s : Cache)
  : Cache * Outcome unit :=
  match keys with
  | [] => (s, Return tt)
  | key :: rest =>
      match lookup key (cache_ s) with
      | None => expireKeys rest i s
      | Some icon =>
          if (Nat.land i 3 =? 0)%nat then
            match icon with
            | None =>
                (s, Throw "Cannot read properties of null (reading 'hasListener')")
            | Some icon =>
                if isRegularShape icon || negb (hasListener icon)
                then expireKeys rest (i + 1)
                       {| cache_ := delete key (cache_ s);
                          patternCache_ := delete key (patternCache_ s);
                          cacheSize_ := cacheSize_ s - 1;
                          maxCacheSize_ := maxCacheSize_ s |}
                else expireKeys rest (i + 1) s
            end
          else expireKeys rest (i + 1) s
      end
  end.

Definition expire (s : Cache) : Cache * Outcome unit :=
  if negb (canExpireCache s) then (s, Return tt)
  else expireKeys (map fst (cache_ s)) 0 s.

(** [get(key)], on the own keys of the cache.  [key in this.cache_] also
    finds the names that the object inherits from [Object.prototype];
    these are left out here: the callers pass a key made by
    [getIconKey], which has a colon in it and so is none of them. *)
Definition get (key : string) (s : Cache) : option Icon :=
  match lookup key (cache_ s) with
  | Some icon => icon
  | None => None
  end.

Definition getPattern (src : string) (crossOrigin color : option string)
    (s : Cache) : option Pattern :=
  lookup (getIconKey src crossOrigin color) (patternCache_ s).

(** [set(src, crossOrigin, color, iconImage, pattern)].  The pattern of
    an image that is loading is stored later, when the image is ready:
    the call itself leaves [patternCache_]. *)
Definition set (src : string) (crossOrigin color : option string)
    (iconImage : option Icon) (pattern : bool) (s : Cache)
  : Cache * Outcome unit :=
  let key := getIconKey src crossOrigin color in
  let update := isSome (lookup key (cache_ s)) in
  let stored patterns :=
    {| cache_ := assign key iconImage (cache_ s);
       patternCache_ := patterns;
       cacheSize_ := cacheSize_ s;
       maxCacheSize_ := maxCacheSize_ s |} in
  let counted patterns :=
    {| cache_ := assign key iconImage (cache_ s);
       patternCache_ := patterns;
       cacheSize_ := if update then cacheSize_ s else (cacheSize_ s + 1)%Z;
       maxCacheSize_ := maxCacheSize_ s |} in
  if pattern then
    match iconImage with
    | None =>
        (stored (patternCache_ s),
         Throw "Cannot read properties of null (reading 'getImageState')")
    | Some icon =>
        if isLoading icon then (counted (patternCache_ s), Return tt)
        else (counted (assign key (createPattern icon) (patternCache_ s)),
              Return tt)
    end
  else (counted (patternCache_ s), Return tt).

Definition setSize (maxCacheSize : Z) (s : Cache) : Cache * Outcome unit :=
  expire {| cache_ := cache_ s; patternCache_ := patternCache_ s;
            cacheSize_ := cacheSize_ s; maxCacheSize_ := maxCacheSize |}.

End Cache.
End IconImageCache.

(** ** An instance of the numbers, for concrete runs

    The integers with [NaN] and the infinities; its conversion from a
    string reads integer literals only. *)

Inductive IntNumber : Type :=
| INaN
| IInfinity (negative : bool)
| IInt (z : Z).

Definition intToString (n : IntNumber) : string :=
  match n with
  | INaN => "NaN"
  | IInfinity false => "Infinity"
  | IInfinity true => "-Infinity"
  | IInt z => NilZero.string_of_int (Z.to_int z)
  end.

Definition intOfString (s : string) : IntNumber :=
  if s =? "" then IInt 0
  else if s =? "Infinity" then IInfinity false
  else if s =? "-Infinity" then IInfinity true
  else match NilZero.int_of_string s with
       | Some d => IInt (Z.of_int d)
       | None => INaN
       end.

#[export] Instance IntegerNumber : JsNumber := {|
  number := IntNumber;
  NaN := INaN;
  zero := IInt 0;
  one := IInt 1;
  ofNat := fun n => IInt (Z.of_nat n);
  isNaN := fun n => match n with INaN => true | _ => false end;
  isFinite := fun n => match n with IInt _ => true | _ => false end;
  truthy := fun n =>
    match n with
    | IInt z => negb (z =? 0)%Z
    | INaN => false
    | IInfinity _ => true
    end;
  atMostZero := fun n =>
    match n with
    | IInt z => (z <=? 0)%Z
    | IInfinity negative => negative
    | INaN => false
    end;
  numberToString := intToString;
  stringToNumber := intOfString;
  isNaN_zero := eq_refl;
  isNaN_one := eq_refl
|}.

(** An engine for the concrete runs.  Its one message stands for the
    wording of the engine at hand; no run below reads it. *)
#[export] Instance SomeEngine : JsEngine := {|
  typeErrorMessage := fun _ => "Cannot convert undefined or null to object"
|}.

(** A colour parser for concrete runs: it knows [red] and fails on any
    other string with the message of the specification. *)
Definition cssColor (s : string) : Js.Value + string :=
  if s =? "red"
  then inl (Js.VArr [Js.VNum (IInt 255); Js.VNum (IInt 0);
                     Js.VNum (IInt 0); Js.VNum (IInt 1)])
  else inr ("failed to parse " ++ quoted s ++ " as color").

(** A number literal of the instance. *)
Definition num (z : Z) : Js.Value := Js.VNum (IInt z).

(** * Properties *)

Import Js Expr.

Section MonadFacts.
Context {St A B : Type}.

Lemma bind_Return_inv (m : M St A) (k : A -> M St B) s s' b :
  bind m k s = (s', Return b) ->
  exists a s1, m s = (s1, Return a) /\ k a s1 = (s', Return b).
Proof.
  unfold bind. destruct (m s) as [s1 [a | message | ]]; intro H;
    try discriminate. now exists a, s1.
Qed.

Lemma rethrow_Return_inv prefix (m : M St A) s s' a :
  rethrow prefix m s = (s', Return a) -> m s = (s', Return a).
Proof.
  unfold rethrow. destruct (m s) as [s1 [a1 | message | ]]; intro H;
    congruence.
Qed.

End MonadFacts.

Section ParserFacts.
Context {N : JsNumber} {E : JsEngine}.
Variable colorFromString : string -> Value + string.

#[local] Abbreviation parseLiteralExpression :=
  (Expr.parseLiteralExpression colorFromString).
#[local] Abbreviation parse := (Expr.parse colorFromString).

Lemma parseLiteralExpression_type encoded T e :
  parseLiteralExpression encoded T = Return e -> exprType e = T.
Proof.
  unfold Expr.parseLiteralExpression.
  destruct T as [[] |]; destruct encoded; simpl;
    repeat match goal with
           | |- context [if ?b then _ else _] => destruct b
           | |- context [match colorFromString ?s with _ => _ end] =>
               destruct (colorFromString s)
           end;
    intro H; inversion H; reflexivity.
Qed.

Lemma createCallExpressionParser_type validators encoded T c c' e :
  createCallExpressionParser validators encoded T c = (c', Return e) ->
  exprType e = T.
Proof.
  unfold createCallExpressionParser. intro H.
  apply bind_Return_inv in H. destruct H as (args & c1 & _ & H).
  inversion H. reflexivity.
Qed.

(** What a member inherited by [parsers] does leaves the context as it
    was. *)
Lemma inheritedParser_context name encoded T c :
  fst (inheritedParser name encoded T c) = c.
Proof.
  unfold inheritedParser.
  destruct (name =? "constructor"); [reflexivity |].
  destruct (name =? "toString"); reflexivity.
Qed.

(** It returns for [constructor] and [toString] only. *)
Lemma inheritedParser_Return name encoded T c c' e :
  inheritedParser name encoded T c = (c', Return e) ->
  (name = "constructor" \/ name = "toString")
  /\ c' = c /\ exists value, e = NotExpression value.
Proof.
  unfold inheritedParser.
  destruct (String.eqb_spec name "constructor") as [-> | _].
  - intro H. inversion H. eauto.
  - destruct (String.eqb_spec name "toString") as [-> | _].
    + intro H. inversion H. eauto.
    + discriminate.
Qed.

Lemma plain_operator items :
  typeof (item items 0) = "string" ->
  plain (VArr items) = true ->
  operatorOf items <> "constructor" /\ operatorOf items <> "toString".
Proof.
  destruct items as [| [| | b | n | s | l | f] rest]; simpl;
    try discriminate.
  intros _ H. apply negb_true_iff, orb_false_iff in H.
  destruct H as [H1 H2]. unfold operatorOf. simpl.
  now apply String.eqb_neq in H1, H2.
Qed.

(** What [parse] returns from a plain encoding is an expression of the
    type it was parsed for. *)
Lemma parse_plain_type fuel encoded T c c' e :
  plain encoded = true ->
  parse fuel encoded T c = (c', Return e) -> exprType e = T.
Proof.
  intro Hplain.
  destruct fuel as [| fuel]; simpl; [discriminate |].
  assert (Hlit : forall v,
             lift (parseLiteralExpression v T) c = (c', Return e) ->
             exprType e = T).
  { unfold lift. intros v H. inversion H.
    eapply parseLiteralExpression_type; eassumption. }
  destruct encoded; try apply Hlit.
  destruct (List.length items =? 0)%nat; [discriminate |].
  destruct (typeof (item items 0) =? "string") eqn:Hstring; [| apply Hlit].
  apply String.eqb_eq in Hstring.
  destruct (plain_operator _ Hstring Hplain) as [Hc Hs].
  unfold parseCallExpression, parsers.
  destruct (lookup (operatorOf items) (validatorsOf _)) as [validators |].
  - apply createCallExpressionParser_type.
  - destruct (existsb (String.eqb (operatorOf items)) inheritedNames);
      [| unfold throw; discriminate].
    intro H. apply inheritedParser_Return in H. tauto.
Qed.

(** A call whose operator is no entry of the table does nothing to the
    context: it throws, or an inherited member returns what is no
    expression. *)
Lemma parseCallExpression_miss parseArg encoded T :
  lookup (operatorOf encoded) (validatorsOf parseArg) = None ->
  exists o : Outcome Expression,
    parseCallExpression parseArg encoded T = lift o
    /\ o <> OutOfFuel
    /\ forall e, o = Return e -> exists value, e = NotExpression value.
Proof.
  intro Hlookup. unfold parseCallExpression, parsers. rewrite Hlookup.
  destruct (existsb (String.eqb (operatorOf encoded)) inheritedNames).
  - unfold inheritedParser.
    destruct (operatorOf encoded =? "constructor");
      [eexists; repeat split; [discriminate |];
       intros e H; inversion H; eauto |].
    destruct (operatorOf encoded =? "toString");
      [eexists; repeat split; [discriminate |];
       intros e H; inversion H; eauto |].
    eexists; repeat split; discriminate.
  - eexists; repeat split; discriminate.
Qed.

(** From a call of [constructor] or [toString], what [parse] returns is
    no expression, and the context is as it was. *)
Lemma parse_not_plain fuel encoded T c c' e :
  plain encoded = false ->
  parse fuel encoded T c = (c', Return e) ->
  c' = c /\ exists value, e = NotExpression value.
Proof.
  intro Hplain.
  destruct fuel as [| fuel]; simpl; [discriminate |].
  destruct encoded as [| | b | n | s | items | fields];
    try discriminate Hplain.
  destruct items as [| [| | b | n | operator | l | f] rest];
    try discriminate Hplain.
  cbn [List.length Nat.eqb item nth typeof].
  change ("string" =? "string") with true. cbv iota.
  unfold parseCallExpression, parsers.
  change (operatorOf (VStr operator :: rest)) with operator.
  simpl in Hplain. apply negb_false_iff, orb_true_iff in Hplain.
  assert (Hlookup : lookup operator
                      (validatorsOf (Expr.parse colorFromString fuel))
                    = None).
  { destruct Hplain as [H | H]; apply String.eqb_eq in H; subst;
      reflexivity. }
  rewrite Hlookup.
  destruct (existsb (String.eqb operator) inheritedNames);
    [| unfold throw; discriminate].
  intro H. apply inheritedParser_Return in H. tauto.
Qed.

(** A literal that [parse] returns has the type asked for. *)
Lemma parse_literal_type fuel encoded T c c' e :
  parse fuel encoded T c = (c', Return e) ->
  isLiteral e = true -> exprType e = T.
Proof.
  intros H Hliteral. destruct (plain encoded) eqn:Hplain.
  - eapply parse_plain_type; eassumption.
  - apply parse_not_plain in H; [| assumption].
    destruct H as (_ & value & ->). discriminate Hliteral.
Qed.

(** C1, where the code departs from it.  The table of parsers is a plain
    object, so [parsers['constructor']] is the function [Object] that
    every object inherits: the call [['constructor', ...rest]] is not
    rejected as an unknown operator, it returns the encoded array itself,
    which is no expression and has no type, whatever the type asked for;
    the context is left as it was. *)
Theorem parse_constructor_untyped fuel rest (T : ValueType) c :
  parse (S fuel) (VArr (VStr "constructor" :: rest)) T c
  = (c, Return (NotExpression (VArr (VStr "constructor" :: rest))))
  /\ exprType (NotExpression (VArr (VStr "constructor" :: rest)))
     <> Declared T.
Proof. split; [reflexivity | discriminate]. Qed.

(** X29. The type of what [parse] returns.  From a plain encoding it is
    the type asked for, for a literal as for a call; from a call of
    [constructor] or [toString] what comes back is no expression, and
    the context is as it was. *)
Theorem parse_type fuel encoded T c c' e :
  parse fuel encoded T c = (c', Return e) ->
  if plain encoded then exprType e = T
  else c' = c /\ exists value, e = NotExpression value.
Proof.
  destruct (plain encoded) eqn:Hplain.
  - now apply parse_plain_type.
  - now apply parse_not_plain.
Qed.

(** The coercion of a boolean to [number] is [Number(v)]: 1 for [true]
    and 0 for [false]. *)
Lemma toNumber_bool_not_NaN b : isNaN (toNumber (VBool b)) = false.
Proof. destruct b; simpl; [apply isNaN_one | apply isNaN_zero]. Qed.

(** C3, as the code has it. A boolean is coerced to the type [number] by
    [Number(v)]: the literal 1 for [true] and the literal 0 for [false];
    nothing is thrown. *)
Theorem parseLiteralExpression_boolean_number b :
  parseLiteralExpression (VBool b) NumberType
  = Return (LiteralExpression NumberType
              (VNum (if b then one else zero))).
Proof.
  unfold Expr.parseLiteralExpression.
  cbn [typeof String.eqb Ascii.eqb Bool.eqb].
  rewrite toNumber_bool_not_NaN. reflexivity.
Qed.

(** C4, at the input of the repository's test: [parse(null, 'number',
    context)] does not throw, it returns the literal 0 ([Number(null)])
    and leaves the context as it was; and at no declared type does
    [parse(null, T, context)] throw the message for an expression that is
    neither an array nor a primitive value. *)
Theorem parse_null_number fuel c :
  parse (S fuel) VNull NumberType c
  = (c, Return (LiteralExpression NumberType (VNum zero)))
  /\ forall T,
       snd (parse (S fuel) VNull T c)
       <> Throw "expression must be an array or a primitive value".
Proof.
  split.
  - simpl. unfold lift, Expr.parseLiteralExpression. simpl.
    rewrite isNaN_zero. reflexivity.
  - intro T. simpl. unfold Expr.parseLiteralExpression.
    destruct T as [[] |]; simpl; try rewrite isNaN_zero; discriminate.
Qed.

Lemma parsers_match parseArg : parsers parseArg "match" = None.
Proof. reflexivity. Qed.

Lemma parsers_In parseArg :
  parsers parseArg "in"
  = Some (createCallExpressionParser
            [hasArgsCount 2 (Some 2); withInArgs parseArg]).
Proof. reflexivity. Qed.

(** C5, what the code does with the alias. No parser is registered under
    [match]: a call of that operator throws [unknown operator: match]
    whatever its arguments, the declared type and the context, and the
    context is left as it was. *)
Theorem parse_match_unknown fuel rest T c :
  parse (S fuel) (VArr (VStr "match" :: rest)) T c
  = (c, Throw "unknown operator: match").
Proof. reflexivity. Qed.

(** C7. A haystack that is an array whose first element is a string other
    than [literal] makes the [in] call throw the message that asks for the
    [literal] wrapper, whatever the needle, the declared type and the
    context. *)
Theorem parse_in_bare_string_array fuel needle first others T c :
  first <> "literal" ->
  parse (S fuel) (VArr [VStr "in"; needle; VArr (VStr first :: others)]) T c
  = (c, Throw ("for the " ++ quoted "in"
               ++ " operator, a string array should be wrapped in a "
               ++ quoted "literal"
               ++ " operator to disambiguate from expressions")).
Proof.
  intro Hfirst. apply String.eqb_neq in Hfirst.
  cbn [Expr.parse List.length Nat.eqb item nth typeof String.eqb].
  change (typeof (item [VStr "in"; needle; VArr (VStr first :: others)] 0) =? "string") with true.
  cbv iota. unfold parseCallExpression.
  change (operatorOf [VStr "in"; needle; VArr (VStr first :: others)]) with "in".
  rewrite parsers_In.
  unfold createCallExpressionParser, runValidators, bind at 1.
  unfold bind at 1. cbn [hasArgsCount List.length Nat.sub Nat.eqb negb ret].
  unfold withInArgs. cbn [item nth]. rewrite Hfirst. reflexivity.
Qed.

End ParserFacts.

(** ** The context only grows *)

Section GrowthFacts.
Context {N : JsNumber} {E : JsEngine}.
Variable colorFromString : string -> Value + string.

Lemma extends_refl {A : Type} (l : Lookup A) : extends l l.
Proof. exists []. now rewrite app_nil_r. Qed.

Lemma extends_trans {A : Type} (l1 l2 l3 : Lookup A) :
  extends l1 l2 -> extends l2 l3 -> extends l1 l3.
Proof.
  intros [a ->] [b ->]. exists (a ++ b)%list. now rewrite app_assoc.
Qed.

Lemma grows_refl c : grows c c.
Proof. split; auto using extends_refl. Qed.

Lemma grows_trans c1 c2 c3 : grows c1 c2 -> grows c2 c3 -> grows c1 c3.
Proof.
  intros [] []. split; eauto using extends_trans.
Qed.

(** Whatever its outcome, the computation leaves a context that grew. *)
Definition Grows {A : Type} (m : Ctx A) : Prop :=
  forall c, grows c (fst (m c)).

Lemma Grows_ret {A : Type} (a : A) : Grows (ret a).
Proof. intro c. apply grows_refl. Qed.

Lemma Grows_throw {A : Type} message : Grows (@throw _ A message).
Proof. intro c. apply grows_refl. Qed.

Lemma Grows_lift {A : Type} (o : Outcome A) : Grows (lift o).
Proof. intro c. apply grows_refl. Qed.

Lemma Grows_bind {A B : Type} (m : Ctx A) (k : A -> Ctx B) :
  Grows m -> (forall a, Grows (k a)) -> Grows (bind m k).
Proof.
  intros Hm Hk c. unfold bind. specialize (Hm c).
  destruct (m c) as [c1 [a | message | ]]; simpl in *; auto.
  eapply grows_trans; [eassumption | apply Hk].
Qed.

Lemma Grows_rethrow {A : Type} prefix (m : Ctx A) :
  Grows m -> Grows (rethrow prefix m).
Proof.
  intros Hm c. unfold rethrow. specialize (Hm c).
  destruct (m c) as [c1 [a | message | ]]; simpl in *; auto.
Qed.

Lemma Grows_forLoop {A : Type} count start step
    (body : nat -> A -> Ctx A) acc :
  (forall i a, Grows (body i a)) ->
  Grows (forLoop count start step body acc).
Proof.
  intro Hbody. revert start acc.
  induction count as [| count IH]; intros start acc; simpl.
  - apply Grows_ret.
  - apply Grows_bind; auto.
Qed.

Lemma Grows_if {A : Type} (b : bool) (m1 m2 : Ctx A) :
  Grows m1 -> Grows m2 -> Grows (if b then m1 else m2).
Proof. destruct b; auto. Qed.

Lemma withAccessorArgs_extends encoded T infoLookup :
  extends infoLookup (fst (withAccessorArgs encoded T infoLookup)).
Proof.
  unfold withAccessorArgs.
  destruct (accessorArgs _ _ _ _ _) as [[path options] | message | ];
    simpl; try apply extends_refl.
  destruct (isSome _); simpl; [apply extends_refl |].
  eexists. reflexivity.
Qed.

Lemma Grows_withGetArgs encoded T : Grows (withGetArgs encoded T).
Proof.
  intro c. unfold withGetArgs.
  pose proof (withAccessorArgs_extends encoded T (properties c)) as H.
  destruct (withAccessorArgs encoded T (properties c)) as [l r].
  split; simpl in *; auto using extends_refl.
Qed.

Lemma Grows_withVarArgs encoded T : Grows (withVarArgs encoded T).
Proof.
  intro c. unfold withVarArgs.
  pose proof (withAccessorArgs_extends encoded T (variables c)) as H.
  destruct (withAccessorArgs encoded T (variables c)) as [l r].
  split; simpl in *; auto using extends_refl.
Qed.

Lemma Grows_usesFeatureId encoded T : Grows (usesFeatureId encoded T).
Proof. intro c. split; simpl; auto using extends_refl. Qed.

Lemma Grows_usesGeometryType encoded T :
  Grows (usesGeometryType encoded T).
Proof. intro c. split; simpl; auto using extends_refl. Qed.

Create HintDb grows discriminated.
#[local] Hint Resolve Grows_ret Grows_throw Grows_lift Grows_rethrow
  Grows_withGetArgs Grows_withVarArgs Grows_usesFeatureId
  Grows_usesGeometryType : grows.
#[local] Hint Extern 2 (Grows (bind _ _)) =>
  apply Grows_bind; [| intro] : grows.
#[local] Hint Extern 2 (Grows (forLoop _ _ _ _ _)) =>
  apply Grows_forLoop; intros : grows.
#[local] Hint Extern 2 (Grows (if _ then _ else _)) =>
  apply Grows_if : grows.
#[local] Hint Extern 3 (Grows (match ?x with _ => _ end)) =>
  destruct x : grows.

Lemma Grows_withNoArgs encoded T : Grows (withNoArgs encoded T).
Proof. unfold withNoArgs. auto with grows. Qed.

Lemma Grows_hasArgsCount minArgs maxArgs encoded T :
  Grows (hasArgsCount minArgs maxArgs encoded T).
Proof. unfold hasArgsCount. auto 8 with grows. Qed.

Lemma Grows_hasOddArgs encoded T : Grows (hasOddArgs encoded T).
Proof. unfold hasOddArgs. auto with grows. Qed.

Lemma Grows_hasEvenArgs encoded T : Grows (hasEvenArgs encoded T).
Proof. unfold hasEvenArgs. auto with grows. Qed.

#[local] Hint Resolve Grows_withNoArgs Grows_hasArgsCount Grows_hasOddArgs
  Grows_hasEvenArgs : grows.

Section WithParseArg.
Variable parseArg : Value -> PassedType -> Ctx Expression.
Hypothesis Grows_parseArg : forall encoded T, Grows (parseArg encoded T).

#[local] Hint Resolve Grows_parseArg : grows.

Lemma Grows_withArgsOfType argType encoded T :
  Grows (withArgsOfType parseArg argType encoded T).
Proof. unfold withArgsOfType. auto 8 with grows. Qed.

Lemma Grows_withMatchArgs inputType encoded T :
  Grows (withMatchArgs parseArg inputType encoded T).
Proof. unfold withMatchArgs. auto 12 with grows. Qed.

Lemma Grows_withInterpolateArgs encoded T :
  Grows (withInterpolateArgs parseArg encoded T).
Proof. unfold withInterpolateArgs. auto 12 with grows. Qed.

Lemma Grows_withCaseArgs encoded T :
  Grows (withCaseArgs parseArg encoded T).
Proof. unfold withCaseArgs. auto 12 with grows. Qed.

Lemma Grows_withInArgs encoded T :
  Grows (withInArgs parseArg encoded T).
Proof. unfold withInArgs. auto 14 with grows. Qed.

Lemma Grows_withPaletteArgs encoded T :
  Grows (withPaletteArgs parseArg encoded T).
Proof. unfold withPaletteArgs. auto 12 with grows. Qed.

#[local] Hint Resolve Grows_withArgsOfType Grows_withMatchArgs
  Grows_withInterpolateArgs Grows_withCaseArgs Grows_withInArgs
  Grows_withPaletteArgs : grows.

Lemma Grows_runValidators validators encoded T :
  Forall (fun v : ArgValidator => forall e t, Grows (v e t)) validators ->
  Grows (runValidators validators encoded T).
Proof.
  induction 1 as [| v rest Hv Hrest IH]; simpl.
  - apply Grows_throw.
  - destruct rest as [| v' rest'].
    + apply Grows_bind; [apply Hv |]. intros [args |]; auto with grows.
    + apply Grows_bind; [apply Hv | intro; apply IH].
Qed.

Lemma Grows_validatorsOf :
  Forall (fun entry : string * list ArgValidator =>
            Forall (fun v : ArgValidator => forall e t, Grows (v e t))
                   (snd entry))
         (validatorsOf parseArg).
Proof.
  unfold validatorsOf.
  repeat (apply Forall_cons;
          [simpl; repeat (apply Forall_cons; [auto with grows |]);
           apply Forall_nil |]).
  apply Forall_nil.
Qed.

Lemma lookup_In {A : Type} key (l : Lookup A) a :
  lookup key l = Some a -> In (key, a) l.
Proof.
  induction l as [| [k x] l IH]; simpl; [discriminate |].
  destruct (String.eqb_spec k key) as [-> | Hne].
  - intro H. inversion H. now left.
  - intro H. right. auto.
Qed.

Lemma Grows_parseCallExpression encoded T :
  Grows (parseCallExpression parseArg encoded T).
Proof.
  destruct (lookup (operatorOf encoded) (validatorsOf parseArg))
    as [validators |] eqn:Hlookup.
  2: { destruct (parseCallExpression_miss _ _ T Hlookup) as (o & -> & _).
       apply Grows_lift. }
  unfold parseCallExpression, parsers. rewrite Hlookup.
  apply lookup_In in Hlookup.
  pose proof Grows_validatorsOf as Htable.
  rewrite Forall_forall in Htable. specialize (Htable _ Hlookup).
  unfold createCallExpressionParser.
  apply Grows_bind; [| intro; apply Grows_ret].
  apply Grows_runValidators. exact Htable.
Qed.

End WithParseArg.

Lemma Grows_parse fuel encoded T :
  Grows (parse colorFromString fuel encoded T).
Proof.
  revert encoded T. induction fuel as [| fuel IH]; intros encoded T; simpl.
  - apply Grows_lift.
  - destruct encoded; try apply Grows_lift.
    destruct (List.length items =? 0)%nat; [apply Grows_throw |].
    destruct (typeof (item items 0) =? "string"); [| apply Grows_lift].
    apply Grows_parseCallExpression. exact IH.
Qed.

End GrowthFacts.

(** ** The usage flags follow the tree *)

(** The two usage flags of a context, each with the operator that sets
    it. *)
Inductive Flag : Type := FeatureIdFlag | GeometryTypeFlag.

Definition flagOf {N : JsNumber} (fl : Flag) (c : ParsingContext) : bool :=
  match fl with
  | FeatureIdFlag => featureId c
  | GeometryTypeFlag => geometryType c
  end.

Definition flagOperator (fl : Flag) : string :=
  match fl with
  | FeatureIdFlag => Ops.Id
  | GeometryTypeFlag => Ops.GeometryType
  end.

Section FlagFacts.
Context {N : JsNumber} {E : JsEngine}.
Variable colorFromString : string -> Value + string.
Variable fl : Flag.

(** The nodes of [e], or of some tree of [args], that set the flag. *)
Definition sets (e : Expression) : bool := hasOperator (flagOperator fl) e.
Definition anySets (args : list Expression) : bool := existsb sets args.

(** When the computation returns, the flag is the one before or the one
    that [measure] reads off the result. *)
Definition Tracks {A : Type} (measure : A -> bool) (m : Ctx A) : Prop :=
  forall c c' a,
    m c = (c', Return a) -> flagOf fl c' = flagOf fl c || measure a.

(** A validator that only checks: it returns nothing and leaves the flag. *)
Definition Checks (v : ArgValidator) : Prop :=
  forall encoded T c c' r,
    v encoded T c = (c', Return r) ->
    r = None /\ flagOf fl c' = flagOf fl c.

(** A validator that gives the arguments: the flag follows them. *)
Definition Gives (v : ArgValidator) : Prop :=
  forall encoded T c c' r,
    v encoded T c = (c', Return r) ->
    exists args, r = Some args
                 /\ flagOf fl c' = flagOf fl c || anySets args.

Lemma anySets_app args1 args2 :
  anySets (args1 ++ args2) = anySets args1 || anySets args2.
Proof. apply existsb_app. Qed.

(** A loop whose body appends to the array and tracks what it appends. *)
Lemma forLoop_appends count start step
    (body : nat -> list Expression -> Ctx (list Expression)) acc c c' out :
  (forall i a c1 c2 a', body i a c1 = (c2, Return a') ->
     exists new, a' = (a ++ new)%list
                 /\ flagOf fl c2 = flagOf fl c1 || anySets new) ->
  forLoop count start step body acc c = (c', Return out) ->
  exists new, out = (acc ++ new)%list
              /\ flagOf fl c' = flagOf fl c || anySets new.
Proof.
  intro Hbody. revert start acc c.
  induction count as [| count IH]; intros start acc c; simpl.
  - unfold ret. intro H. inversion H; subst. exists [].
    rewrite app_nil_r. simpl. now rewrite orb_false_r.
  - intro H. apply bind_Return_inv in H.
    destruct H as (a1 & c1 & Hstep & Hrest).
    apply Hbody in Hstep. destruct Hstep as (new1 & -> & Hflag1).
    apply IH in Hrest. destruct Hrest as (new2 & -> & Hflag2).
    exists (new1 ++ new2)%list. split; [now rewrite app_assoc |].
    rewrite Hflag2, Hflag1, anySets_app. now rewrite orb_assoc.
Qed.

Lemma withAccessorArgs_literal encoded T infoLookup l args :
  withAccessorArgs encoded T infoLookup = (l, Return args) ->
  anySets args = false.
Proof.
  unfold withAccessorArgs.
  destruct (accessorArgs _ _ _ _ _) as [[path options] | message | ];
    try discriminate.
  destruct (isSome _); intro H; inversion H; reflexivity.
Qed.

Lemma Gives_withGetArgs : Gives withGetArgs.
Proof.
  intros encoded T c c' r. unfold withGetArgs.
  destruct (withAccessorArgs encoded T (properties c)) as [l o] eqn:Hacc.
  destruct o as [args | message | ]; intro H; inversion H; subst.
  exists args. split; [reflexivity |].
  rewrite (withAccessorArgs_literal _ _ _ Hacc).
  destruct fl; simpl; now rewrite orb_false_r.
Qed.

Lemma Gives_withVarArgs : Gives withVarArgs.
Proof.
  intros encoded T c c' r. unfold withVarArgs.
  destruct (withAccessorArgs encoded T (variables c)) as [l o] eqn:Hacc.
  destruct o as [args | message | ]; intro H; inversion H; subst.
  exists args. split; [reflexivity |].
  rewrite (withAccessorArgs_literal _ _ _ Hacc).
  destruct fl; simpl; now rewrite orb_false_r.
Qed.

Lemma Gives_withNoArgs : Gives withNoArgs.
Proof.
  intros encoded T c c' r. unfold withNoArgs.
  destruct (negb _); unfold throw, ret; intro H; inversion H; subst.
  exists []. split; [reflexivity |]. simpl. now rewrite orb_false_r.
Qed.

Lemma Checks_hasArgsCount minArgs maxArgs :
  Checks (hasArgsCount minArgs maxArgs).
Proof.
  intros encoded T c c' r. unfold hasArgsCount.
  destruct maxArgs as [maxArgs |];
    repeat match goal with
           | |- context [if ?b then _ else _] => destruct b
           end;
    unfold throw, ret; intro H; inversion H; auto.
Qed.

Lemma Checks_hasOddArgs : Checks hasOddArgs.
Proof.
  intros encoded T c c' r. unfold hasOddArgs.
  destruct (_ =? _)%nat; unfold throw, ret; intro H; inversion H; auto.
Qed.

Lemma Checks_hasEvenArgs : Checks hasEvenArgs.
Proof.
  intros encoded T c c' r. unfold hasEvenArgs.
  destruct (_ =? _)%nat; unfold throw, ret; intro H; inversion H; auto.
Qed.

(** The chain of validators registered under [operator]: when it returns,
    the flag follows the operator and the arguments. *)
Definition ChainTracks (operator : string) (validators : list ArgValidator)
  : Prop :=
  forall encoded T c c' args,
    runValidators validators encoded T c = (c', Return args) ->
    flagOf fl c'
    = flagOf fl c || (operator =? flagOperator fl) || anySets args.

Lemma chain_gives operator v :
  (operator =? flagOperator fl) = false ->
  Gives v -> ChainTracks operator [v].
Proof.
  intros Hop Hv encoded T c c' args H. simpl in H.
  apply bind_Return_inv in H. destruct H as (r & c1 & Hrun & Hret).
  apply Hv in Hrun. destruct Hrun as (args' & -> & Hflag).
  unfold ret in Hret. inversion Hret; subst.
  rewrite Hflag, Hop. now rewrite orb_false_r.
Qed.

Lemma chain_checks operator v v' rest :
  Checks v -> ChainTracks operator (v' :: rest) ->
  ChainTracks operator (v :: v' :: rest).
Proof.
  intros Hv Hrest encoded T c c' args H.
  change (runValidators (v :: v' :: rest) encoded T)
    with (bind (v encoded T)
               (fun _ => runValidators (v' :: rest) encoded T)) in H.
  apply bind_Return_inv in H. destruct H as (r & c1 & Hrun & Hnext).
  apply Hv in Hrun. destruct Hrun as [_ Hflag].
  apply Hrest in Hnext. now rewrite Hnext, Hflag.
Qed.

Lemma chain_Id : ChainTracks Ops.Id [usesFeatureId; withNoArgs].
Proof.
  intros encoded T c c' args H. simpl in H.
  apply bind_Return_inv in H. destruct H as (r & c1 & Hrun & Hnext).
  unfold usesFeatureId in Hrun. inversion Hrun; subst; clear Hrun.
  apply bind_Return_inv in Hnext. destruct Hnext as (r & c2 & Hrun & Hret).
  apply Gives_withNoArgs in Hrun. destruct Hrun as (args' & -> & Hflag).
  unfold ret in Hret. inversion Hret; subst.
  rewrite Hflag. destruct fl; simpl; btauto.
Qed.

Lemma chain_GeometryType :
  ChainTracks Ops.GeometryType [usesGeometryType; withNoArgs].
Proof.
  intros encoded T c c' args H. simpl in H.
  apply bind_Return_inv in H. destruct H as (r & c1 & Hrun & Hnext).
  unfold usesGeometryType in Hrun. inversion Hrun; subst; clear Hrun.
  apply bind_Return_inv in Hnext. destruct Hnext as (r & c2 & Hrun & Hret).
  apply Gives_withNoArgs in Hrun. destruct Hrun as (args' & -> & Hflag).
  unfold ret in Hret. inversion Hret; subst.
  rewrite Hflag. destruct fl; simpl; btauto.
Qed.

Lemma other_operator operator :
  (operator =? Ops.Id) = false ->
  (operator =? Ops.GeometryType) = false ->
  (operator =? flagOperator fl) = false.
Proof. destruct fl; auto. Qed.

Section WithParseArg.
Variable parseArg : Value -> PassedType -> Ctx Expression.
Hypothesis Tracks_parseArg : forall encoded T, Tracks sets (parseArg encoded T).

(** Taking apart a computation that returned. *)
Ltac returned :=
  repeat match goal with
         | H : bind _ _ _ = (_, Return _) |- _ =>
             apply bind_Return_inv in H;
             let a := fresh "a" in
             let c := fresh "c" in
             let H1 := fresh "H" in
             let H2 := fresh "H" in
             destruct H as (a & c & H1 & H2)
         | H : rethrow _ _ _ = (_, Return _) |- _ =>
             apply rethrow_Return_inv in H
         | H : parseArg _ _ _ = (_, Return _) |- _ =>
             apply Tracks_parseArg in H
         | H : ret _ _ = (_, Return _) |- _ =>
             unfold ret in H; inversion H; subst; clear H
         | H : throw _ _ = (_, Return _) |- _ =>
             unfold throw in H; discriminate H
         | H : lift _ _ = (_, Return _) |- _ =>
             unfold lift in H; inversion H; subst; clear H
         | H : (if ?b then _ else _) _ = (_, Return _) |- _ =>
             destruct b
         end.

(** Closing a goal on the flag from the equations collected. *)
Ltac flags :=
  unfold anySets in *; simpl app; simpl existsb;
  repeat rewrite existsb_app; simpl existsb;
  repeat match goal with
         | H : flagOf fl _ = _ |- _ => rewrite H; clear H
         end;
  btauto.

(** A loop that returned: what it appended, and the flag after it. *)
Ltac looped :=
  match goal with
  | H : forLoop _ _ _ _ _ _ = (_, Return _) |- _ =>
      apply forLoop_appends in H;
      [ let new := fresh "new" in
        let Hflag := fresh "Hflag" in
        destruct H as (new & -> & Hflag)
      | clear - Tracks_parseArg; intros; returned;
        eexists; (split; [reflexivity |]); flags ]
  end.

Ltac gives := eexists; (split; [reflexivity |]); flags.

Lemma Gives_withArgsOfType argType : Gives (withArgsOfType parseArg argType).
Proof.
  intros encoded T c c' r H. unfold withArgsOfType in H.
  returned. looped. gives.
Qed.

Lemma Gives_withMatchArgs inputType :
  Gives (withMatchArgs parseArg inputType).
Proof.
  intros encoded T c c' r H. unfold withMatchArgs in H.
  returned. looped. gives.
Qed.

Lemma Gives_withInterpolateArgs : Gives (withInterpolateArgs parseArg).
Proof.
  intros encoded T c c' r H. unfold withInterpolateArgs in H.
  returned. looped. gives.
Qed.

Lemma Gives_withCaseArgs : Gives (withCaseArgs parseArg).
Proof.
  intros encoded T c c' r H. unfold withCaseArgs in H.
  returned. looped. gives.
Qed.

Lemma Gives_withInArgs : Gives (withInArgs parseArg).
Proof.
  intros encoded T c c' r H. unfold withInArgs in H.
  destruct (item encoded 2); try (unfold throw in H; discriminate H).
  destruct (item items 0); try (returned; looped; gives).
  destruct (negb _); [unfold throw in H; discriminate H |].
  destruct (item items 1); try (unfold throw in H; discriminate H).
  returned. looped. gives.
Qed.

Lemma Gives_withPaletteArgs : Gives (withPaletteArgs parseArg).
Proof.
  intros encoded T c c' r H. unfold withPaletteArgs in H. returned.
  destruct (item encoded 2);
    try match goal with
        | H : throw _ _ = _ |- _ => unfold throw in H; discriminate H
        end.
  returned. looped. gives.
Qed.

Lemma ChainTracks_validatorsOf :
  Forall (fun entry : string * list ArgValidator =>
            ChainTracks (fst entry) (snd entry))
         (validatorsOf parseArg).
Proof.
  unfold validatorsOf.
  repeat (apply Forall_cons;
          [ simpl;
            first [ apply chain_Id
                  | apply chain_GeometryType
                  | repeat (apply chain_checks;
                            [ first [ apply Checks_hasArgsCount
                                    | apply Checks_hasOddArgs
                                    | apply Checks_hasEvenArgs ] |]);
                    apply chain_gives;
                    [ apply other_operator; reflexivity
                    | first [ apply Gives_withGetArgs
                            | apply Gives_withVarArgs
                            | apply Gives_withNoArgs
                            | apply Gives_withArgsOfType
                            | apply Gives_withMatchArgs
                            | apply Gives_withInterpolateArgs
                            | apply Gives_withCaseArgs
                            | apply Gives_withInArgs
                            | apply Gives_withPaletteArgs ] ] ] |]).
  apply Forall_nil.
Qed.

Lemma Tracks_parseCallExpression encoded T :
  Tracks sets (parseCallExpression parseArg encoded T).
Proof.
  intros c c' e.
  destruct (lookup (operatorOf encoded) (validatorsOf parseArg))
    as [validators |] eqn:Hlookup.
  2: { destruct (parseCallExpression_miss _ _ T Hlookup)
         as (o & -> & _ & Ho).
       unfold lift. intro H. inversion H; subst.
       destruct (Ho e eq_refl) as [value ->]. unfold sets. simpl.
       now rewrite orb_false_r. }
  unfold parseCallExpression, parsers. rewrite Hlookup.
  apply lookup_In in Hlookup.
  pose proof ChainTracks_validatorsOf as Htable.
  rewrite Forall_forall in Htable. specialize (Htable _ Hlookup).
  simpl in Htable. unfold createCallExpressionParser. intro H.
  apply bind_Return_inv in H. destruct H as (args & c1 & Hrun & Hret).
  apply Htable in Hrun. unfold ret in Hret. inversion Hret; subst.
  rewrite Hrun. unfold sets. simpl. now rewrite orb_assoc.
Qed.

End WithParseArg.

Lemma parseLiteralExpression_literal encoded T e :
  parseLiteralExpression colorFromString encoded T = Return e ->
  isLiteral e = true.
Proof.
  unfold parseLiteralExpression.
  destruct T as [[] |]; destruct encoded; simpl;
    repeat match goal with
           | |- context [if ?b then _ else _] => destruct b
           | |- context [match colorFromString ?s with _ => _ end] =>
               destruct (colorFromString s)
           end;
    intro H; inversion H; reflexivity.
Qed.

Lemma Tracks_literal encoded T :
  Tracks sets (lift (parseLiteralExpression colorFromString encoded T)).
Proof.
  intros c c' e H. unfold lift in H. inversion H; subst.
  match goal with
  | H : parseLiteralExpression _ _ _ = Return _ |- _ =>
      apply parseLiteralExpression_literal in H
  end.
  destruct e; try discriminate. unfold sets. simpl.
  now rewrite orb_false_r.
Qed.

Lemma Tracks_parse fuel encoded T :
  Tracks sets (parse colorFromString fuel encoded T).
Proof.
  revert encoded T. induction fuel as [| fuel IH]; intros encoded T; simpl.
  - intros c c' e H. discriminate H.
  - destruct encoded; try apply Tracks_literal.
    destruct (List.length items =? 0)%nat;
      [intros c c' e H; discriminate H |].
    destruct (typeof (item items 0) =? "string"); [| apply Tracks_literal].
    apply Tracks_parseCallExpression. exact IH.
Qed.

End FlagFacts.

Section FlagTheorem.
Context {N : JsNumber} {E : JsEngine}.
Variable colorFromString : string -> Value + string.

(** C6, where the code departs from it.  [parsers['constructor']] is the
    function [Object] that the table inherits, so the call
    [['constructor', ['id']]] returns the encoded array as it is: its
    argument [['id']] is never parsed and, from a fresh context, the flag
    [featureId] stays false although the expression has an [id] node;
    likewise for [['constructor', ['geometry-type']]]. *)
Theorem parse_constructor_flags fuel T :
  let viaId := VArr [VStr "constructor"; VArr [VStr "id"]] in
  let viaGeometryType :=
    VArr [VStr "constructor"; VArr [VStr "geometry-type"]] in
  parse colorFromString (S fuel) viaId T newParsingContext
  = (newParsingContext, Return (NotExpression viaId))
  /\ hasCall "id" viaId = true
  /\ featureId newParsingContext = false
  /\ parse colorFromString (S fuel) viaGeometryType T newParsingContext
     = (newParsingContext, Return (NotExpression viaGeometryType))
  /\ hasCall "geometry-type" viaGeometryType = true
  /\ geometryType newParsingContext = false.
Proof. repeat split. Qed.

(** X30. After a parse that returns, started from a fresh context, the
    flag [featureId] is true exactly when the returned tree has an [id]
    node, and the flag [geometryType] exactly when it has a
    [geometry-type] node, at any depth. *)
Theorem parse_usage_flags fuel encoded T c e :
  parse colorFromString fuel encoded T newParsingContext = (c, Return e) ->
  (featureId c = true <-> hasOperator "id" e = true)
  /\ (geometryType c = true <-> hasOperator "geometry-type" e = true).
Proof.
  intro H. split.
  - apply (Tracks_parse colorFromString FeatureIdFlag) in H.
    simpl in H. rewrite H. reflexivity.
  - apply (Tracks_parse colorFromString GeometryTypeFlag) in H.
    simpl in H. rewrite H. reflexivity.
Qed.

End FlagTheorem.

(** ** The JSON text of a value determines the value *)

Section StringFacts.

Lemma append_assoc (s1 s2 s3 : string) :
  (s1 ++ s2) ++ s3 = s1 ++ (s2 ++ s3).
Proof. induction s1 as [| c s1 IH]; simpl; [reflexivity | now rewrite IH]. Qed.

Lemma append_nil_r (s : string) : s ++ "" = s.
Proof. induction s as [| c s IH]; simpl; [reflexivity | now rewrite IH]. Qed.

Lemma append_inv_head (s t1 t2 : string) : s ++ t1 = s ++ t2 -> t1 = t2.
Proof.
  induction s as [| c s IH]; simpl; [auto |].
  intro H. inversion H. auto.
Qed.

(** The value of a hexadecimal digit. *)
Definition hexValue (c : ascii) : nat :=
  let n := nat_of_ascii c in
  if (n <? 58)%nat then n - 48 else n - 87.

(** Reading back one escaped character from the front of a text: the
    inverse of [escapeChar]. *)
Definition unescapeHead (s : string) : option (ascii * string) :=
  match s with
  | EmptyString => None
  | String c t =>
      if (nat_of_ascii c =? 92)%nat then
        match t with
        | EmptyString => None
        | String d t' =>
            let n := nat_of_ascii d in
            if (n =? 34)%nat then Some (d, t')
            else if (n =? 92)%nat then Some (d, t')
            else if (n =? 98)%nat then Some (ascii_of_nat 8, t')
            else if (n =? 116)%nat then Some (ascii_of_nat 9, t')
            else if (n =? 110)%nat then Some (ascii_of_nat 10, t')
            else if (n =? 102)%nat then Some (ascii_of_nat 12, t')
            else if (n =? 114)%nat then Some (ascii_of_nat 13, t')
            else
              match t' with
              | String _ (String _ (String h (String l t''))) =>
                  Some (ascii_of_nat (16 * hexValue h + hexValue l), t'')
              | _ => None
              end
        end
      else Some (c, t)
  end.

Lemma unescapeHead_escapeChar c t :
  unescapeHead (escapeChar c ++ t) = Some (c, t).
Proof.
  destruct c as [[] [] [] [] [] [] [] []]; reflexivity.
Qed.

Lemma escapeChar_prefix_free c1 c2 t1 t2 :
  escapeChar c1 ++ t1 = escapeChar c2 ++ t2 -> c1 = c2 /\ t1 = t2.
Proof.
  intro H. apply (f_equal unescapeHead) in H.
  rewrite !unescapeHead_escapeChar in H. inversion H. auto.
Qed.

(** An escaped character never starts with the double quote. *)
Lemma escapeChar_not_quote c t r :
  escapeChar c ++ t <> dquote ++ r.
Proof.
  destruct c as [[] [] [] [] [] [] [] []]; discriminate.
Qed.

Lemma escape_prefix_free s1 s2 r1 r2 :
  escape s1 ++ dquote ++ r1 = escape s2 ++ dquote ++ r2 ->
  s1 = s2 /\ r1 = r2.
Proof.
  revert s2. induction s1 as [| c1 s1 IH]; intros [| c2 s2]; simpl.
  - intro H. inversion H. auto.
  - intro H. exfalso. rewrite append_assoc in H. symmetry in H.
    eapply escapeChar_not_quote. exact H.
  - intro H. exfalso. rewrite append_assoc in H.
    eapply escapeChar_not_quote. exact H.
  - rewrite !append_assoc. intro H.
    apply escapeChar_prefix_free in H. destruct H as [-> H].
    apply IH in H. destruct H as [-> ->]. auto.
Qed.

Lemma quote_prefix_free s1 s2 r1 r2 :
  quote s1 ++ r1 = quote s2 ++ r2 -> s1 = s2 /\ r1 = r2.
Proof.
  unfold quote, quoted. rewrite !append_assoc. intro H.
  apply append_inv_head in H. now apply escape_prefix_free.
Qed.

End StringFacts.

Section JsonFacts.
Context {N : JsNumber} {E : JsEngine}.

(** The characters of the text of a finite number. *)
Definition isNumberChar (c : ascii) : bool :=
  existsb (Ascii.eqb c) (list_ascii_of_string "0123456789+-.e").

(** What JSON needs of the text of the finite numbers: it is not empty,
    it is made of the characters of numbers, and it determines the
    number. *)
Record JsonNumbers : Prop := {
  numberText_chars :
    forall n, isFinite n = true ->
      forallb isNumberChar (list_ascii_of_string (numberToString n)) = true;
  numberText_nonempty :
    forall n, isFinite n = true -> numberToString n <> "";
  numberText_inj :
    forall n m, isFinite n = true -> isFinite m = true ->
      numberToString n = numberToString m -> n = m
}.

(** A text that cannot continue a number: it is empty or starts with a
    character that no number has. *)
Definition delimited (r : string) : Prop :=
  match r with
  | EmptyString => True
  | String c _ => isNumberChar c = false
  end.

Lemma number_text_prefix_free s1 s2 r1 r2 :
  forallb isNumberChar (list_ascii_of_string s1) = true ->
  forallb isNumberChar (list_ascii_of_string s2) = true ->
  delimited r1 -> delimited r2 ->
  s1 ++ r1 = s2 ++ r2 -> s1 = s2 /\ r1 = r2.
Proof.
  revert s2. induction s1 as [| c1 s1 IH]; intros [| c2 s2]; simpl.
  - auto.
  - intros _ Hs2 Hr1 _ H. subst r1. simpl in Hr1.
    apply andb_prop in Hs2. destruct Hs2 as [Hc _]. congruence.
  - intros Hs1 _ _ Hr2 H. subst r2. simpl in Hr2.
    apply andb_prop in Hs1. destruct Hs1 as [Hc _]. congruence.
  - intros Hs1 Hs2 Hr1 Hr2 H. inversion H; subst.
    apply andb_prop in Hs1. apply andb_prop in Hs2.
    destruct (IH s2 (proj2 Hs1) (proj2 Hs2) Hr1 Hr2 H2) as [-> ->]. auto.
Qed.

(** Induction on a value through its items and fields. *)
Lemma Value_nested_ind (P : Value -> Prop) :
  P VUndefined -> P VNull -> (forall b, P (VBool b)) ->
  (forall n, P (VNum n)) -> (forall s, P (VStr s)) ->
  (forall items, Forall P items -> P (VArr items)) ->
  (forall fields, Forall (fun kv => P (snd kv)) fields -> P (VObj fields)) ->
  forall v, P v.
Proof.
  intros Hundefined Hnull Hbool Hnum Hstr Harr Hobj.
  fix self 1. intros [| | b | n | s | items | fields].
  - exact Hundefined.
  - exact Hnull.
  - apply Hbool.
  - apply Hnum.
  - apply Hstr.
  - apply Harr. induction items as [| x items IH]; constructor.
    + apply self.
    + exact IH.
  - apply Hobj. induction fields as [| [k x] fields IH]; constructor.
    + apply self.
    + exact IH.
Qed.

Lemma jsonStringify_safe v :
  jsonSafe v = true -> jsonStringify v = Some (jsonText v).
Proof.
  unfold jsonText. destruct v; simpl; try discriminate; reflexivity.
Qed.

(** The parts of an array or an object after the first one, each after a
    comma, and the closing bracket. *)
Fixpoint closeWith (close : string) (parts : list string) : string :=
  match parts with
  | [] => close
  | part :: rest => "," ++ part ++ closeWith close rest
  end.

Lemma concat_closeWith part parts close :
  String.concat "," (part :: parts) ++ close
  = part ++ closeWith close parts.
Proof.
  revert part. induction parts as [| next rest IH]; intro part.
  - reflexivity.
  - change (String.concat "," (part :: next :: rest))
      with (part ++ "," ++ String.concat "," (next :: rest)).
    rewrite !append_assoc. rewrite IH. reflexivity.
Qed.

Lemma closeWith_append close parts r :
  closeWith close parts ++ r = closeWith (close ++ r) parts.
Proof.
  induction parts as [| part rest IH]; simpl; [reflexivity |].
  now rewrite append_assoc, IH.
Qed.

Lemma delimited_closeWith close parts c close' :
  close = String c close' -> isNumberChar c = false ->
  delimited (closeWith close parts).
Proof. intros -> Hc. destruct parts; simpl; [exact Hc | reflexivity]. Qed.

Section Parts.
Variable A : Type.
Variable text : A -> string.
Variable ok : A -> Prop.
Variables (close close' : string) (c : ascii).
Hypothesis close_eq : close = String c close'.
Hypothesis close_not_comma : c <> ","%char.
Hypothesis close_not_number : isNumberChar c = false.

(** The element before a delimited rest determines itself and the rest. *)
Definition PartPrefixFree (a1 : A) : Prop :=
  forall a2 R1 R2,
    ok a2 -> delimited R1 -> delimited R2 ->
    text a1 ++ R1 = text a2 ++ R2 -> a1 = a2 /\ R1 = R2.

Lemma closeWith_prefix_free l1 :
  Forall PartPrefixFree l1 ->
  forall l2 r1 r2,
    Forall ok l2 ->
    closeWith (close ++ r1) (map text l1)
    = closeWith (close ++ r2) (map text l2) ->
    l1 = l2 /\ r1 = r2.
Proof.
  induction 1 as [| a1 l1 Ha1 Hl1 IH]; intros [| a2 l2] r1 r2 Hok; simpl.
  - intro H. apply append_inv_head in H. auto.
  - rewrite close_eq. simpl. intro H. inversion H. congruence.
  - rewrite close_eq. simpl. intro H. inversion H. congruence.
  - intro H. inversion H as [Htext].
    inversion Hok as [| a l Hok2 Hokl [Ha Hl]]. clear Ha Hl a l.
    apply Ha1 in Htext; [| assumption | |].
    + destruct Htext as [<- Hrest]. apply IH in Hrest; [| assumption].
      destruct Hrest as [<- <-]. auto.
    + eapply delimited_closeWith; [now rewrite close_eq |]. assumption.
    + eapply delimited_closeWith; [now rewrite close_eq |]. assumption.
Qed.

End Parts.

(** The kind of a value, and the kind that the first character of a JSON
    text announces. *)
Definition kind (v : Value) : nat :=
  match v with
  | VUndefined => 0
  | VNull => 1
  | VBool true => 2
  | VBool false => 3
  | VNum _ => 4
  | VStr _ => 5
  | VArr _ => 6
  | VObj _ => 7
  end.

Definition charKind (c : ascii) : nat :=
  if isNumberChar c then 4
  else
    let n := nat_of_ascii c in
    if (n =? 110)%nat then 1
    else if (n =? 116)%nat then 2
    else if (n =? 102)%nat then 3
    else if (n =? 34)%nat then 5
    else if (n =? 91)%nat then 6
    else if (n =? 123)%nat then 7
    else 0.

Hypothesis numbers : JsonNumbers.

Lemma jsonText_head v :
  jsonSafe v = true ->
  exists c t, jsonText v = String c t /\ charKind c = kind v.
Proof.
  destruct v as [| | [] | n | s | items | fields]; simpl;
    try discriminate; intro Hsafe;
    try (eexists; eexists; split; reflexivity).
  unfold jsonText. simpl. rewrite Hsafe.
  pose proof (numberText_chars numbers n Hsafe) as Hchars.
  pose proof (numberText_nonempty numbers n Hsafe) as Hnonempty.
  destruct (numberToString n) as [| c t]; [congruence |].
  exists c, t. split; [reflexivity |].
  simpl in Hchars. apply andb_prop in Hchars.
  unfold charKind. now rewrite (proj1 Hchars).
Qed.

Lemma jsonText_kind v1 v2 R1 R2 :
  jsonSafe v1 = true -> jsonSafe v2 = true ->
  jsonText v1 ++ R1 = jsonText v2 ++ R2 -> kind v1 = kind v2.
Proof.
  intros H1 H2 H.
  destruct (jsonText_head v1 H1) as (c1 & t1 & E1 & <-).
  destruct (jsonText_head v2 H2) as (c2 & t2 & E2 & <-).
  rewrite E1, E2 in H. inversion H. reflexivity.
Qed.

(** A value never starts with a closing bracket. *)
Lemma jsonText_not_close v R c r :
  jsonSafe v = true -> charKind c = 0 ->
  jsonText v ++ R <> String c r.
Proof.
  intros Hsafe Hc H.
  destruct (jsonText_head v Hsafe) as (c1 & t1 & E1 & Hkind).
  rewrite E1 in H. inversion H; subst.
  destruct v as [| | [] | | | |]; simpl in *; congruence.
Qed.

Lemma map_jsonStringify_safe items :
  forallb jsonSafe items = true ->
  map (fun x => match jsonStringify x with
                | Some s => s
                | None => "null"
                end) items
  = map jsonText items.
Proof.
  intro Hsafe. apply map_ext_in. intros x Hin.
  rewrite forallb_forall in Hsafe.
  now rewrite (jsonStringify_safe x (Hsafe x Hin)).
Qed.

Lemma jsonText_array items R :
  forallb jsonSafe items = true ->
  jsonText (VArr items) ++ R
  = "[" ++ match items with
           | [] => "]" ++ R
           | x :: rest =>
               jsonText x ++ closeWith ("]" ++ R) (map jsonText rest)
           end.
Proof.
  intro Hsafe. unfold jsonText at 1. cbn [jsonStringify].
  rewrite (map_jsonStringify_safe items Hsafe).
  rewrite !append_assoc. f_equal.
  destruct items as [| x rest]; [reflexivity |].
  cbn [map]. now rewrite concat_closeWith.
Qed.

(** The text of a field of an object. *)
Definition fieldText (kv : string * Value) : string :=
  quote (fst kv) ++ ":" ++ jsonText (snd kv).

Definition fieldSafe (kv : string * Value) : Prop :=
  jsonSafe (snd kv) = true.

Lemma flat_map_jsonStringify_safe fields :
  forallb (fun kv : string * Value => let '(_, x) := kv in jsonSafe x)
          fields = true ->
  flat_map (fun kv : string * Value =>
              let '(k, x) := kv in
              match jsonStringify x with
              | Some s => [quote k ++ ":" ++ s]
              | None => []
              end) fields
  = map fieldText fields.
Proof.
  induction fields as [| [k x] fields IH]; [reflexivity |].
  cbn [forallb flat_map map]. intro Hsafe.
  apply andb_prop in Hsafe. destruct Hsafe as [Hx Hrest].
  rewrite (jsonStringify_safe x Hx), (IH Hrest). reflexivity.
Qed.

Lemma jsonText_object fields R :
  forallb (fun kv : string * Value => let '(_, x) := kv in jsonSafe x)
          fields = true ->
  jsonText (VObj fields) ++ R
  = "{" ++ match fields with
           | [] => "}" ++ R
           | kv :: rest =>
               fieldText kv ++ closeWith ("}" ++ R) (map fieldText rest)
           end.
Proof.
  intro Hsafe. unfold jsonText at 1. cbn [jsonStringify].
  rewrite (flat_map_jsonStringify_safe fields Hsafe).
  rewrite !append_assoc. f_equal.
  destruct fields as [| kv rest]; [reflexivity |].
  cbn [map]. now rewrite concat_closeWith.
Qed.

Definition safe (v : Value) : Prop := jsonSafe v = true.

Lemma forallb_safe items :
  forallb jsonSafe items = true -> Forall safe items.
Proof.
  intro H. apply Forall_forall. intros x Hin.
  rewrite forallb_forall in H. now apply H.
Qed.

Lemma forallb_fieldSafe fields :
  forallb (fun kv : string * Value => let '(_, x) := kv in jsonSafe x)
          fields = true ->
  Forall fieldSafe fields.
Proof.
  intro H. apply Forall_forall. intros [k x] Hin.
  rewrite forallb_forall in H. exact (H _ Hin).
Qed.

(** The JSON text of a value that JSON can write, before a delimited
    rest, determines the value and the rest. *)
Lemma jsonText_prefix_free v1 :
  safe v1 -> PartPrefixFree jsonText safe v1.
Proof.
  induction v1 as [| | b | n | s | items IH | fields IH]
    using Value_nested_ind;
    intros Hsafe1 v2 R1 R2 Hsafe2 HR1 HR2 H;
    pose proof (jsonText_kind _ _ _ _ Hsafe1 Hsafe2 H) as Hkind;
    destruct v2 as [| | b2 | n2 | s2 | items2 | fields2];
    try (destruct b); try (destruct b2); try discriminate Hkind;
    try discriminate Hsafe1.
  - apply append_inv_head in H. auto.
  - apply append_inv_head in H. auto.
  - apply append_inv_head in H. auto.
  - unfold safe in Hsafe1, Hsafe2. simpl in Hsafe1, Hsafe2.
    unfold jsonText in H. simpl in H. rewrite Hsafe1, Hsafe2 in H.
    apply number_text_prefix_free in H;
      [| now apply (numberText_chars numbers)
       | now apply (numberText_chars numbers) | assumption | assumption].
    destruct H as [Htext ->].
    apply (numberText_inj numbers) in Htext; [| assumption | assumption].
    now subst.
  - apply quote_prefix_free in H. destruct H as [-> ->]. auto.
  - unfold safe in Hsafe1, Hsafe2. simpl in Hsafe1, Hsafe2.
    rewrite (jsonText_array _ R1 Hsafe1), (jsonText_array _ R2 Hsafe2) in H.
    apply append_inv_head in H.
    destruct items as [| x1 rest1]; destruct items2 as [| x2 rest2].
    + apply append_inv_head in H. auto.
    + exfalso. simpl in Hsafe2. apply andb_prop in Hsafe2.
      symmetry in H. revert H. now apply jsonText_not_close.
    + exfalso. simpl in Hsafe1. apply andb_prop in Hsafe1.
      revert H. now apply jsonText_not_close.
    + simpl in Hsafe1, Hsafe2.
      apply andb_prop in Hsafe1. apply andb_prop in Hsafe2.
      destruct Hsafe1 as [Hx1 Hrest1]. destruct Hsafe2 as [Hx2 Hrest2].
      inversion IH as [| ? ? IHx IHrest]; subst.
      apply (IHx Hx1) in H;
        [| assumption
         | eapply delimited_closeWith; reflexivity
         | eapply delimited_closeWith; reflexivity ].
      destruct H as [<- H].
      apply (closeWith_prefix_free (text := jsonText) (ok := safe)
               (close := "]") (close' := "") (c := "]"%char)) in H;
        [ destruct H as [<- <-]; auto
        | reflexivity | discriminate | reflexivity | | ].
      * apply Forall_forall. intros x Hin.
        rewrite Forall_forall in IHrest. apply IHrest; [assumption |].
        rewrite forallb_forall in Hrest1. now apply Hrest1.
      * now apply forallb_safe.
  - unfold safe in Hsafe1, Hsafe2. simpl in Hsafe1, Hsafe2.
    rewrite (jsonText_object _ R1 Hsafe1), (jsonText_object _ R2 Hsafe2)
      in H.
    apply append_inv_head in H.
    assert (Hfield : forall kv1, (safe (snd kv1) ->
                                  PartPrefixFree jsonText safe (snd kv1)) ->
                     fieldSafe kv1 ->
                     PartPrefixFree fieldText fieldSafe kv1).
    { intros [k1 x1] IHx Hx1 [k2 x2] S1 S2 Hx2 HS1 HS2 Hf.
      unfold fieldText in Hf. cbn [fst snd] in Hf.
      rewrite !append_assoc in Hf.
      apply quote_prefix_free in Hf. destruct Hf as [<- Hf].
      apply append_inv_head in Hf.
      apply (IHx Hx1) in Hf; auto. destruct Hf as [Hx HS].
      simpl in Hx. now subst. }
    destruct fields as [| kv1 rest1]; destruct fields2 as [| kv2 rest2].
    + apply append_inv_head in H. auto.
    + exfalso. unfold fieldText, quote, quoted in H. discriminate H.
    + exfalso. unfold fieldText, quote, quoted in H. discriminate H.
    + pose proof (forallb_fieldSafe _ Hsafe1) as Hfs1.
      pose proof (forallb_fieldSafe _ Hsafe2) as Hfs2.
      inversion Hfs1 as [| ? ? Hkv1 Hrest1]; subst.
      inversion Hfs2 as [| ? ? Hkv2 Hrest2]; subst.
      inversion IH as [| ? ? IHx IHrest]; subst.
      apply (Hfield kv1 IHx Hkv1) in H;
        [| assumption
         | eapply delimited_closeWith; reflexivity
         | eapply delimited_closeWith; reflexivity ].
      destruct H as [<- H].
      apply (closeWith_prefix_free (text := fieldText) (ok := fieldSafe)
               (close := "}") (close' := "") (c := "}"%char)) in H;
        [ destruct H as [<- <-]; auto
        | reflexivity | discriminate | reflexivity | | assumption ].
      apply Forall_forall. intros kv Hin.
      rewrite Forall_forall in IHrest, Hrest1.
      apply Hfield; [apply IHrest | apply Hrest1]; assumption.
Qed.

(** Two values that JSON can write and that have the same text are the
    same value. *)
Theorem jsonText_inj v1 v2 :
  jsonSafe v1 = true -> jsonSafe v2 = true ->
  jsonText v1 = jsonText v2 -> v1 = v2.
Proof.
  intros H1 H2 H.
  pose proof (@jsonText_prefix_free v1 H1 v2 "" "" H2 I I) as Hfree.
  rewrite !append_nil_r in Hfree. now apply Hfree.
Qed.

End JsonFacts.

(** ** Registering accessors *)

Section AccessorFacts.
Context {N : JsNumber} {E : JsEngine}.

Lemma lookup_app {A : Type} key (l1 l2 : Lookup A) :
  lookup key (l1 ++ l2)%list
  = match lookup key l1 with
    | Some a => Some a
    | None => lookup key l2
    end.
Proof.
  induction l1 as [| [k a] l1 IH]; simpl; [reflexivity |].
  destruct (k =? key); auto.
Qed.

Lemma lookup_None_keys {A : Type} key (l : Lookup A) :
  lookup key l = None <-> ~ In key (map fst l).
Proof.
  induction l as [| [k a] l IH]; simpl.
  - tauto.
  - destruct (String.eqb_spec k key) as [-> | Hne].
    + split; [discriminate | intro H; exfalso; apply H; now left].
    + rewrite IH. tauto.
Qed.

(** The lookup after [withAccessorArgs], and the key it registered. *)
Definition register (encoded : list Value) (T : PassedType)
    (infoLookup : Lookup PreAccessorInfo) : Lookup PreAccessorInfo :=
  fst (withAccessorArgs encoded T infoLookup).

Definition accessorOf (encoded : list Value)
  : Outcome (list Value * list (string * Value)) :=
  accessorArgs (tl encoded) 0 (List.length encoded - 1) [] [].

(** The entry a first registration adds to a lookup of [count] entries. *)
Definition firstInfo (accessorPath : list Value) (T : PassedType)
    (options : list (string * Value)) (count : nat) : PreAccessorInfo :=
  {| slug := joinPath accessorPath ++ "_" ++ decimal count;
     path := accessorPath;
     type := T;
     default := lookupField "default" options |}.

Lemma register_new encoded T accessorPath options infoLookup :
  accessorOf encoded = Return (accessorPath, options) ->
  lookup (keyForAccessor accessorPath T options) infoLookup = None ->
  register encoded T infoLookup
  = (infoLookup
       ++ [(keyForAccessor accessorPath T options,
            firstInfo accessorPath T options (List.length infoLookup))])%list.
Proof.
  unfold register, withAccessorArgs, accessorOf. intros -> Hnew.
  rewrite Hnew. reflexivity.
Qed.

Lemma register_known encoded T accessorPath options infoLookup info :
  accessorOf encoded = Return (accessorPath, options) ->
  lookup (keyForAccessor accessorPath T options) infoLookup = Some info ->
  register encoded T infoLookup = infoLookup.
Proof.
  unfold register, withAccessorArgs, accessorOf. intros -> Hknown.
  rewrite Hknown. reflexivity.
Qed.

Lemma register_lookup encoded T accessorPath options infoLookup :
  accessorOf encoded = Return (accessorPath, options) ->
  exists info,
    lookup (keyForAccessor accessorPath T options)
           (register encoded T infoLookup) = Some info.
Proof.
  intro Hacc.
  destruct (lookup (keyForAccessor accessorPath T options) infoLookup)
    as [info |] eqn:Hlookup.
  - exists info. now rewrite (register_known _ _ _ Hacc Hlookup).
  - eexists. rewrite (register_new _ _ _ Hacc Hlookup), lookup_app, Hlookup.
    simpl. now rewrite String.eqb_refl.
Qed.

Lemma register_NoDup encoded T accessorPath options infoLookup :
  accessorOf encoded = Return (accessorPath, options) ->
  NoDup (map fst infoLookup) ->
  NoDup (map fst (register encoded T infoLookup)).
Proof.
  intros Hacc Hnodup.
  destruct (lookup (keyForAccessor accessorPath T options) infoLookup)
    as [info |] eqn:Hlookup.
  - now rewrite (register_known _ _ _ Hacc Hlookup).
  - rewrite (register_new _ _ _ Hacc Hlookup), map_app. simpl.
    apply NoDup_app; [assumption | repeat constructor; simpl; tauto |].
    intros key Hin [<- | []]. apply lookup_None_keys in Hlookup. tauto.
Qed.

(** The entries stored under [key]. *)
Definition entriesAt (key : string) (l : Lookup PreAccessorInfo)
  : list (string * PreAccessorInfo) :=
  filter (fun entry => fst entry =? key) l.

Lemma entriesAt_NoDup key l info :
  NoDup (map fst l) -> lookup key l = Some info ->
  entriesAt key l = [(key, info)].
Proof.
  induction l as [| [k a] l IH]; simpl; [discriminate |].
  intros Hnodup. inversion Hnodup as [| ? ? Hnotin Hrest]; subst.
  destruct (String.eqb_spec k key) as [-> | Hne].
  - intro H. inversion H; subst. f_equal.
    apply lookup_None_keys in Hnotin. clear - Hnotin.
    induction l as [| [k a] l IH]; simpl in *; [reflexivity |].
    destruct (k =? key); [discriminate | auto].
  - auto.
Qed.

(** The text of a type is the type. *)
Lemma typeName_inj T1 T2 : typeName T1 = typeName T2 -> T1 = T2.
Proof. destruct T1, T2; simpl; intro H; congruence. Qed.

(** The default of an accessor, when it has one, is a value that JSON can
    write. *)
Definition defaultSafe (options : list (string * Value)) : Prop :=
  match lookupField "default" options with
  | Some d => jsonSafe d = true
  | None => True
  end.

(** On paths and defaults that JSON can write, the key determines the
    path, the type and the default. *)
Lemma keyForAccessor_inj path1 (T1 : ValueType) options1
    path2 (T2 : ValueType) options2 :
  JsonNumbers ->
  forallb jsonSafe path1 = true -> forallb jsonSafe path2 = true ->
  defaultSafe options1 -> defaultSafe options2 ->
  keyForAccessor path1 T1 options1 = keyForAccessor path2 T2 options2 ->
  path1 = path2 /\ T1 = T2
  /\ lookupField "default" options1 = lookupField "default" options2.
Proof.
  unfold keyForAccessor, defaultSafe.
  intros numbers Hpath1 Hpath2 Hdefault1 Hdefault2 Hkey.
  apply (jsonText_inj numbers) in Hkey.
  - destruct (lookupField "default" options1);
      destruct (lookupField "default" options2);
      simpl in Hkey; inversion Hkey; subst;
      repeat split; auto using typeName_inj.
  - destruct (lookupField "default" options1); simpl;
      rewrite Hpath1; simpl; auto. now rewrite Hdefault1.
  - destruct (lookupField "default" options2); simpl;
      rewrite Hpath2; simpl; auto. now rewrite Hdefault2.
Qed.

(** [get] and [has] register in [properties] and leave [variables];
    [var] registers in [variables] and leaves [properties]. *)
Lemma withGetArgs_properties encoded T c :
  properties (fst (withGetArgs encoded T c))
  = register encoded T (properties c)
  /\ variables (fst (withGetArgs encoded T c)) = variables c.
Proof.
  unfold withGetArgs, register.
  destruct (withAccessorArgs encoded T (properties c)); auto.
Qed.

Lemma withVarArgs_variables encoded T c :
  variables (fst (withVarArgs encoded T c))
  = register encoded T (variables c)
  /\ properties (fst (withVarArgs encoded T c)) = properties c.
Proof.
  unfold withVarArgs, register.
  destruct (withAccessorArgs encoded T (variables c)); auto.
Qed.

Variable colorFromString : string -> Value + string.

(** The context that a call with at least one argument leaves is the one
    its last validator leaves, when the only validator before it is the
    count [hasArgsCount 1 Infinity]. *)
Lemma parse_accessor_context fuel operator v arg args T c :
  lookup operator (validatorsOf (parse colorFromString fuel))
  = Some [hasArgsCount 1 Infinity; v] ->
  fst (parse colorFromString (S fuel)
         (VArr (VStr operator :: arg :: args)) T c)
  = fst (v (VStr operator :: arg :: args) T c).
Proof.
  intro Hlookup.
  cbn [Expr.parse List.length Nat.eqb item nth typeof].
  change ("string" =? "string") with true. cbv iota.
  unfold parseCallExpression, parsers, operatorOf.
  cbn [item nth toStr]. rewrite Hlookup.
  unfold createCallExpressionParser. cbn [runValidators].
  unfold bind at 1. unfold bind at 1.
  unfold hasArgsCount. cbn [Infinity List.length Nat.sub Nat.ltb Nat.leb ret].
  unfold bind.
  destruct (v (VStr operator :: arg :: args) T c) as [c1 [[parsed |] | m |]];
    reflexivity.
Qed.

(** C2, as the code has it. An accessor is stored under the JSON text of
    its path, type and default.  Registering the same accessor twice
    leaves exactly one entry under its key and changes nothing the second
    time; a first registration stores the slug made of the path joined by
    underscores, an underscore and the number of entries the lookup had;
    a registration whose key is already there keeps the lookup, so the
    first slug; two registrations whose keys differ give two entries, and
    two whose keys are equal share one.  Accessors that differ in path,
    type or default have different keys when their paths and defaults are
    values that JSON can write.  The lookup is [properties] for a [get]
    or a [has] call and [variables] for a [var] call: the call registers
    in its own lookup, whose entries alone are counted, and leaves the
    other one as it was. *)
Theorem register_accessor encoded1 (T1 : ValueType) path1 options1
    encoded2 (T2 : ValueType) path2 options2 infoLookup :
  accessorOf encoded1 = Return (path1, options1) ->
  accessorOf encoded2 = Return (path2, options2) ->
  NoDup (map fst infoLookup) ->
  let key1 := keyForAccessor path1 T1 options1 in
  let key2 := keyForAccessor path2 T2 options2 in
  let once := register encoded1 T1 infoLookup in
  (* the same accessor twice *)
  register encoded1 T1 once = once
  /\ (exists info, entriesAt key1 once = [(key1, info)])
  (* the slug of a first registration *)
  /\ (lookup key1 infoLookup = None ->
      lookup key1 once
      = Some (firstInfo path1 T1 options1 (List.length infoLookup)))
  (* a key already there keeps its entry *)
  /\ (forall info, lookup key1 infoLookup = Some info ->
      lookup key1 once = Some info)
  (* two accessors *)
  /\ (key1 <> key2 ->
      lookup key1 infoLookup = None -> lookup key2 infoLookup = None ->
      register encoded2 T2 once
      = (infoLookup
           ++ [(key1, firstInfo path1 T1 options1 (List.length infoLookup));
               (key2, firstInfo path2 T2 options2
                        (S (List.length infoLookup)))])%list)
  /\ (key1 = key2 -> register encoded2 T2 once = once)
  (* when the keys differ *)
  /\ (JsonNumbers ->
      forallb jsonSafe path1 = true -> forallb jsonSafe path2 = true ->
      defaultSafe options1 -> defaultSafe options2 ->
      path1 <> path2 \/ T1 <> T2
      \/ lookupField "default" options1 <> lookupField "default" options2 ->
      key1 <> key2)
  (* the lookup of each operator *)
  /\ (forall fuel operator arg args T c,
        operator = "get" \/ operator = "has" ->
        let encoded := VStr operator :: arg :: args in
        let c' := fst (parse colorFromString (S fuel) (VArr encoded) T c) in
        properties c' = register encoded T (properties c)
        /\ variables c' = variables c)
  /\ (forall fuel arg args T c,
        let encoded := VStr "var" :: arg :: args in
        let c' := fst (parse colorFromString (S fuel) (VArr encoded) T c) in
        variables c' = register encoded T (variables c)
        /\ properties c' = properties c).
Proof.
  intros Hacc1 Hacc2 Hnodup key1 key2 once.
  pose proof (@register_lookup encoded1 T1 path1 options1 infoLookup Hacc1)
    as [info1 Hinfo1].
  fold key1 once in Hinfo1.
  split; [| split; [| split; [| split; [| split; [| split; [| split;
    [| split]]]]]]].
  - eapply register_known; eassumption.
  - exists info1. apply entriesAt_NoDup; [| assumption].
    eapply register_NoDup; eassumption.
  - intro Hnew. subst once. rewrite (register_new _ _ _ Hacc1 Hnew).
    rewrite lookup_app. fold key1. rewrite Hnew. simpl.
    now rewrite String.eqb_refl.
  - intros info Hknown. subst once.
    now rewrite (register_known _ _ _ Hacc1 Hknown).
  - intros Hkeys Hnew1 Hnew2. subst once.
    rewrite (register_new _ _ _ Hacc1 Hnew1). fold key1.
    rewrite (@register_new encoded2 T2 path2 options2 _ Hacc2).
    + fold key2. rewrite <- app_assoc. simpl. rewrite length_app. simpl.
      now rewrite Nat.add_1_r.
    + fold key2. rewrite lookup_app, Hnew2.
      apply String.eqb_neq in Hkeys. cbn [lookup]. now rewrite Hkeys.
  - intro Hkeys. eapply register_known; [eassumption |].
    fold key2. rewrite <- Hkeys. eassumption.
  - intros numbers Hpath1 Hpath2 Hdefault1 Hdefault2 Hdiffer Hkeys.
    apply keyForAccessor_inj in Hkeys; try assumption.
    destruct Hkeys as (Hp & HT & Hd). tauto.
  - intros fuel operator arg args T c Hoperator encoded c'.
    subst c' encoded.
    rewrite (@parse_accessor_context fuel operator withGetArgs)
      by (destruct Hoperator; subst; reflexivity).
    apply withGetArgs_properties.
  - intros fuel arg args T c encoded c'. subst c' encoded.
    rewrite (@parse_accessor_context fuel "var" withVarArgs)
      by reflexivity.
    apply withVarArgs_variables.
Qed.

End AccessorFacts.

(** ** The accessor processor *)

Section ProcessorFacts.
Context {N : JsNumber} {E : JsEngine}.
Variable colorFromString : string -> Value + string.

#[local] Abbreviation parseLiteralExpression :=
  (Expr.parseLiteralExpression colorFromString).
#[local] Abbreviation processAccessor :=
  (Expr.processAccessor colorFromString).
#[local] Abbreviation processAccessorValues :=
  (Expr.processAccessorValues colorFromString).

(** The loop over the path decides [Present]. *)
Lemma walkPath_Present accessorPath value leaf absent :
  Present value accessorPath leaf ->
  walkPath accessorPath absent value = (false, leaf).
Proof.
  intro H. revert absent.
  induction H as [value key Htruthy Hown
                 | value key next rest leaf Htruthy Hown Hrest IH];
    intro absent.
  - simpl. now rewrite Htruthy, Hown.
  - change (walkPath (key :: next :: rest) absent value)
      with (if negb (toBoolean value) || negb (hasOwn value (propertyKey key))
            then (true, value)
            else walkPath (next :: rest) false
                   (getProp value (propertyKey key))).
    rewrite Htruthy, Hown. cbn [negb orb]. apply IH.
Qed.

Lemma walkPath_found accessorPath value leaf absent :
  walkPath accessorPath absent value = (false, leaf) ->
  (accessorPath = [] /\ absent = false /\ leaf = value)
  \/ Present value accessorPath leaf.
Proof.
  revert value absent.
  induction accessorPath as [| key rest IH]; intros value absent; simpl.
  - intro H. inversion H. now left.
  - destruct (toBoolean value) eqn:Htruthy; simpl; [| discriminate].
    destruct (hasOwn value (propertyKey key)) eqn:Hown; simpl;
      [| discriminate].
    intro H. right. apply IH in H. destruct H as [(-> & _ & ->) | H].
    + now apply Present_last.
    + destruct rest as [| next rest]; [inversion H |].
      now apply Present_step.
Qed.

Lemma walkPath_absent accessorPath value :
  (forall leaf, ~ Present value accessorPath leaf) ->
  fst (walkPath accessorPath true value) = true.
Proof.
  intro Hnone.
  destruct (walkPath accessorPath true value) as [absent leaf] eqn:Hwalk.
  destruct absent; [reflexivity |].
  apply walkPath_found in Hwalk.
  destruct Hwalk as [(_ & Habs & _) | H]; [discriminate |].
  exfalso. eapply Hnone. eassumption.
Qed.

(** A present accessor is one that the walk of the specification finds. *)
Lemma Present_ownWalk value accessorPath leaf :
  Present value accessorPath leaf ->
  ownWalk value accessorPath = Some leaf.
Proof.
  induction 1 as [value key Htruthy Hown
                 | value key next rest leaf Htruthy Hown Hrest IH].
  - simpl. now rewrite Hown.
  - change (ownWalk value (key :: next :: rest))
      with (if hasOwn value (propertyKey key)
            then ownWalk (getProp value (propertyKey key)) (next :: rest)
            else None).
    now rewrite Hown.
Qed.

Lemma parseLiteralExpression_total encoded T :
  parseLiteralExpression encoded T <> OutOfFuel.
Proof.
  unfold Expr.parseLiteralExpression.
  destruct T as [[] |]; destruct encoded; simpl;
    repeat match goal with
           | |- context [if ?b then _ else _] => destruct b
           | |- context [match colorFromString ?s with _ => _ end] =>
               destruct (colorFromString s)
           end;
    discriminate.
Qed.

(** What the loop leaves under [key] for the lookup [infoLookup]. *)
Definition entryFor (values : Value) (infoLookup : Lookup PreAccessorInfo)
    (key : string) : option PostAccessorInfo :=
  match lookup key infoLookup with
  | Some info =>
      match processAccessor values info with
      | Return r => r
      | _ => None
      end
  | None => None
  end.

Lemma processAccessorValuesFrom_lookup values infoLookup :
  NoDup (map fst infoLookup) ->
  forall processedValues out key,
    processAccessorValuesFrom colorFromString values infoLookup
      processedValues = Return out ->
    lookup key out
    = match lookup key processedValues with
      | Some post => Some post
      | None => entryFor values infoLookup key
      end.
Proof.
  unfold entryFor.
  induction infoLookup as [| [k info] rest IH];
    intros Hnodup processedValues out key; simpl.
  - intro H. inversion H. now destruct (lookup key out).
  - inversion Hnodup as [| ? ? Hnotin Hrest]; subst.
    destruct (processAccessor values info) as [[post |] | message | ] eqn:Hp;
      try discriminate; intro H; apply (IH Hrest) with (key := key) in H;
      rewrite H.
    + rewrite lookup_app. simpl.
      destruct (lookup key processedValues); [reflexivity |].
      destruct (k =? key); [now rewrite Hp | reflexivity].
    + destruct (lookup key processedValues); [reflexivity |].
      destruct (String.eqb_spec k key) as [-> | Hne]; [| reflexivity].
      apply lookup_None_keys in Hnotin. now rewrite Hnotin, Hp.
Qed.

Lemma processAccessorValuesFrom_each values infoLookup :
  forall processedValues out key info,
    processAccessorValuesFrom colorFromString values infoLookup
      processedValues = Return out ->
    In (key, info) infoLookup ->
    exists r, processAccessor values info = Return r.
Proof.
  induction infoLookup as [| [k i] rest IH];
    intros processedValues out key info; simpl; [tauto |].
  intros H [Heq | Hin].
  - inversion Heq; subst.
    destruct (processAccessor values info) as [r | message | ];
      try discriminate. now exists r.
  - destruct (Expr.processAccessor colorFromString values i)
      as [[post |] | message | ]; try discriminate; eauto.
Qed.

(** [processAccessorValues] returns when the coercion of every accessor
    does. *)
Lemma processAccessorValues_returns values infoLookup :
  (forall key info, In (key, info) infoLookup ->
     exists r, processAccessor values info = Return r) ->
  exists out, processAccessorValues values infoLookup = Return out.
Proof.
  unfold Expr.processAccessorValues.
  generalize (@nil (string * PostAccessorInfo)).
  induction infoLookup as [| [k info] rest IH]; intros processedValues Hall;
    simpl.
  - now exists processedValues.
  - destruct (Hall k info (or_introl eq_refl)) as [r Hr]. rewrite Hr.
    destruct r as [post |]; apply IH; intros key i Hin;
      apply (Hall key); now right.
Qed.

(** C8, as the code has it. When [processAccessorValues] returns, then for
    each accessor of the lookup: if it is present (its path is not empty
    and every segment is an own key of a truthy subtree) the output has,
    under its key, its slug, its type and the coercion of the leaf to its
    type; if it is not present and has a default, the same with the
    coercion of the default; if it is not present and has no default, the
    output has nothing under its key.  An accessor with an empty path is
    never present. *)
Theorem processAccessorValues_entries values infoLookup out key info :
  NoDup (map fst infoLookup) ->
  processAccessorValues values infoLookup = Return out ->
  lookup key infoLookup = Some info ->
  (forall leaf, Present values (path info) leaf ->
     exists e,
       parseLiteralExpression leaf (type info) = Return e
       /\ lookup key out
          = Some {| postValue := exprValue e; postType := type info;
                    postSlug := slug info |})
  /\ ((forall leaf, ~ Present values (path info) leaf) ->
      match default info with
      | Some d =>
          exists e,
            parseLiteralExpression d (type info) = Return e
            /\ lookup key out
               = Some {| postValue := exprValue e; postType := type info;
                         postSlug := slug info |}
      | None => lookup key out = None
      end)
  /\ (forall leaf, ~ Present values [] leaf).
Proof.
  intros Hnodup Hout Hinfo.
  pose proof (@processAccessorValuesFrom_lookup values infoLookup Hnodup
                [] out key Hout) as Hlookup.
  simpl in Hlookup. unfold entryFor in Hlookup. rewrite Hinfo in Hlookup.
  pose proof (@processAccessorValuesFrom_each values infoLookup [] out key
                info Hout (@lookup_In _ key infoLookup info Hinfo))
    as [r Hr].
  rewrite Hr in Hlookup. unfold Expr.processAccessor in Hr.
  repeat split.
  - intros leaf Hpresent.
    rewrite (@walkPath_Present _ _ _ true Hpresent) in Hr. simpl in Hr.
    destruct (parseLiteralExpression leaf (type info)) as [e | |] eqn:He;
      try discriminate.
    exists e. split; [reflexivity |]. rewrite Hlookup.
    inversion Hr. unfold postInfo.
    now rewrite (@parseLiteralExpression_type _ colorFromString _ _ _ He).
  - intro Hnone. apply walkPath_absent in Hnone.
    destruct (walkPath (path info) true values) as [absent leaf].
    simpl in Hnone. subst absent. simpl in Hr.
    destruct (default info) as [d |].
    + destruct (parseLiteralExpression d (type info)) as [e | |] eqn:He;
        try discriminate.
      exists e. split; [reflexivity |]. rewrite Hlookup.
      inversion Hr. unfold postInfo.
      now rewrite (@parseLiteralExpression_type _ colorFromString _ _ _ He).
    + rewrite Hlookup. now inversion Hr.
  - intros leaf H. inversion H.
Qed.

End ProcessorFacts.

(** ** Interpolation is clamped *)

Section InterpolationFacts.
#[local] Open Scope Q_scope.
Context {N : JsNumber}.
Variable pow : Q -> Q -> Q.
Variables toSpace fromSpace : Cpu.Channels -> Cpu.Channels.
Variable rational : number -> option Q.
Variable compileCall :
  PassedType -> string -> list Expression ->
  Cpu.EvaluationContext -> option Cpu.Output.

#[local] Abbreviation compileExpression :=
  (Cpu.compileExpression pow toSpace fromSpace rational compileCall).

Lemma Qle_bool_false x y : y < x -> Qle_bool x y = false.
Proof.
  intro H. destruct (Qle_bool x y) eqn:Hle; [| reflexivity].
  apply Qle_bool_iff in Hle. exfalso. exact (Qlt_not_le _ _ H Hle).
Qed.

(** The closure of an [interpolate] node, on the values of the
    arguments. *)
Lemma compileExpression_interpolate type args context base x values stops :
  map (fun arg => compileExpression arg context) args
  = Some (Cpu.NumberOutput base) :: Some (Cpu.NumberOutput x) :: values ->
  Cpu.stopsOf values = Some stops ->
  compileExpression (CallExpression type "interpolate" args) context
  = Cpu.interpolate pow toSpace fromSpace base x stops.
Proof.
  intros Hvalues Hstops. cbn [Cpu.compileExpression].
  change ("interpolate" =? Ops.Interpolate) with true. cbv iota.
  rewrite Hvalues. unfold Cpu.interpolateValues. now rewrite Hstops.
Qed.

(** C9, as the specification and the tests have it.  Take a compiled
    [interpolate] expression and an evaluation context in which its
    arguments evaluate to the base, the input [x] and stops that do not
    decrease.  When [x] is at or below the first stop the result is
    exactly the first output; when it is at or above the last stop, and
    above the first one, it is exactly the last output.  When all the
    stops coincide with the input, the first rule decides. *)
Theorem interpolate_clamped type args context base x values first rest :
  let stops := first :: rest in
  let final := last stops first in
  map (fun arg => compileExpression arg context) args
  = Some (Cpu.NumberOutput base) :: Some (Cpu.NumberOutput x) :: values ->
  Cpu.stopsOf values = Some stops ->
  Cpu.nonDecreasing stops ->
  (x <= fst first ->
   compileExpression (CallExpression type "interpolate" args) context
   = Some (snd first))
  /\ (fst final <= x -> fst first < x ->
      compileExpression (CallExpression type "interpolate" args) context
      = Some (snd final)).
Proof.
  intros stops final Hvalues Hstops _.
  rewrite (compileExpression_interpolate type _ _ Hvalues Hstops).
  unfold Cpu.interpolate. subst stops. split.
  - intro Hle. apply Qle_bool_iff in Hle. now rewrite Hle.
  - intros Hge Hgt. rewrite (Qle_bool_false Hgt).
    apply Qle_bool_iff in Hge. subst final. unfold Cpu.Stop in *.
    now rewrite Hge.
Qed.

End InterpolationFacts.

(** ** The fuel of [parse]

    A fuel above the nesting depth of the input is enough: [parse] then
    returns or throws, and more fuel does not change what it does. *)

Section FuelFacts.
Context {N : JsNumber} {E : JsEngine}.
Variable colorFromString : string -> Value + string.

(** The computation never reaches the recursion bound. *)
Definition Terminates {A : Type} (m : Ctx A) : Prop :=
  forall c, snd (m c) <> OutOfFuel.

Lemma Terminates_ret {A : Type} (a : A) : Terminates (ret a).
Proof. intro c. discriminate. Qed.

Lemma Terminates_throw {A : Type} message : Terminates (@throw _ A message).
Proof. intro c. discriminate. Qed.

Lemma Terminates_bind {A B : Type} (m : Ctx A) (k : A -> Ctx B) :
  Terminates m -> (forall a, Terminates (k a)) -> Terminates (bind m k).
Proof.
  intros Hm Hk c. unfold bind. specialize (Hm c).
  destruct (m c) as [c1 [a | message | ]]; simpl in *;
    [apply Hk | discriminate | congruence].
Qed.

Lemma Terminates_rethrow {A : Type} prefix (m : Ctx A) :
  Terminates m -> Terminates (rethrow prefix m).
Proof.
  intros Hm c. unfold rethrow. specialize (Hm c).
  destruct (m c) as [c1 [a | message | ]]; simpl in *; congruence.
Qed.

Lemma Terminates_forLoop {A : Type} count start step
    (body : nat -> A -> Ctx A) acc :
  (forall i a, Terminates (body i a)) ->
  Terminates (forLoop count start step body acc).
Proof.
  intro Hbody. revert start acc.
  induction count as [| count IH]; intros start acc; simpl.
  - apply Terminates_ret.
  - apply Terminates_bind; auto.
Qed.

Lemma Terminates_if {A : Type} (b : bool) (m1 m2 : Ctx A) :
  Terminates m1 -> Terminates m2 -> Terminates (if b then m1 else m2).
Proof. destruct b; auto. Qed.

Lemma Terminates_literal encoded T :
  Terminates (lift (parseLiteralExpression colorFromString encoded T)).
Proof. intro c. simpl. apply parseLiteralExpression_total. Qed.

Lemma accessorArgs_total args i argsCount accessorPath options :
  accessorArgs args i argsCount accessorPath options <> OutOfFuel.
Proof.
  revert i accessorPath options.
  induction args as [| key rest IH]; intros i accessorPath options; simpl;
    [discriminate |].
  destruct (_ || _); [apply IH |].
  destruct (_ || _); [discriminate |].
  destruct key; apply IH.
Qed.

Lemma Terminates_withGetArgs encoded T : Terminates (withGetArgs encoded T).
Proof.
  intro c. unfold withGetArgs, withAccessorArgs.
  pose proof (accessorArgs_total (tl encoded) 0 (List.length encoded - 1)
                [] []) as Hacc.
  destruct (accessorArgs _ _ _ _ _) as [[p o] | message | ];
    [| discriminate | congruence].
  destruct (isSome _); discriminate.
Qed.

Lemma Terminates_withVarArgs encoded T : Terminates (withVarArgs encoded T).
Proof.
  intro c. unfold withVarArgs, withAccessorArgs.
  pose proof (accessorArgs_total (tl encoded) 0 (List.length encoded - 1)
                [] []) as Hacc.
  destruct (accessorArgs _ _ _ _ _) as [[p o] | message | ];
    [| discriminate | congruence].
  destruct (isSome _); discriminate.
Qed.

Lemma Terminates_usesFeatureId encoded T :
  Terminates (usesFeatureId encoded T).
Proof. intro c. discriminate. Qed.

Lemma Terminates_usesGeometryType encoded T :
  Terminates (usesGeometryType encoded T).
Proof. intro c. discriminate. Qed.

Create HintDb fuel discriminated.
#[local] Hint Resolve Terminates_ret Terminates_throw Terminates_rethrow
  Terminates_withGetArgs Terminates_withVarArgs Terminates_usesFeatureId
  Terminates_usesGeometryType Terminates_literal : fuel.
#[local] Hint Extern 2 (Terminates (bind _ _)) =>
  apply Terminates_bind; [| intro] : fuel.
#[local] Hint Extern 2 (Terminates (forLoop _ _ _ _ _)) =>
  apply Terminates_forLoop; intros : fuel.
#[local] Hint Extern 2 (Terminates (if _ then _ else _)) =>
  apply Terminates_if : fuel.

Lemma Terminates_withNoArgs encoded T : Terminates (withNoArgs encoded T).
Proof. unfold withNoArgs. auto with fuel. Qed.

Lemma Terminates_hasArgsCount minArgs maxArgs encoded T :
  Terminates (hasArgsCount minArgs maxArgs encoded T).
Proof. unfold hasArgsCount. destruct maxArgs; auto 8 with fuel. Qed.

Lemma Terminates_hasOddArgs encoded T : Terminates (hasOddArgs encoded T).
Proof. unfold hasOddArgs. auto with fuel. Qed.

Lemma Terminates_hasEvenArgs encoded T : Terminates (hasEvenArgs encoded T).
Proof. unfold hasEvenArgs. auto with fuel. Qed.

#[local] Hint Resolve Terminates_withNoArgs Terminates_hasArgsCount
  Terminates_hasOddArgs Terminates_hasEvenArgs : fuel.

(** The items of an array are less deep than the array. *)
Lemma depth_items items d :
  depth (VArr items) <= S d -> Forall (fun v => depth v <= d) items.
Proof.
  simpl. intro H. apply le_S_n in H.
  induction items as [| v items IH]; constructor; simpl in H.
  - lia.
  - apply IH. lia.
Qed.

Lemma depth_item items d i :
  Forall (fun v => depth v <= d) items -> depth (item items i) <= d.
Proof.
  intro H. unfold item. revert i.
  induction H as [| v items Hv Hrest IH]; intros [| i]; simpl; auto; lia.
Qed.

Lemma depth_inner items d i inner :
  Forall (fun v => depth v <= d) items ->
  item items i = VArr inner ->
  Forall (fun v => depth v <= d) inner.
Proof.
  intros H Hitem. pose proof (depth_item i H) as Hd. rewrite Hitem in Hd.
  destruct d as [| d]; [simpl in Hd; lia |].
  apply depth_items in Hd.
  eapply Forall_impl; [| exact Hd]. simpl. intros; lia.
Qed.

Section WithParseArg.
Variable parseArg : Value -> PassedType -> Ctx Expression.
Variable d : nat.
Hypothesis Terminates_parseArg :
  forall v T, depth v <= d -> Terminates (parseArg v T).

(** A validator that terminates on calls whose items have depth at most
    [d]. *)
Definition Bounded (v : ArgValidator) : Prop :=
  forall encoded T,
    Forall (fun x => depth x <= d) encoded -> Terminates (v encoded T).

Lemma Bounded_any (v : ArgValidator) :
  (forall encoded T, Terminates (v encoded T)) -> Bounded v.
Proof. intros H encoded T _. apply H. Qed.

#[local] Hint Extern 1 (Terminates (parseArg (item _ _) _)) =>
  apply Terminates_parseArg; apply depth_item; assumption : fuel.

Lemma Bounded_withArgsOfType argType :
  Bounded (withArgsOfType parseArg argType).
Proof. intros encoded T H. unfold withArgsOfType. auto 8 with fuel. Qed.

Lemma Bounded_withMatchArgs inputType :
  Bounded (withMatchArgs parseArg inputType).
Proof. intros encoded T H. unfold withMatchArgs. auto 12 with fuel. Qed.

Lemma interpolationBase_total v : interpolationBase v <> OutOfFuel.
Proof.
  unfold interpolationBase.
  destruct v; try discriminate;
    repeat match goal with
           | |- context [match ?x with _ => _ end] => destruct x
           end; discriminate.
Qed.

Lemma Bounded_withInterpolateArgs : Bounded (withInterpolateArgs parseArg).
Proof.
  intros encoded T H. unfold withInterpolateArgs.
  apply Terminates_bind; [| intro; auto 12 with fuel].
  intro c. simpl. apply interpolationBase_total.
Qed.

Lemma Bounded_withCaseArgs : Bounded (withCaseArgs parseArg).
Proof. intros encoded T H. unfold withCaseArgs. auto 12 with fuel. Qed.

Lemma Bounded_withInArgs : Bounded (withInArgs parseArg).
Proof.
  intros encoded T H. unfold withInArgs.
  destruct (item encoded 2) eqn:Hhaystack; auto with fuel.
  pose proof (depth_inner _ H Hhaystack) as Hitems.
  destruct (item items 0) eqn:Hfirst; auto 12 with fuel.
  destruct (negb _); auto with fuel.
  destruct (item items 1) eqn:Hliteral; auto with fuel.
  pose proof (depth_inner _ Hitems Hliteral) as Hinner.
  auto 12 with fuel.
Qed.

Lemma Bounded_withPaletteArgs : Bounded (withPaletteArgs parseArg).
Proof.
  intros encoded T H. unfold withPaletteArgs.
  apply Terminates_bind; [auto with fuel | intro index].
  destruct (item encoded 2) eqn:Hcolors; auto with fuel.
  pose proof (depth_inner _ H Hcolors) as Hitems.
  auto 12 with fuel.
Qed.

Lemma Terminates_runValidators validators encoded T :
  Forall Bounded validators ->
  Forall (fun x => depth x <= d) encoded ->
  Terminates (runValidators validators encoded T).
Proof.
  intros Hvs Hencoded.
  induction Hvs as [| v rest Hv Hrest IH]; simpl.
  - apply Terminates_throw.
  - destruct rest as [| v' rest'].
    + apply Terminates_bind; [now apply Hv |].
      intros [args |]; auto with fuel.
    + apply Terminates_bind; [now apply Hv | intro; apply IH].
Qed.

Lemma Bounded_validatorsOf :
  Forall (fun entry : string * list ArgValidator =>
            Forall Bounded (snd entry))
         (validatorsOf parseArg).
Proof.
  unfold validatorsOf.
  repeat (apply Forall_cons;
          [ simpl;
            repeat (apply Forall_cons;
                    [ first [ apply Bounded_withArgsOfType
                            | apply Bounded_withMatchArgs
                            | apply Bounded_withInterpolateArgs
                            | apply Bounded_withCaseArgs
                            | apply Bounded_withInArgs
                            | apply Bounded_withPaletteArgs
                            | apply Bounded_any; auto with fuel ] |]);
            apply Forall_nil |]).
  apply Forall_nil.
Qed.

Lemma Terminates_parseCallExpression encoded T :
  Forall (fun x => depth x <= d) encoded ->
  Terminates (parseCallExpression parseArg encoded T).
Proof.
  intro Hencoded.
  destruct (lookup (operatorOf encoded) (validatorsOf parseArg))
    as [validators |] eqn:Hlookup.
  2: { destruct (parseCallExpression_miss _ _ T Hlookup)
         as (o & -> & Ho & _).
       intro c. exact Ho. }
  unfold parseCallExpression, parsers. rewrite Hlookup.
  apply lookup_In in Hlookup.
  pose proof Bounded_validatorsOf as Htable.
  rewrite Forall_forall in Htable. specialize (Htable _ Hlookup).
  unfold createCallExpressionParser.
  apply Terminates_bind; [| intro; apply Terminates_ret].
  now apply Terminates_runValidators.
Qed.

End WithParseArg.

(** With a fuel above the depth of the input, [parse] returns or throws. *)
Theorem parse_terminates fuel encoded T c :
  depth encoded < fuel ->
  snd (parse colorFromString fuel encoded T c) <> OutOfFuel.
Proof.
  revert encoded T c.
  induction fuel as [| fuel IH]; intros encoded T c Hdepth; [lia |].
  simpl. destruct encoded; try apply Terminates_literal.
  destruct (List.length items =? 0)%nat; [discriminate |].
  destruct (typeof (item items 0) =? "string");
    [| apply Terminates_literal].
  destruct fuel as [| fuel]; [simpl in Hdepth; lia |].
  apply Terminates_parseCallExpression with (d := fuel).
  - intros v T' Hv c'. apply IH. lia.
  - apply depth_items. lia.
Qed.

End FuelFacts.

Section FuelMonotone.
Context {N : JsNumber} {E : JsEngine}.
Variable colorFromString : string -> Value + string.

(** [m'] does what [m] does wherever [m] does not reach the bound. *)
Definition Refines {A : Type} (m m' : Ctx A) : Prop :=
  forall c, snd (m c) <> OutOfFuel -> m' c = m c.

Lemma Refines_refl {A : Type} (m : Ctx A) : Refines m m.
Proof. intros c _. reflexivity. Qed.

Lemma Refines_bind {A B : Type} (m m' : Ctx A) (k k' : A -> Ctx B) :
  Refines m m' -> (forall a, Refines (k a) (k' a)) ->
  Refines (bind m k) (bind m' k').
Proof.
  intros Hm Hk c. unfold bind. specialize (Hm c).
  destruct (m c) as [c1 [a | message | ]] eqn:Hmc; simpl in *.
  - intro H. rewrite Hm by discriminate. now apply Hk.
  - intro H. now rewrite Hm by discriminate.
  - congruence.
Qed.

Lemma Refines_rethrow {A : Type} prefix (m m' : Ctx A) :
  Refines m m' -> Refines (rethrow prefix m) (rethrow prefix m').
Proof.
  intros Hm c. unfold rethrow. specialize (Hm c).
  destruct (m c) as [c1 [a | message | ]] eqn:Hmc; simpl in *;
    intro H; try congruence; now rewrite Hm by discriminate.
Qed.

Lemma Refines_forLoop {A : Type} count start step
    (body body' : nat -> A -> Ctx A) acc :
  (forall i a, Refines (body i a) (body' i a)) ->
  Refines (forLoop count start step body acc)
          (forLoop count start step body' acc).
Proof.
  intro Hbody. revert start acc.
  induction count as [| count IH]; intros start acc; simpl.
  - apply Refines_refl.
  - apply Refines_bind; auto.
Qed.

Lemma Refines_if {A : Type} (b : bool) (m1 m1' m2 m2' : Ctx A) :
  Refines m1 m1' -> Refines m2 m2' ->
  Refines (if b then m1 else m2) (if b then m1' else m2').
Proof. destruct b; auto. Qed.

Create HintDb refines discriminated.
#[local] Hint Resolve Refines_refl Refines_rethrow : refines.
#[local] Hint Extern 2 (Refines (bind _ _) (bind _ _)) =>
  apply Refines_bind; [| intro] : refines.
#[local] Hint Extern 2 (Refines (forLoop _ _ _ _ _) (forLoop _ _ _ _ _)) =>
  apply Refines_forLoop; intros : refines.
#[local] Hint Extern 2 (Refines (if _ then _ else _) (if _ then _ else _)) =>
  apply Refines_if : refines.
#[local] Hint Extern 3 (Refines (match ?x with _ => _ end) _) =>
  destruct x : refines.

Section WithParseArgs.
Variables parseArg parseArg' : Value -> PassedType -> Ctx Expression.
Hypothesis Refines_parseArg :
  forall v T, Refines (parseArg v T) (parseArg' v T).

#[local] Hint Resolve Refines_parseArg : refines.

Definition RefinesValidator (v v' : ArgValidator) : Prop :=
  forall encoded T, Refines (v encoded T) (v' encoded T).

Lemma RefinesValidator_refl v : RefinesValidator v v.
Proof. intros encoded T. apply Refines_refl. Qed.

Lemma Refines_withArgsOfType argType :
  RefinesValidator (withArgsOfType parseArg argType)
                   (withArgsOfType parseArg' argType).
Proof. intros encoded T. unfold withArgsOfType. auto 8 with refines. Qed.

Lemma Refines_withMatchArgs inputType :
  RefinesValidator (withMatchArgs parseArg inputType)
                   (withMatchArgs parseArg' inputType).
Proof. intros encoded T. unfold withMatchArgs. auto 12 with refines. Qed.

Lemma Refines_withInterpolateArgs :
  RefinesValidator (withInterpolateArgs parseArg)
                   (withInterpolateArgs parseArg').
Proof.
  intros encoded T. unfold withInterpolateArgs. auto 12 with refines.
Qed.

Lemma Refines_withCaseArgs :
  RefinesValidator (withCaseArgs parseArg) (withCaseArgs parseArg').
Proof. intros encoded T. unfold withCaseArgs. auto 12 with refines. Qed.

Lemma Refines_withInArgs :
  RefinesValidator (withInArgs parseArg) (withInArgs parseArg').
Proof. intros encoded T. unfold withInArgs. auto 14 with refines. Qed.

Lemma Refines_withPaletteArgs :
  RefinesValidator (withPaletteArgs parseArg) (withPaletteArgs parseArg').
Proof. intros encoded T. unfold withPaletteArgs. auto 12 with refines. Qed.

Lemma Refines_runValidators validators validators' encoded T :
  Forall2 RefinesValidator validators validators' ->
  Refines (runValidators validators encoded T)
          (runValidators validators' encoded T).
Proof.
  induction 1 as [| v v' rest rest' Hv Hrest IH]; simpl.
  - apply Refines_refl.
  - destruct Hrest as [| w w' rest rest' Hw Hrest].
    + apply Refines_bind; [apply Hv | intro; apply Refines_refl].
    + apply Refines_bind; [apply Hv | intro; apply IH].
Qed.

(** The two tables have the same operators, with validators that
    correspond. *)
Definition RefinesEntry (entry entry' : string * list ArgValidator) : Prop :=
  fst entry = fst entry' /\ Forall2 RefinesValidator (snd entry) (snd entry').

Lemma Refines_validatorsOf :
  Forall2 RefinesEntry (validatorsOf parseArg) (validatorsOf parseArg').
Proof.
  unfold validatorsOf.
  repeat (apply Forall2_cons;
          [ split; [reflexivity |]; simpl;
            repeat (apply Forall2_cons;
                    [ first [ apply RefinesValidator_refl
                            | apply Refines_withArgsOfType
                            | apply Refines_withMatchArgs
                            | apply Refines_withInterpolateArgs
                            | apply Refines_withCaseArgs
                            | apply Refines_withInArgs
                            | apply Refines_withPaletteArgs ] |]);
            apply Forall2_nil |]).
  apply Forall2_nil.
Qed.

Lemma lookup_Forall2 operator (table table' : Lookup (list ArgValidator)) :
  Forall2 RefinesEntry table table' ->
  match lookup operator table, lookup operator table' with
  | Some validators, Some validators' =>
      Forall2 RefinesValidator validators validators'
  | None, None => True
  | _, _ => False
  end.
Proof.
  induction 1 as [| [k vs] [k' vs'] rest rest' [Hkey Hvs] Hrest IH]; simpl.
  - exact I.
  - simpl in Hkey, Hvs. subst k'. destruct (k =? operator); assumption.
Qed.

Lemma Refines_parseCallExpression encoded T :
  Refines (parseCallExpression parseArg encoded T)
          (parseCallExpression parseArg' encoded T).
Proof.
  unfold parseCallExpression, parsers.
  pose proof (lookup_Forall2 (operatorOf encoded) Refines_validatorsOf)
    as Htable.
  destruct (lookup (operatorOf encoded) (validatorsOf parseArg));
    destruct (lookup (operatorOf encoded) (validatorsOf parseArg'));
    simpl; try contradiction; [| apply Refines_refl].
  unfold createCallExpressionParser.
  apply Refines_bind; [| intro; apply Refines_refl].
  now apply Refines_runValidators.
Qed.

End WithParseArgs.

Lemma Refines_parse fuel encoded T :
  Refines (parse colorFromString fuel encoded T)
          (parse colorFromString (S fuel) encoded T).
Proof.
  revert encoded T. induction fuel as [| fuel IH]; intros encoded T.
  - intros c H. simpl in H. congruence.
  - change (parse colorFromString (S (S fuel)) encoded T)
      with (match encoded with
            | VArr items =>
                if (List.length items =? 0)%nat then throw "empty expression"
                else if typeof (item items 0) =? "string"
                then parseCallExpression (parse colorFromString (S fuel))
                       items T
                else lift (parseLiteralExpression colorFromString encoded T)
            | _ => lift (parseLiteralExpression colorFromString encoded T)
            end).
    simpl.
    destruct encoded as [| | b | n | s | items | fields];
      match goal with
      | |- context [parseCallExpression] => idtac
      | _ => apply Refines_refl
      end.
    destruct (List.length items =? 0)%nat; [apply Refines_refl |].
    destruct (typeof (item items 0) =? "string"); [| apply Refines_refl].
    apply Refines_parseCallExpression. exact IH.
Qed.

(** What [parse] does with a fuel above the depth of the input does not
    depend on the fuel. *)
Theorem parse_fuel_independent fuel fuel' encoded T c :
  depth encoded < fuel -> fuel <= fuel' ->
  parse colorFromString fuel' encoded T c
  = parse colorFromString fuel encoded T c.
Proof.
  intros Hdepth Hle. induction Hle as [| fuel' Hle IH]; [reflexivity |].
  rewrite <- IH. apply Refines_parse. rewrite IH.
  now apply parse_terminates.
Qed.

End FuelMonotone.




(** ** Calls that are rejected at once *)

Section RejectedCalls.
Context {N : JsNumber} {E : JsEngine}.
Variable colorFromString : string -> Value + string.

#[local] Abbreviation parse := (Expr.parse colorFromString).

Lemma validatorsOf_operators parseArg op :
  In op (map fst (validatorsOf parseArg)) -> In op operators.
Proof.
  unfold validatorsOf, operators. cbn [map fst].
  intro H.
  repeat (destruct H as [<- | H]; [cbn [In]; tauto |]).
  destruct H.
Qed.

(** X1. A call whose operator is none of [Ops], nor a name that
    [parsers] inherits from [Object.prototype], throws
    [unknown operator: <operator>], whatever its arguments, and leaves the
    context as it was. *)
Theorem parse_unknown_operator fuel op rest T c :
  ~ In op operators -> ~ In op inheritedNames ->
  parse (S fuel) (VArr (VStr op :: rest)) T c
  = (c, Throw ("unknown operator: " ++ op)).
Proof.
  intros Hop Hinherited.
  assert (Hnone : lookup op (validatorsOf (parse fuel)) = None).
  { apply lookup_None_keys. intro H. apply Hop.
    eapply validatorsOf_operators. eassumption. }
  assert (Hmember : existsb (String.eqb op) inheritedNames = false).
  { destruct (existsb (String.eqb op) inheritedNames) eqn:Hex;
      [| reflexivity].
    apply existsb_exists in Hex. destruct Hex as (name & Hin & Heq).
    apply String.eqb_eq in Heq. subst. contradiction. }
  cbn [Expr.parse List.length Nat.eqb item nth typeof].
  change ("string" =? "string") with true. cbv iota.
  unfold parseCallExpression, parsers, operatorOf.
  cbn [item nth toStr]. rewrite Hnone, Hmember. reflexivity.
Qed.

(** X2. [id] and [geometry-type] take no argument, and their flag is set
    before the arguments are counted: a call with arguments throws and
    leaves the flag set. *)
Theorem parse_flag_set_before_rejection fuel arg rest T c :
  parse (S fuel) (VArr (VStr "id" :: arg :: rest)) T c
  = ({| variables := variables c; properties := properties c;
        featureId := true; geometryType := geometryType c |},
     Throw "expected no arguments for id operation")
  /\ parse (S fuel) (VArr (VStr "geometry-type" :: arg :: rest)) T c
     = ({| variables := variables c; properties := properties c;
           featureId := featureId c; geometryType := true |},
        Throw "expected no arguments for geometry-type operation").
Proof. split; reflexivity. Qed.

End RejectedCalls.

(** ** The arguments of an accessor *)

Section AccessorArguments.
Context {N : JsNumber} {E : JsEngine}.

(** A segment of a path: a number or a string. *)
Definition isKey (v : Value) : bool :=
  (typeof v =? "number") || (typeof v =? "string").

Lemma accessorArgs_keys args : forall i argsCount accessorPath options,
  forallb isKey args = true ->
  accessorArgs args i argsCount accessorPath options
  = Return ((accessorPath ++ args)%list, options).
Proof.
  induction args as [| key rest IH]; intros i argsCount accessorPath options;
    simpl.
  - now rewrite app_nil_r.
  - unfold isKey at 1. intro H. apply andb_prop in H. destruct H as [Hkey Hrest].
    rewrite Hkey, (IH _ _ _ _ Hrest), <- app_assoc. reflexivity.
Qed.

Lemma accessorArgs_inv args : forall i accessorPath options result opts,
  accessorArgs args i (i + List.length args) accessorPath options
  = Return (result, opts) ->
  (forallb isKey args = true /\ result = (accessorPath ++ args)%list
   /\ opts = options)
  \/ exists keys fields,
       args = (keys ++ [VObj fields])%list /\ forallb isKey keys = true
       /\ result = (accessorPath ++ keys)%list /\ opts = fields.
Proof.
  induction args as [| key rest IH]; intros i accessorPath options result opts;
    simpl.
  - intro H. inversion H. left. now rewrite app_nil_r.
  - replace (i + S (List.length rest)) with (i + 1 + List.length rest) by lia.
    fold (isKey key). destruct (isKey key) eqn:Hkey.
    + intro H. apply IH in H.
      destruct H as [(Hrest & -> & ->) | (keys & fields & -> & Hkeys & -> & ->)].
      * left. now rewrite <- app_assoc.
      * right. exists (key :: keys), fields. simpl. rewrite Hkey, Hkeys.
        now rewrite <- app_assoc.
    + destruct (_ || _) eqn:Hlast; [discriminate |].
      apply orb_false_elim in Hlast. destruct Hlast as [Hlast Hobject].
      apply orb_false_elim in Hlast. destruct Hlast as [Hlast Harray].
      apply orb_false_elim in Hlast. destruct Hlast as [Hlast Htruthy].
      apply Nat.ltb_ge in Hlast.
      assert (rest = []) as -> by (destruct rest; [reflexivity | simpl in Hlast; lia]).
      destruct key as [| | b | n | s | items | fields]; try discriminate.
      simpl. intro H. inversion H; subst.
      right. exists [], opts. now rewrite app_nil_r.
Qed.

Lemma accessorArgs_options keys fields : forall i accessorPath options,
  forallb isKey keys = true ->
  accessorArgs (keys ++ [VObj fields]) i (i + List.length keys + 1)
    accessorPath options
  = Return ((accessorPath ++ keys)%list, fields).
Proof.
  induction keys as [| key keys IH]; intros i accessorPath options; simpl.
  - intros _. replace (i + 0 + 1 - 1) with i by lia.
    rewrite Nat.ltb_irrefl, app_nil_r. reflexivity.
  - unfold isKey at 1. intro H. apply andb_prop in H.
    destruct H as [Hkey Hkeys]. rewrite Hkey.
    replace (i + S (List.length keys) + 1) with (i + 1 + List.length keys + 1)
      by lia.
    rewrite (IH _ _ _ Hkeys), <- app_assoc. reflexivity.
Qed.

(** X3. The arguments that [withAccessorArgs] accepts: strings and
    numbers, which make the path in their order, and after them at most
    one options object, which must come last. *)
Theorem accessorOf_path operator args accessorPath options :
  accessorOf (operator :: args) = Return (accessorPath, options)
  <-> (forallb isKey args = true /\ accessorPath = args /\ options = [])
      \/ (exists fields,
            args = (accessorPath ++ [VObj fields])%list
            /\ forallb isKey accessorPath = true /\ options = fields).
Proof.
  unfold accessorOf. cbn [tl List.length].
  replace (S (List.length args) - 1) with (0 + List.length args) by lia.
  split.
  - intro H. apply accessorArgs_inv in H.
    destruct H as [(Hkeys & -> & ->) | (keys & fields & -> & Hkeys & -> & ->)].
    + now left.
    + right. now exists fields.
  - intros [(Hkeys & -> & ->) | (fields & -> & Hkeys & ->)].
    + now rewrite accessorArgs_keys.
    + rewrite length_app. cbn [List.length].
      replace (0 + (List.length accessorPath + 1))
        with (0 + List.length accessorPath + 1) by lia.
      now rewrite accessorArgs_options.
Qed.

End AccessorArguments.


(** ** The shape of the calls

    What the validators of each operator let through: the number of the
    arguments of a parsed call and their types. *)

Section LoopFacts.
Context {St A : Type}.

(** A loop that returned kept its invariant. *)
Lemma forLoop_invariant (Inv : nat -> A -> Prop) count :
  forall start step (body : nat -> A -> M St A) acc s s' out,
  (forall k a s1 s2 a',
     k < count -> Inv k a ->
     body (start + k * step) a s1 = (s2, Return a') -> Inv (S k) a') ->
  Inv 0 acc ->
  forLoop count start step body acc s = (s', Return out) ->
  Inv count out.
Proof.
  revert Inv.
  induction count as [| count IH]; intros Inv start step body acc s s' out
    Hbody Hacc; simpl.
  - unfold ret. intro H. inversion H; subst. exact Hacc.
  - intro H. apply bind_Return_inv in H.
    destruct H as (acc1 & s1 & Hstep & Hrest).
    apply (IH (fun k => Inv (S k))) in Hrest; [assumption | |].
    + intros k a s2 s3 a' Hk Hinv Hrun. apply (Hbody (S k) a s2 s3 a').
      * lia.
      * exact Hinv.
      * rewrite <- Hrun. f_equal. simpl. lia.
    + apply (Hbody 0 acc s s1 acc1); [lia | exact Hacc |].
      rewrite <- Hstep. f_equal. simpl. lia.
Qed.

End LoopFacts.

Section ShapeFacts.
Context {N : JsNumber} {E : JsEngine}.
Variable colorFromString : string -> Value + string.

#[local] Abbreviation parse := (Expr.parse colorFromString).

(** The items of an array of plain values are plain, as is the
    [undefined] found past its end. *)
Lemma plain_item items i :
  forallb plain items = true -> plain (item items i) = true.
Proof.
  unfold item. revert i.
  induction items as [| x items IH]; intros [| i]; simpl; auto;
    intro H; apply andb_prop in H; destruct H; auto.
Qed.

Lemma plain_call operator rest :
  forallb plain rest = true ->
  forallb plain (VStr operator :: rest) = true.
Proof. auto. Qed.

Lemma ordinary_plain encoded : ordinary encoded = true -> plain encoded = true.
Proof.
  destruct encoded; try reflexivity.
  intro H. now apply andb_prop in H.
Qed.

Lemma ordinary_items items :
  ordinary (VArr items) = true -> forallb plain items = true.
Proof.
  intro H. cbn [ordinary] in H. apply andb_prop in H. destruct H as [_ H].
  apply forallb_forall. intros x Hin. apply ordinary_plain.
  rewrite forallb_forall in H. now apply H.
Qed.

(** A call whose operator has a parser is parsed by that parser. *)
Lemma parse_call fuel operator validators rest T :
  lookup operator (validatorsOf (parse fuel)) = Some validators ->
  parse (S fuel) (VArr (VStr operator :: rest)) T
  = createCallExpressionParser validators (VStr operator :: rest) T.
Proof.
  intro Hlookup.
  cbn [Expr.parse List.length Nat.eqb item nth typeof].
  change ("string" =? "string") with true. cbv iota.
  unfold parseCallExpression, parsers, operatorOf.
  cbn [item nth toStr]. rewrite Hlookup. reflexivity.
Qed.

(** What [hasArgsCount] lets through. *)
Definition within (lo : nat) (hi : option nat) (count : nat) : Prop :=
  lo <= count /\ match hi with Some h => count <= h | None => True end.

Lemma hasArgsCount_Return lo hi encoded T c c' r :
  hasArgsCount lo hi encoded T c = (c', Return r) ->
  c' = c /\ r = None /\ within lo hi (List.length encoded - 1).
Proof.
  unfold hasArgsCount, within.
  destruct hi as [hi |].
  - destruct (Nat.eqb_spec lo hi) as [-> | Hne].
    + destruct (Nat.eqb_spec (List.length encoded - 1) hi) as [-> | Hcount];
        simpl; unfold throw, ret; intro Hr; inversion Hr; auto.
    + destruct (Nat.ltb_spec (List.length encoded - 1) lo);
        destruct (Nat.ltb_spec hi (List.length encoded - 1));
        simpl; unfold throw, ret; intro Hr; inversion Hr; auto.
  - destruct (Nat.ltb_spec (List.length encoded - 1) lo);
      simpl; unfold throw, ret; intro Hr; inversion Hr; auto.
Qed.

Lemma length_rest {A : Type} (x : A) rest :
  List.length (x :: rest) - 1 = List.length rest.
Proof. simpl. lia. Qed.

Definition typed (A : PassedType) (e : Expression) : Prop := exprType e = A.



Lemma hasOddArgs_Return encoded T c c' r :
  hasOddArgs encoded T c = (c', Return r) ->
  c' = c /\ r = None /\ (List.length encoded - 1) mod 2 = 1.
Proof.
  unfold hasOddArgs.
  pose proof (Nat.mod_upper_bound (List.length encoded - 1) 2) as Hmod.
  destruct (Nat.eqb_spec ((List.length encoded - 1) mod 2) 0);
    unfold throw, ret; intro Hr; inversion Hr; repeat split; lia.
Qed.

Lemma hasEvenArgs_Return encoded T c c' r :
  hasEvenArgs encoded T c = (c', Return r) ->
  c' = c /\ r = None /\ (List.length encoded - 1) mod 2 = 0.
Proof.
  unfold hasEvenArgs.
  pose proof (Nat.mod_upper_bound (List.length encoded - 1) 2) as Hmod.
  destruct (Nat.eqb_spec ((List.length encoded - 1) mod 2) 1);
    unfold throw, ret; intro Hr; inversion Hr; repeat split; lia.
Qed.

(** The loops that step by two run once for each pair. *)
Lemma pairsBelow_even n : n mod 2 = 0 -> 2 * pairsBelow n = n.
Proof.
  intro Hmod. unfold pairsBelow.
  pose proof (Nat.div_mod_eq n 2) as Hn. rewrite Hmod in Hn.
  rewrite Nat.add_0_r in Hn. rewrite Hn at 1.
  rewrite Nat.add_1_r, Nat.div2_succ_double. lia.
Qed.

(** The list alternates expressions of type [A] and of type [B]. *)
Fixpoint pairsTyped (A B : PassedType) (args : list Expression) : Prop :=
  match args with
  | [] => True
  | [_] => False
  | a :: b :: rest => typed A a /\ typed B b /\ pairsTyped A B rest
  end.

Lemma pairsTyped_app A B x y args :
  typed A x -> typed B y ->
  pairsTyped A B args -> pairsTyped A B (args ++ [x; y]).
Proof.
  intros Hx Hy.
  enough (H : (pairsTyped A B args -> pairsTyped A B (args ++ [x; y]))
              /\ forall a, pairsTyped A B (a :: args) ->
                           pairsTyped A B ((a :: args) ++ [x; y]))
    by apply H.
  induction args as [| b args [IH1 IH2]].
  - split; simpl; tauto.
  - split; [apply IH2 |]. intros a (Ha & Hb & Hrest).
    cbn [app pairsTyped]. auto.
Qed.

(** Taking apart a computation that returned. *)
Ltac unbind :=
  repeat match goal with
         | H : bind _ _ _ = (_, Return _) |- _ =>
             apply bind_Return_inv in H;
             let a := fresh "a" in
             let c := fresh "c" in
             let H1 := fresh "H" in
             let H2 := fresh "H" in
             destruct H as (a & c & H1 & H2)
         | H : rethrow _ _ _ = (_, Return _) |- _ =>
             apply rethrow_Return_inv in H
         | H : ret _ _ = (_, Return _) |- _ =>
             unfold ret in H; inversion H; subst; clear H
         | H : throw _ _ = (_, Return _) |- _ =>
             unfold throw in H; discriminate H
         | H : lift _ _ = (_, Return _) |- _ =>
             unfold lift in H; inversion H; subst; clear H
         | H : hasArgsCount _ _ _ _ _ = (_, Return _) |- _ =>
             apply hasArgsCount_Return in H;
             let Hc := fresh "Hcount" in
             destruct H as (-> & -> & Hc)
         | H : hasOddArgs _ _ _ = (_, Return _) |- _ =>
             apply hasOddArgs_Return in H;
             let Hc := fresh "Hodd" in
             destruct H as (-> & -> & Hc)
         | H : hasEvenArgs _ _ _ = (_, Return _) |- _ =>
             apply hasEvenArgs_Return in H;
             let Hc := fresh "Heven" in
             destruct H as (-> & -> & Hc)
         | H : Expr.parse _ _ _ _ _ = (_, Return _) |- _ =>
             apply parse_plain_type in H;
             [| solve [auto using plain_item] ]
         | H : (if ?b then _ else _) _ = (_, Return _) |- _ =>
             destruct b eqn:?
         end.

(** A loop that appends a pair at each step. *)
Ltac pairs A B :=
  match goal with
  | H : forLoop _ _ _ _ _ _ = (_, Return _) |- _ =>
      apply (forLoop_invariant
               (fun k out => List.length out = 2 * k /\ pairsTyped A B out))
        in H;
      [ let Hlen := fresh "Hlen" in
        let Hpairs := fresh "Hpairs" in
        destruct H as [Hlen Hpairs]
      | intros ? ? ? ? ? _ [? ?] ?; unbind; split;
          [ rewrite length_app; simpl; lia
          | apply pairsTyped_app; auto; unfold typed; congruence ]
        | split; [reflexivity | exact I] ]
  end.

(** X5. A parsed [case] has an odd number of at least three arguments:
    the encoded arguments being plain, conditions of type [boolean]
    alternate with outputs of the declared type, and the fallback, of the
    declared type, comes last. *)
Theorem parse_case_branches fuel rest T c c' e :
  forallb plain rest = true ->
  parse (S fuel) (VArr (VStr "case" :: rest)) T c = (c', Return e) ->
  exists branches fallback,
    e = CallExpression T "case" (branches ++ [fallback])
    /\ List.length branches + 1 = List.length rest
    /\ 3 <= List.length rest
    /\ pairsTyped BooleanType T branches
    /\ typed T fallback.
Proof.
  intros Hplain H. apply (plain_call "case") in Hplain.
  rewrite (@parse_call fuel "case" _ rest T eq_refl) in H.
  unfold createCallExpressionParser in H. cbn [runValidators] in H.
  unfold withCaseArgs in H. unbind.
  rewrite length_rest in *.
  match goal with
  | Hout : exprType ?fallback = T, Hloop : forLoop _ _ _ _ _ _ = _ |- _ =>
      rewrite Hout in Hloop
  end.
  pairs BooleanType T.
  destruct Hcount as [Hcount _].
  rewrite pairsBelow_even in Hlen.
  - eexists _, _. split; [reflexivity |].
    repeat split; auto; lia.
  - pose proof (Nat.div_mod_eq (List.length rest) 2) as Hdiv.
    rewrite Hodd in Hdiv. rewrite Hdiv.
    replace (2 * (List.length rest / 2) + 1 - 1)
      with ((List.length rest / 2) * 2) by lia.
    apply Nat.Div0.mod_mul.
Qed.


(** A loop that appends one expression at each step. *)
Ltac singles P :=
  match goal with
  | H : forLoop _ _ _ _ _ _ = (_, Return _) |- _ =>
      apply (forLoop_invariant
               (fun k out => List.length out = k /\ Forall P out))
        in H;
      [ let Hlen := fresh "Hlen" in
        let Hall := fresh "Hall" in
        destruct H as [Hlen Hall]
      | intros ? ? ? ? ? _ [? ?] ?; unbind; split;
          [ rewrite length_app; simpl; lia
          | apply Forall_app; split; [assumption |];
            constructor; [| constructor] ]
      | split; [reflexivity | constructor] ]
  end.

Lemma even_rest n k : n mod 2 = 0 -> k <= n -> k mod 2 = 0 -> (n - k) mod 2 = 0.
Proof.
  intros Hn Hk Hkmod.
  pose proof (Nat.div_mod_eq n 2) as Hdiv.
  pose proof (Nat.div_mod_eq k 2) as Hdivk.
  rewrite Hn in Hdiv. rewrite Hkmod in Hdivk.
  replace (n - k) with ((n / 2 - k / 2) * 2) by lia.
  apply Nat.Div0.mod_mul.
Qed.

(** X6. A parsed [match-number] or [match-string] has the input first,
    then, the encoded arguments being plain, the match values, of the
    type of the input, alternating with the outputs, of the declared
    type, then the fallback, of the declared type. *)
Theorem parse_match_arms fuel operator inputType rest T c c' e :
  lookup operator (validatorsOf (parse fuel))
  = Some [hasArgsCount 4 Infinity; hasEvenArgs;
          withMatchArgs (parse fuel) inputType] ->
  forallb plain rest = true ->
  parse (S fuel) (VArr (VStr operator :: rest)) T c = (c', Return e) ->
  exists input arms fallback,
    e = CallExpression T operator (input :: arms ++ [fallback])
    /\ List.length arms + 2 = List.length rest
    /\ 4 <= List.length rest
    /\ typed inputType input
    /\ pairsTyped inputType T arms
    /\ typed T fallback.
Proof.
  intros Hlookup Hplain H. apply (plain_call operator) in Hplain.
  rewrite (@parse_call fuel operator _ rest T Hlookup) in H.
  unfold createCallExpressionParser in H. cbn [runValidators] in H.
  unfold withMatchArgs in H. unbind.
  rewrite length_rest in *.
  match goal with
  | Hin : exprType ?input = Declared inputType,
    Hout : exprType ?fallback = T,
    Hloop : forLoop _ _ _ _ _ _ = _ |- _ =>
      rewrite Hin, Hout in Hloop
  end.
  pairs inputType T.
  destruct Hcount as [Hcount _].
  rewrite pairsBelow_even in Hlen by (apply even_rest; auto; lia).
  eexists _, _, _. split; [reflexivity |].
  repeat split; auto; lia.
Qed.

Lemma interpolationBase_Return v base :
  interpolationBase v = Return base ->
  (getProp v "0" = VStr "linear" /\ base = one)
  \/ (getProp v "0" = VStr "exponential" /\ getProp v "1" = VNum base
      /\ atMostZero base = false).
Proof.
  unfold interpolationBase.
  destruct v; try discriminate;
    (destruct (getProp _ "0") as [| | b0 | n0 | kind | xs | fs];
     try discriminate;
     destruct (String.eqb_spec kind "linear") as [-> | _];
     [ intro H; inversion H; now left |];
     destruct (String.eqb_spec kind "exponential") as [-> | _];
     [| discriminate];
     destruct (getProp _ "1") as [| | b1 | n1 | s1 | xs | fs];
     try discriminate;
     destruct (atMostZero n1) eqn:Hbase; [discriminate |];
     intro H; inversion H; subst; right; auto).
Qed.

(** X7. A parsed [interpolate] has the base of the interpolation as a
    number literal first, then, the encoded arguments being plain, the
    input, a number, then the stops: numbers alternating with outputs of
    the declared type. *)
Theorem parse_interpolate_stops fuel rest T c c' e :
  forallb plain rest = true ->
  parse (S fuel) (VArr (VStr "interpolate" :: rest)) T c = (c', Return e) ->
  exists base input stops,
    e = CallExpression T "interpolate"
          (LiteralExpression NumberType (VNum base) :: input :: stops)
    /\ interpolationBase (item rest 0) = Return base
    /\ List.length stops + 2 = List.length rest
    /\ 6 <= List.length rest
    /\ typed NumberType input
    /\ pairsTyped NumberType T stops.
Proof.
  intros Hplain H. apply (plain_call "interpolate") in Hplain.
  rewrite (@parse_call fuel "interpolate" _ rest T eq_refl) in H.
  unfold createCallExpressionParser in H. cbn [runValidators] in H.
  unfold withInterpolateArgs in H.
  destruct (interpolationBase (item (VStr "interpolate" :: rest) 1))
    as [base | message | ] eqn:Hbase;
    try (unbind; discriminate).
  unbind.
  rewrite length_rest in *.
  replace (List.length (VStr "interpolate" :: rest) - 3)
    with (List.length rest - 2) in * by (simpl; lia).
  pairs NumberType T.
  destruct Hcount as [Hcount _].
  rewrite pairsBelow_even in Hlen by (apply even_rest; auto; lia).
  eexists _, _, _. split; [reflexivity |].
  repeat split; auto; lia.
Qed.

(** X8. A parsed [in] has the needle first and then one argument for
    each item of the haystack, all of one type when the encoded
    arguments are ordinary (no call of [constructor] or [toString]
    inside): [number] for a bare array, [string] for an array wrapped in
    [literal]. *)
Theorem parse_in_haystack fuel rest T c c' e :
  forallb ordinary rest = true ->
  parse (S fuel) (VArr (VStr "in" :: rest)) T c = (c', Return e) ->
  exists encodedNeedle haystack needle items needleType,
    rest = [encodedNeedle; VArr haystack]
    /\ e = CallExpression T "in" (needle :: items)
    /\ typed needleType needle
    /\ Forall (typed needleType) items
    /\ ((typeof (item haystack 0) <> "string"
         /\ needleType = NumberType
         /\ List.length items = List.length haystack)
        \/ (exists literal,
              item haystack 0 = VStr "literal"
              /\ item haystack 1 = VArr literal
              /\ needleType = StringType
              /\ List.length items = List.length literal)).
Proof.
  intros Hordinary H.
  rewrite (@parse_call fuel "in" _ rest T eq_refl) in H.
  unfold createCallExpressionParser in H. cbn [runValidators] in H.
  apply bind_Return_inv in H. destruct H as (args & c1 & H & Hret).
  apply bind_Return_inv in H. destruct H as (r & c2 & Hcount & H).
  apply hasArgsCount_Return in Hcount. destruct Hcount as (-> & -> & Hcount).
  rewrite length_rest in Hcount. destruct Hcount as [Hlo Hhi].
  destruct rest as [| encodedNeedle [| encodedHaystack [| extra rest]]];
    simpl in Hlo, Hhi; try lia.
  unfold withInArgs in H. cbn [item nth] in H.
  destruct encodedHaystack as [| | b | n | s | haystack | fields];
    try (unbind; fail).
  cbn [forallb] in Hordinary.
  apply andb_prop in Hordinary. destruct Hordinary as [Hneedle Hhaystack].
  apply ordinary_plain in Hneedle.
  apply andb_prop in Hhaystack. destruct Hhaystack as [Hhaystack _].
  assert (Hitems : forallb plain haystack = true)
    by now apply ordinary_items.
  assert (Hliteral : forall literal, item haystack 1 = VArr literal ->
                       forallb plain literal = true).
  { intros literal Hsecond. apply ordinary_items. rewrite <- Hsecond.
    cbn [ordinary] in Hhaystack. apply andb_prop in Hhaystack.
    destruct Hhaystack as [_ Hall]. clear - Hall.
    unfold item. destruct haystack as [| x [| y l]]; try reflexivity.
    simpl in *. apply andb_prop in Hall. destruct Hall as [_ Hall].
    apply andb_prop in Hall. now destruct Hall. }
  exists encodedNeedle, haystack.
  destruct (item haystack 0) as [| | b | n | first | inner | fields] eqn:Hfirst;
    try (unbind; singles (typed NumberType); [| assumption];
         eexists _, _, NumberType; repeat split; auto;
         left; repeat split; auto; discriminate).
  destruct (String.eqb_spec first "literal") as [-> | Hne];
    cbn [negb] in H; [| unbind].
  destruct (item haystack 1) as [| | b | n | s | literal | fields] eqn:Hsecond;
    try (unbind; fail).
  specialize (Hliteral literal eq_refl).
  unbind. singles (typed StringType); [| assumption].
  eexists _, _, StringType. repeat split; auto.
  right. exists literal. auto.
Qed.


End ShapeFacts.


Section ThrowFacts.
Context {St A B : Type}.

Lemma bind_Throw_inv (m : M St A) (k : A -> M St B) s s' message :
  bind m k s = (s', Throw message) ->
  m s = (s', Throw message)
  \/ exists a s1, m s = (s1, Return a) /\ k a s1 = (s', Throw message).
Proof.
  unfold bind. destruct (m s) as [s1 [a | message1 | ]]; intro H.
  - right. now exists a, s1.
  - left. inversion H. reflexivity.
  - discriminate H.
Qed.

End ThrowFacts.

(** ** Literals *)

Section LiteralFacts.
Context {N : JsNumber} {E : JsEngine}.
Variable colorFromString : string -> Value + string.

#[local] Abbreviation parseLiteralExpression :=
  (Expr.parseLiteralExpression colorFromString).
#[local] Abbreviation parse := (Expr.parse colorFromString).

(** The values of each type: a boolean, a number, a string, an array of
    numbers, a colour of four numbers, a size of two numbers. *)
Definition conforms (T : ValueType) (v : Value) : bool :=
  match T with
  | BooleanType => typeof v =? "boolean"
  | NumberType => typeof v =? "number"
  | StringType => typeof v =? "string"
  | NumberArrayType =>
      match v with VArr items => allNumbers items | _ => false end
  | ColorType =>
      match v with
      | VArr items => allNumbers items && (List.length items =? 4)%nat
      | _ => false
      end
  | SizeType =>
      match v with
      | VArr items => allNumbers items && (List.length items =? 2)%nat
      | _ => false
      end
  end.

(** The colour parser gives colours. *)
Definition colorsConform : Prop :=
  forall s color, colorFromString s = inl color -> conforms ColorType color = true.

Lemma allNumbers_app items1 items2 :
  allNumbers (items1 ++ items2) = allNumbers items1 && allNumbers items2.
Proof. apply forallb_app. Qed.

(** The literal that a coercion returns, and its value. *)
Lemma parseLiteralExpression_value encoded (T : ValueType) e :
  colorsConform ->
  parseLiteralExpression encoded T = Return e ->
  exists value, e = LiteralExpression T value /\ conforms T value = true.
Proof.
  intros Hcolors. unfold Expr.parseLiteralExpression.
  destruct T.
  - destruct (typeof encoded =? "boolean") eqn:Htype; intro H; inversion H;
      eexists; split; try reflexivity; auto.
  - destruct (typeof encoded =? "number") eqn:Htype;
      [| destruct (isNaN (toNumber encoded))]; intro H; inversion H;
      eexists; split; try reflexivity; auto.
  - destruct (typeof encoded =? "string") eqn:Htype; intro H; inversion H;
      eexists; split; try reflexivity; auto.
  - destruct encoded; try discriminate.
    + destruct (colorFromString s) as [color | message] eqn:Hcolor;
        intro H; inversion H; subst.
      eexists; split; [reflexivity |]. eapply Hcolors; eassumption.
    + destruct (allNumbers items) eqn:Hnumbers; simpl; [| discriminate].
      destruct (Nat.eqb_spec (List.length items) 3) as [Hlen | _].
      * intro H; inversion H. eexists; split; [reflexivity |]. simpl.
        rewrite allNumbers_app, Hnumbers, length_app, Hlen. reflexivity.
      * destruct (Nat.eqb_spec (List.length items) 4) as [Hlen | _];
          intro H; inversion H. eexists; split; [reflexivity |]. simpl.
        now rewrite Hnumbers, Hlen.
  - destruct encoded; try discriminate.
    destruct (allNumbers items) eqn:Hnumbers; intro H; inversion H.
    eexists; split; [reflexivity |]. exact Hnumbers.
  - destruct encoded; try discriminate.
    + intro H; inversion H. eexists; split; reflexivity.
    + destruct (Nat.eqb_spec (List.length items) 2) as [Hlen | _]; simpl;
        [| discriminate].
      destruct (allNumbers items) eqn:Hnumbers; intro H; inversion H.
      eexists; split; [reflexivity |]. simpl. now rewrite Hnumbers, Hlen.
Qed.

(** X10. A literal carries a value of its type: a boolean, a number, a
    string, an array of numbers, a colour of four numbers or a size of
    two numbers (for a colour read from a string, when the colour parser
    gives colours). *)
Theorem parseLiteralExpression_conforms encoded (T : ValueType) e :
  colorsConform ->
  parseLiteralExpression encoded T = Return e ->
  exists value, e = LiteralExpression T value /\ conforms T value = true.
Proof.
  intros Hcolors H.
  destruct (parseLiteralExpression_value _ _ Hcolors H) as (value & He & Hv).
  exists value. split; assumption.
Qed.

(** A value of the type is kept as it is. *)
Lemma parseLiteralExpression_kept (T : ValueType) value :
  conforms T value = true ->
  parseLiteralExpression value T = Return (LiteralExpression T value).
Proof.
  unfold Expr.parseLiteralExpression, conforms.
  destruct T; try (intros ->; reflexivity);
    destruct value; try discriminate; intro H.
  - apply andb_prop in H. destruct H as [Hnumbers Hlen].
    apply Nat.eqb_eq in Hlen. rewrite Hnumbers, Hlen. reflexivity.
  - rewrite H. reflexivity.
  - apply andb_prop in H. destruct H as [Hnumbers Hlen].
    apply Nat.eqb_eq in Hlen. rewrite Hnumbers, Hlen. reflexivity.
Qed.

(** X11. The coercion of a literal is idempotent: the value of a literal
    is coerced to the literal itself. *)
Theorem parseLiteralExpression_idempotent encoded (T : ValueType) e :
  colorsConform ->
  parseLiteralExpression encoded T = Return e ->
  parseLiteralExpression (exprValue e) T = Return e.
Proof.
  intros Hcolors H.
  apply parseLiteralExpression_value in H; [| assumption].
  destruct H as (value & -> & Hvalue).
  now apply parseLiteralExpression_kept.
Qed.

End LiteralFacts.


(** ** Accessors that are rejected *)

Section AccessorRejected.
Context {N : JsNumber} {E : JsEngine}.
Variable colorFromString : string -> Value + string.

#[local] Abbreviation parse := (Expr.parse colorFromString).
#[local] Abbreviation processAccessor :=
  (Expr.processAccessor colorFromString).
#[local] Abbreviation processAccessorValues :=
  (Expr.processAccessorValues colorFromString).

Lemma hasArgsCount_context lo hi encoded T c :
  fst (hasArgsCount lo hi encoded T c) = c.
Proof.
  unfold hasArgsCount. destruct hi as [hi |];
    repeat match goal with
           | |- context [if ?b then _ else _] => destruct b
           end; reflexivity.
Qed.

Lemma withAccessorArgs_Throw encoded T infoLookup l message :
  withAccessorArgs encoded T infoLookup = (l, Throw message) ->
  l = infoLookup.
Proof.
  unfold withAccessorArgs.
  destruct (accessorArgs _ _ _ _ _) as [[accessorPath options] | m | ];
    [destruct (isSome _) |..]; intro H; inversion H; reflexivity.
Qed.

Lemma context_eta c :
  {| variables := variables c; properties := properties c;
     featureId := featureId c; geometryType := geometryType c |} = c.
Proof. now destruct c. Qed.

Lemma withGetArgs_Throw encoded T c c' message :
  withGetArgs encoded T c = (c', Throw message) -> c' = c.
Proof.
  unfold withGetArgs.
  destruct (withAccessorArgs encoded T (properties c)) as [l o] eqn:Hacc.
  destruct o as [args | m | ]; intro H; inversion H; subst.
  apply withAccessorArgs_Throw in Hacc. subst l. apply context_eta.
Qed.

Lemma withVarArgs_Throw encoded T c c' message :
  withVarArgs encoded T c = (c', Throw message) -> c' = c.
Proof.
  unfold withVarArgs.
  destruct (withAccessorArgs encoded T (variables c)) as [l o] eqn:Hacc.
  destruct o as [args | m | ]; intro H; inversion H; subst.
  apply withAccessorArgs_Throw in Hacc. subst l. apply context_eta.
Qed.

(** X12. A [get], [has] or [var] call that throws registers nothing: the
    context is left as it was. *)
Theorem parse_accessor_rejected fuel operator args T c c' message :
  In operator ["get"; "has"; "var"] ->
  parse (S fuel) (VArr (VStr operator :: args)) T c = (c', Throw message) ->
  c' = c.
Proof.
  intros Hop H.
  assert (Hchain :
            exists v, lookup operator (validatorsOf (parse fuel))
                      = Some [hasArgsCount 1 Infinity; v]
                      /\ forall encoded c c' message,
                           v encoded T c = (c', Throw message) -> c' = c).
  { destruct Hop as [<- | [<- | [<- | []]]].
    - exists withGetArgs. split; [reflexivity |].
      intros; eapply withGetArgs_Throw; eassumption.
    - exists withGetArgs. split; [reflexivity |].
      intros; eapply withGetArgs_Throw; eassumption.
    - exists withVarArgs. split; [reflexivity |].
      intros; eapply withVarArgs_Throw; eassumption. }
  destruct Hchain as (v & Hlookup & Hv).
  rewrite (@parse_call _ _ colorFromString fuel operator _ args T Hlookup) in H.
  unfold createCallExpressionParser in H. cbn [runValidators] in H.
  apply bind_Throw_inv in H.
  destruct H as [H | (a & c1 & _ & H)]; [| unfold ret in H; discriminate H].
  apply bind_Throw_inv in H. destruct H as [H | (r & c1 & Hcount & H)].
  - pose proof (hasArgsCount_context 1 Infinity (VStr operator :: args) T c)
      as Hc. rewrite H in Hc. exact Hc.
  - pose proof (hasArgsCount_context 1 Infinity (VStr operator :: args) T c)
      as Hc. rewrite Hcount in Hc. simpl in Hc. subst c1.
    apply bind_Throw_inv in H. destruct H as [H | (r' & c1 & Hrun & H)].
    + eapply Hv. eassumption.
    + destruct r'; unfold ret, throw in H; [discriminate H |].
      exfalso.
      assert (Hgives : forall encoded c c' r,
                 v encoded T c = (c', Return r) -> r <> None).
      { clear - Hop Hlookup. intros encoded c0 c0' r Hr.
        destruct Hop as [<- | [<- | [<- | []]]];
          inversion Hlookup; subst;
          unfold withGetArgs, withVarArgs in Hr;
          destruct (withAccessorArgs _ _ _) as [l [args0 | m | ]];
          inversion Hr; discriminate. }
      eapply Hgives; [eassumption | reflexivity].
Qed.

(** ** The keys of the processed values *)

(** The accessor resolves: it is present in the values or has a default. *)
Definition resolves (values : Value) (info : PreAccessorInfo) : bool :=
  negb (fst (walkPath (path info) true values)) || isSome (default info).

Lemma processAccessor_Some values info post :
  processAccessor values info = Return (Some post) ->
  resolves values info = true.
Proof.
  unfold Expr.processAccessor, resolves.
  destruct (walkPath (path info) true values) as [absent value]. simpl.
  destruct absent; simpl; [| reflexivity].
  destruct (default info); [reflexivity | discriminate].
Qed.

Lemma processAccessor_None values info :
  processAccessor values info = Return None ->
  resolves values info = false.
Proof.
  unfold Expr.processAccessor, resolves.
  destruct (walkPath (path info) true values) as [absent value]. simpl.
  destruct absent; simpl.
  - destruct (default info) as [d |]; [| reflexivity].
    destruct (Expr.parseLiteralExpression _ d _); discriminate.
  - destruct (Expr.parseLiteralExpression _ value _); discriminate.
Qed.


Lemma processAccessor_total values info :
  processAccessor values info <> OutOfFuel.
Proof.
  unfold Expr.processAccessor.
  destruct (walkPath (path info) true values) as [absent value].
  destruct (negb absent).
  - pose proof (parseLiteralExpression_total colorFromString value (type info)).
    destruct (Expr.parseLiteralExpression _ value _); congruence.
  - destruct (default info) as [d |]; [| discriminate].
    pose proof (parseLiteralExpression_total colorFromString d (type info)).
    destruct (Expr.parseLiteralExpression _ d _); congruence.
Qed.

(** X14. One accessor whose value cannot be coerced makes
    [processAccessorValues] throw: there is no partial result. *)
Theorem processAccessorValues_rejects values infoLookup key info message :
  In (key, info) infoLookup ->
  processAccessor values info = Throw message ->
  exists message', processAccessorValues values infoLookup = Throw message'.
Proof.
  unfold Expr.processAccessorValues.
  generalize (@nil (string * PostAccessorInfo)).
  induction infoLookup as [| [k i] rest IH]; intros processedValues Hin Hthrow;
    simpl; [destruct Hin |].
  destruct Hin as [Heq | Hin].
  - inversion Heq; subst. rewrite Hthrow. now exists message.
  - pose proof (processAccessor_total values i) as Htotal.
    destruct (processAccessor values i) as [[post |] | message1 | ];
      try congruence; try (now apply IH).
    now exists message1.
Qed.

End AccessorRejected.


(** ** The lookups follow the tree

    What [parse] registers in [properties] is what the [get] and [has]
    nodes of the tree read, and in [variables] what the [var] nodes
    read. *)

Inductive Accessors : Type := PropertyAccessors | VariableAccessors.

Definition lookupOf {N : JsNumber} (which : Accessors) (c : ParsingContext)
  : Lookup PreAccessorInfo :=
  match which with
  | PropertyAccessors => properties c
  | VariableAccessors => variables c
  end.

Definition accessorOperators (which : Accessors) : list string :=
  match which with
  | PropertyAccessors => [Ops.Get; Ops.Has]
  | VariableAccessors => [Ops.Var]
  end.

Section KeyFacts.
Context {N : JsNumber} {E : JsEngine}.
Variable colorFromString : string -> Value + string.
Variable which : Accessors.
Variable key : string.

(** The lookup has an entry under [key]. *)
Definition known (c : ParsingContext) : bool :=
  isSome (lookup key (lookupOf which c)).

(** A call of [operator] with the arguments [args] reads the accessor
    stored under [key]. *)
Definition reads (operator : string) (args : list Expression) : bool :=
  existsb (String.eqb operator) (accessorOperators which)
  && match args with
     | [LiteralExpression _ (VStr k)] => k =? key
     | _ => false
     end.

(** Some node of the tree reads the accessor stored under [key]. *)
Fixpoint uses (e : Expression) : bool :=
  match e with
  | LiteralExpression _ _ => false
  | CallExpression _ operator args => reads operator args || existsb uses args
  | NotExpression _ => false
  end.

Definition anyUses (args : list Expression) : bool := existsb uses args.

Definition Follows {A : Type} (measure : A -> bool) (m : Ctx A) : Prop :=
  forall c c' a, m c = (c', Return a) -> known c' = known c || measure a.

Definition Passes (v : ArgValidator) : Prop :=
  forall encoded T c c' r,
    v encoded T c = (c', Return r) -> r = None /\ known c' = known c.

Definition Parses (v : ArgValidator) : Prop :=
  forall encoded T c c' r,
    v encoded T c = (c', Return r) ->
    exists args, r = Some args /\ known c' = known c || anyUses args.

Lemma anyUses_app args1 args2 :
  anyUses (args1 ++ args2) = anyUses args1 || anyUses args2.
Proof. apply existsb_app. Qed.

Lemma forLoop_follows count start step
    (body : nat -> list Expression -> Ctx (list Expression)) acc c c' out :
  (forall i a c1 c2 a', body i a c1 = (c2, Return a') ->
     exists new, a' = (a ++ new)%list
                 /\ known c2 = known c1 || anyUses new) ->
  forLoop count start step body acc c = (c', Return out) ->
  exists new, out = (acc ++ new)%list
              /\ known c' = known c || anyUses new.
Proof.
  intro Hbody. revert start acc c.
  induction count as [| count IH]; intros start acc c; simpl.
  - unfold ret. intro H. inversion H; subst. exists [].
    rewrite app_nil_r. simpl. now rewrite orb_false_r.
  - intro H. apply bind_Return_inv in H.
    destruct H as (a1 & c1 & Hstep & Hrest).
    apply Hbody in Hstep. destruct Hstep as (new1 & -> & Hknown1).
    apply IH in Hrest. destruct Hrest as (new2 & -> & Hknown2).
    exists (new1 ++ new2)%list. split; [now rewrite app_assoc |].
    rewrite Hknown2, Hknown1, anyUses_app. now rewrite orb_assoc.
Qed.

Lemma Passes_hasArgsCount minArgs maxArgs :
  Passes (hasArgsCount minArgs maxArgs).
Proof.
  intros encoded T c c' r H. apply hasArgsCount_Return in H.
  destruct H as (-> & -> & _). auto.
Qed.

Lemma Passes_hasOddArgs : Passes hasOddArgs.
Proof.
  intros encoded T c c' r H. apply hasOddArgs_Return in H.
  destruct H as (-> & -> & _). auto.
Qed.

Lemma Passes_hasEvenArgs : Passes hasEvenArgs.
Proof.
  intros encoded T c c' r H. apply hasEvenArgs_Return in H.
  destruct H as (-> & -> & _). auto.
Qed.

Lemma Passes_usesFeatureId : Passes usesFeatureId.
Proof.
  intros encoded T c c' r H. unfold usesFeatureId in H. inversion H.
  split; [reflexivity |]. unfold known. now destruct which.
Qed.

Lemma Passes_usesGeometryType : Passes usesGeometryType.
Proof.
  intros encoded T c c' r H. unfold usesGeometryType in H. inversion H.
  split; [reflexivity |]. unfold known. now destruct which.
Qed.

Lemma Parses_withNoArgs : Parses withNoArgs.
Proof.
  intros encoded T c c' r. unfold withNoArgs.
  destruct (negb _); unfold throw, ret; intro H; inversion H; subst.
  exists []. split; [reflexivity |]. simpl. now rewrite orb_false_r.
Qed.

(** The chain of validators registered under [operator]: when it returns,
    the lookup follows the operator and the arguments. *)
Definition ChainFollows (operator : string) (validators : list ArgValidator)
  : Prop :=
  forall encoded T c c' args,
    runValidators validators encoded T c = (c', Return args) ->
    known c' = known c || reads operator args || anyUses args.

Lemma chain_parses operator v :
  existsb (String.eqb operator) (accessorOperators which) = false ->
  Parses v -> ChainFollows operator [v].
Proof.
  intros Hop Hv encoded T c c' args H. simpl in H.
  apply bind_Return_inv in H. destruct H as (r & c1 & Hrun & Hret).
  apply Hv in Hrun. destruct Hrun as (args' & -> & Hknown).
  unfold ret in Hret. inversion Hret; subst.
  unfold reads. rewrite Hknown, Hop. now rewrite orb_false_r.
Qed.

Lemma chain_passes operator v v' rest :
  Passes v -> ChainFollows operator (v' :: rest) ->
  ChainFollows operator (v :: v' :: rest).
Proof.
  intros Hv Hrest encoded T c c' args H.
  change (runValidators (v :: v' :: rest) encoded T)
    with (bind (v encoded T)
               (fun _ => runValidators (v' :: rest) encoded T)) in H.
  apply bind_Return_inv in H. destruct H as (r & c1 & Hrun & Hnext).
  apply Hv in Hrun. destruct Hrun as [_ Hknown].
  apply Hrest in Hnext. now rewrite Hnext, Hknown.
Qed.

(** What [withAccessorArgs] leaves under [key]. *)
Lemma withAccessorArgs_known encoded T infoLookup l args :
  withAccessorArgs encoded T infoLookup = (l, Return args) ->
  exists k,
    args = [LiteralExpression StringType (VStr k)]
    /\ isSome (lookup key l) = isSome (lookup key infoLookup) || (k =? key).
Proof.
  unfold withAccessorArgs.
  destruct (accessorArgs _ _ _ _ _) as [[accessorPath options] | m | ];
    try discriminate.
  generalize (keyForAccessor accessorPath T options). intro k.
  destruct (lookup k infoLookup) as [info |] eqn:Hknown; cbn [isSome];
    intro H; inversion H; subst; exists k; (split; [reflexivity |]).
  - destruct (String.eqb_spec k key) as [<- | Hne];
      [now rewrite Hknown | now rewrite orb_false_r].
  - rewrite lookup_app. cbn [lookup].
    destruct (lookup key infoLookup); [reflexivity |].
    now destruct (k =? key).
Qed.


Lemma chain_withGetArgs operator :
  operator = Ops.Get \/ operator = Ops.Has ->
  ChainFollows operator [hasArgsCount 1 Infinity; withGetArgs].
Proof.
  intros Hop encoded T c c' args H. cbn [runValidators] in H.
  apply bind_Return_inv in H. destruct H as (r & c1 & Hcount & H).
  apply hasArgsCount_Return in Hcount. destruct Hcount as (-> & _ & _).
  apply bind_Return_inv in H. destruct H as (r' & c1 & Hrun & Hret).
  unfold withGetArgs in Hrun.
  destruct (withAccessorArgs encoded T (properties c)) as [l o] eqn:Hacc.
  destruct o as [args' | m | ]; inversion Hrun; subst; clear Hrun.
  unfold ret in Hret. inversion Hret; subst; clear Hret.
  apply withAccessorArgs_known in Hacc. destruct Hacc as (k & -> & Hknown).
  unfold known, reads, anyUses.
  destruct which; cbn [lookupOf accessorOperators properties variables
                       existsb uses].
  - rewrite Hknown. destruct Hop as [-> | ->]; cbn; btauto.
  - destruct Hop as [-> | ->]; cbn; btauto.
Qed.

Lemma chain_withVarArgs :
  ChainFollows Ops.Var [hasArgsCount 1 Infinity; withVarArgs].
Proof.
  intros encoded T c c' args H. cbn [runValidators] in H.
  apply bind_Return_inv in H. destruct H as (r & c1 & Hcount & H).
  apply hasArgsCount_Return in Hcount. destruct Hcount as (-> & _ & _).
  apply bind_Return_inv in H. destruct H as (r' & c1 & Hrun & Hret).
  unfold withVarArgs in Hrun.
  destruct (withAccessorArgs encoded T (variables c)) as [l o] eqn:Hacc.
  destruct o as [args' | m | ]; inversion Hrun; subst; clear Hrun.
  unfold ret in Hret. inversion Hret; subst; clear Hret.
  apply withAccessorArgs_known in Hacc. destruct Hacc as (k & -> & Hknown).
  unfold known, reads, anyUses.
  destruct which; cbn [lookupOf accessorOperators properties variables
                       existsb uses].
  - cbn; btauto.
  - rewrite Hknown. cbn; btauto.
Qed.

Section WithParseArg.
Variable parseArg : Value -> PassedType -> Ctx Expression.
Hypothesis Follows_parseArg :
  forall encoded T, Follows uses (parseArg encoded T).

(** Taking apart a computation that returned. *)
Ltac returned :=
  repeat match goal with
         | H : bind _ _ _ = (_, Return _) |- _ =>
             apply bind_Return_inv in H;
             let a := fresh "a" in
             let c := fresh "c" in
             let H1 := fresh "H" in
             let H2 := fresh "H" in
             destruct H as (a & c & H1 & H2)
         | H : rethrow _ _ _ = (_, Return _) |- _ =>
             apply rethrow_Return_inv in H
         | H : parseArg _ _ _ = (_, Return _) |- _ =>
             apply Follows_parseArg in H
         | H : ret _ _ = (_, Return _) |- _ =>
             unfold ret in H; inversion H; subst; clear H
         | H : throw _ _ = (_, Return _) |- _ =>
             unfold throw in H; discriminate H
         | H : lift _ _ = (_, Return _) |- _ =>
             unfold lift in H; inversion H; subst; clear H
         | H : (if ?b then _ else _) _ = (_, Return _) |- _ =>
             destruct b
         end.

(** Closing a goal on the lookup from the equations collected. *)
Ltac lookups :=
  unfold anyUses in *; simpl app; cbn [existsb uses];
  repeat rewrite existsb_app; cbn [existsb uses];
  repeat match goal with
         | H : known _ = _ |- _ => rewrite H; clear H
         end;
  btauto.

(** A loop that returned: what it appended, and the lookup after it. *)
Ltac looped :=
  match goal with
  | H : forLoop _ _ _ _ _ _ = (_, Return _) |- _ =>
      apply forLoop_follows in H;
      [ let new := fresh "new" in
        let Hknown := fresh "Hknown" in
        destruct H as (new & -> & Hknown)
      | clear - Follows_parseArg; intros; returned;
        eexists; (split; [reflexivity |]); lookups ]
  end.

Ltac parses := eexists; (split; [reflexivity |]); lookups.

Lemma Parses_withArgsOfType argType :
  Parses (withArgsOfType parseArg argType).
Proof.
  intros encoded T c c' r H. unfold withArgsOfType in H.
  returned. looped. parses.
Qed.

Lemma Parses_withMatchArgs inputType :
  Parses (withMatchArgs parseArg inputType).
Proof.
  intros encoded T c c' r H. unfold withMatchArgs in H.
  returned. looped. parses.
Qed.

Lemma Parses_withInterpolateArgs : Parses (withInterpolateArgs parseArg).
Proof.
  intros encoded T c c' r H. unfold withInterpolateArgs in H.
  returned. looped. parses.
Qed.

Lemma Parses_withCaseArgs : Parses (withCaseArgs parseArg).
Proof.
  intros encoded T c c' r H. unfold withCaseArgs in H.
  returned. looped. parses.
Qed.

Lemma Parses_withInArgs : Parses (withInArgs parseArg).
Proof.
  intros encoded T c c' r H. unfold withInArgs in H.
  destruct (item encoded 2); try (unfold throw in H; discriminate H).
  destruct (item items 0); try (returned; looped; parses).
  destruct (negb _); [unfold throw in H; discriminate H |].
  destruct (item items 1); try (unfold throw in H; discriminate H).
  returned. looped. parses.
Qed.

Lemma Parses_withPaletteArgs : Parses (withPaletteArgs parseArg).
Proof.
  intros encoded T c c' r H. unfold withPaletteArgs in H. returned.
  destruct (item encoded 2);
    try match goal with
        | H : throw _ _ = _ |- _ => unfold throw in H; discriminate H
        end.
  returned. looped. parses.
Qed.

Lemma ChainFollows_validatorsOf :
  Forall (fun entry : string * list ArgValidator =>
            ChainFollows (fst entry) (snd entry))
         (validatorsOf parseArg).
Proof.
  unfold validatorsOf.
  repeat (apply Forall_cons;
          [ cbn [fst snd];
            first [ apply chain_withGetArgs; auto; fail
                  | apply chain_withVarArgs
                  | repeat (apply chain_passes;
                            [ first [ apply Passes_hasArgsCount
                                    | apply Passes_hasOddArgs
                                    | apply Passes_hasEvenArgs
                                    | apply Passes_usesFeatureId
                                    | apply Passes_usesGeometryType ] |]);
                    apply chain_parses;
                    [ destruct which; reflexivity
                    | first [ apply Parses_withNoArgs
                            | apply Parses_withArgsOfType
                            | apply Parses_withMatchArgs
                            | apply Parses_withInterpolateArgs
                            | apply Parses_withCaseArgs
                            | apply Parses_withInArgs
                            | apply Parses_withPaletteArgs ] ] ] |]).
  apply Forall_nil.
Qed.

Lemma Follows_parseCallExpression encoded T :
  Follows uses (parseCallExpression parseArg encoded T).
Proof.
  intros c c' e.
  destruct (lookup (operatorOf encoded) (validatorsOf parseArg))
    as [validators |] eqn:Hlookup.
  2: { destruct (parseCallExpression_miss _ _ T Hlookup)
         as (o & -> & _ & Ho).
       unfold lift. intro H. inversion H; subst.
       destruct (Ho e eq_refl) as [value ->]. simpl.
       now rewrite orb_false_r. }
  unfold parseCallExpression, parsers. rewrite Hlookup.
  apply lookup_In in Hlookup.
  pose proof ChainFollows_validatorsOf as Htable.
  rewrite Forall_forall in Htable. specialize (Htable _ Hlookup).
  simpl in Htable. unfold createCallExpressionParser. intro H.
  apply bind_Return_inv in H. destruct H as (args & c1 & Hrun & Hret).
  apply Htable in Hrun. unfold ret in Hret. inversion Hret; subst.
  rewrite Hrun. cbn [uses]. now rewrite orb_assoc.
Qed.

End WithParseArg.

Lemma Follows_literal encoded T :
  Follows uses (lift (parseLiteralExpression colorFromString encoded T)).
Proof.
  intros c c' e H. unfold lift in H. inversion H; subst.
  match goal with
  | H : parseLiteralExpression _ _ _ = Return _ |- _ =>
      apply parseLiteralExpression_literal in H
  end.
  destruct e; try discriminate. simpl. now rewrite orb_false_r.
Qed.

Lemma Follows_parse fuel encoded T :
  Follows uses (parse colorFromString fuel encoded T).
Proof.
  revert encoded T. induction fuel as [| fuel IH]; intros encoded T; simpl.
  - intros c c' e H. discriminate H.
  - destruct encoded; try apply Follows_literal.
    destruct (List.length items =? 0)%nat;
      [intros c c' e H; discriminate H |].
    destruct (typeof (item items 0) =? "string"); [| apply Follows_literal].
    apply Follows_parseCallExpression. exact IH.
Qed.

End KeyFacts.

Section KeyTheorem.
Context {N : JsNumber} {E : JsEngine}.
Variable colorFromString : string -> Value + string.

(** X15. After a parse that returns, [properties] has an entry under a
    key exactly when it had one before or a [get] or [has] node of the
    tree carries that key, and [variables] exactly when it had one before
    or a [var] node carries it. *)
Theorem parse_registers_what_it_reads fuel encoded T c c' e key :
  parse colorFromString fuel encoded T c = (c', Return e) ->
  isSome (lookup key (properties c'))
  = isSome (lookup key (properties c)) || uses PropertyAccessors key e
  /\ isSome (lookup key (variables c'))
     = isSome (lookup key (variables c)) || uses VariableAccessors key e.
Proof.
  intro H. split.
  - apply (Follows_parse colorFromString PropertyAccessors key) in H.
    exact H.
  - apply (Follows_parse colorFromString VariableAccessors key) in H.
    exact H.
Qed.

End KeyTheorem.


(** ** What the lookups hold

    [parse] changes the context through four operations only: a
    registration in [properties], a registration in [variables], and the
    two flags.  Each of them keeps the lookups well formed. *)

Section ReachFacts.
Context {N : JsNumber} {E : JsEngine}.
Variable colorFromString : string -> Value + string.

Inductive Reaches (c : ParsingContext) : ParsingContext -> Prop :=
| Reaches_refl : Reaches c c
| Reaches_get c' encoded T :
    Reaches c c' -> Reaches c (fst (withGetArgs encoded T c'))
| Reaches_var c' encoded T :
    Reaches c c' -> Reaches c (fst (withVarArgs encoded T c'))
| Reaches_featureId c' encoded T :
    Reaches c c' -> Reaches c (fst (usesFeatureId encoded T c'))
| Reaches_geometryType c' encoded T :
    Reaches c c' -> Reaches c (fst (usesGeometryType encoded T c')).

Lemma Reaches_trans c1 c2 c3 :
  Reaches c1 c2 -> Reaches c2 c3 -> Reaches c1 c3.
Proof.
  intros H12 H23. induction H23; auto using Reaches.
Qed.

(** Whatever its outcome, the computation changes the context through
    these operations. *)
Definition Runs {A : Type} (m : Ctx A) : Prop :=
  forall c, Reaches c (fst (m c)).

Lemma Runs_ret {A : Type} (a : A) : Runs (ret a).
Proof. intro c. apply Reaches_refl. Qed.

Lemma Runs_throw {A : Type} message : Runs (@throw _ A message).
Proof. intro c. apply Reaches_refl. Qed.

Lemma Runs_lift {A : Type} (o : Outcome A) : Runs (lift o).
Proof. intro c. apply Reaches_refl. Qed.

Lemma Runs_bind {A B : Type} (m : Ctx A) (k : A -> Ctx B) :
  Runs m -> (forall a, Runs (k a)) -> Runs (bind m k).
Proof.
  intros Hm Hk c. unfold bind. specialize (Hm c).
  destruct (m c) as [c1 [a | message | ]]; simpl in *; auto.
  eapply Reaches_trans; [eassumption | apply Hk].
Qed.

Lemma Runs_rethrow {A : Type} prefix (m : Ctx A) :
  Runs m -> Runs (rethrow prefix m).
Proof.
  intros Hm c. unfold rethrow. specialize (Hm c).
  destruct (m c) as [c1 [a | message | ]]; simpl in *; auto.
Qed.

Lemma Runs_forLoop {A : Type} count start step
    (body : nat -> A -> Ctx A) acc :
  (forall i a, Runs (body i a)) ->
  Runs (forLoop count start step body acc).
Proof.
  intro Hbody. revert start acc.
  induction count as [| count IH]; intros start acc; simpl.
  - apply Runs_ret.
  - apply Runs_bind; auto.
Qed.

Lemma Runs_if {A : Type} (b : bool) (m1 m2 : Ctx A) :
  Runs m1 -> Runs m2 -> Runs (if b then m1 else m2).
Proof. destruct b; auto. Qed.

Lemma Runs_withGetArgs encoded T : Runs (withGetArgs encoded T).
Proof. intro c. apply Reaches_get, Reaches_refl. Qed.

Lemma Runs_withVarArgs encoded T : Runs (withVarArgs encoded T).
Proof. intro c. apply Reaches_var, Reaches_refl. Qed.

Lemma Runs_usesFeatureId encoded T : Runs (usesFeatureId encoded T).
Proof. intro c. apply Reaches_featureId, Reaches_refl. Qed.

Lemma Runs_usesGeometryType encoded T : Runs (usesGeometryType encoded T).
Proof. intro c. apply Reaches_geometryType, Reaches_refl. Qed.

Create HintDb runs discriminated.
#[local] Hint Resolve Runs_ret Runs_throw Runs_lift Runs_rethrow
  Runs_withGetArgs Runs_withVarArgs Runs_usesFeatureId
  Runs_usesGeometryType : runs.
#[local] Hint Extern 2 (Runs (bind _ _)) =>
  apply Runs_bind; [| intro] : runs.
#[local] Hint Extern 2 (Runs (forLoop _ _ _ _ _)) =>
  apply Runs_forLoop; intros : runs.
#[local] Hint Extern 2 (Runs (if _ then _ else _)) =>
  apply Runs_if : runs.
#[local] Hint Extern 3 (Runs (match ?x with _ => _ end)) =>
  destruct x : runs.

Lemma Runs_withNoArgs encoded T : Runs (withNoArgs encoded T).
Proof. unfold withNoArgs. auto with runs. Qed.

Lemma Runs_hasArgsCount minArgs maxArgs encoded T :
  Runs (hasArgsCount minArgs maxArgs encoded T).
Proof. unfold hasArgsCount. auto 8 with runs. Qed.

Lemma Runs_hasOddArgs encoded T : Runs (hasOddArgs encoded T).
Proof. unfold hasOddArgs. auto with runs. Qed.

Lemma Runs_hasEvenArgs encoded T : Runs (hasEvenArgs encoded T).
Proof. unfold hasEvenArgs. auto with runs. Qed.

#[local] Hint Resolve Runs_withNoArgs Runs_hasArgsCount Runs_hasOddArgs
  Runs_hasEvenArgs : runs.

Section WithParseArg.
Variable parseArg : Value -> PassedType -> Ctx Expression.
Hypothesis Runs_parseArg : forall encoded T, Runs (parseArg encoded T).

#[local] Hint Resolve Runs_parseArg : runs.

Lemma Runs_withArgsOfType argType encoded T :
  Runs (withArgsOfType parseArg argType encoded T).
Proof. unfold withArgsOfType. auto 8 with runs. Qed.

Lemma Runs_withMatchArgs inputType encoded T :
  Runs (withMatchArgs parseArg inputType encoded T).
Proof. unfold withMatchArgs. auto 12 with runs. Qed.

Lemma Runs_withInterpolateArgs encoded T :
  Runs (withInterpolateArgs parseArg encoded T).
Proof. unfold withInterpolateArgs. auto 12 with runs. Qed.

Lemma Runs_withCaseArgs encoded T :
  Runs (withCaseArgs parseArg encoded T).
Proof. unfold withCaseArgs. auto 12 with runs. Qed.

Lemma Runs_withInArgs encoded T :
  Runs (withInArgs parseArg encoded T).
Proof. unfold withInArgs. auto 14 with runs. Qed.

Lemma Runs_withPaletteArgs encoded T :
  Runs (withPaletteArgs parseArg encoded T).
Proof. unfold withPaletteArgs. auto 12 with runs. Qed.

#[local] Hint Resolve Runs_withArgsOfType Runs_withMatchArgs
  Runs_withInterpolateArgs Runs_withCaseArgs Runs_withInArgs
  Runs_withPaletteArgs : runs.

Lemma Runs_runValidators validators encoded T :
  Forall (fun v : ArgValidator => forall e t, Runs (v e t)) validators ->
  Runs (runValidators validators encoded T).
Proof.
  induction 1 as [| v rest Hv Hrest IH]; simpl.
  - apply Runs_throw.
  - destruct rest as [| v' rest'].
    + apply Runs_bind; [apply Hv |]. intros [args |]; auto with runs.
    + apply Runs_bind; [apply Hv | intro; apply IH].
Qed.

Lemma Runs_validatorsOf :
  Forall (fun entry : string * list ArgValidator =>
            Forall (fun v : ArgValidator => forall e t, Runs (v e t))
                   (snd entry))
         (validatorsOf parseArg).
Proof.
  unfold validatorsOf.
  repeat (apply Forall_cons;
          [simpl; repeat (apply Forall_cons; [auto with runs |]);
           apply Forall_nil |]).
  apply Forall_nil.
Qed.

Lemma Runs_parseCallExpression encoded T :
  Runs (parseCallExpression parseArg encoded T).
Proof.
  destruct (lookup (operatorOf encoded) (validatorsOf parseArg))
    as [validators |] eqn:Hlookup.
  2: { destruct (parseCallExpression_miss _ _ T Hlookup) as (o & -> & _).
       apply Runs_lift. }
  unfold parseCallExpression, parsers. rewrite Hlookup.
  apply lookup_In in Hlookup.
  pose proof Runs_validatorsOf as Htable.
  rewrite Forall_forall in Htable. specialize (Htable _ Hlookup).
  unfold createCallExpressionParser.
  apply Runs_bind; [| intro; apply Runs_ret].
  apply Runs_runValidators. exact Htable.
Qed.

End WithParseArg.

Lemma Runs_parse fuel encoded T :
  Runs (parse colorFromString fuel encoded T).
Proof.
  revert encoded T. induction fuel as [| fuel IH]; intros encoded T; simpl.
  - apply Runs_lift.
  - destruct encoded; try apply Runs_lift.
    destruct (List.length items =? 0)%nat; [apply Runs_throw |].
    destruct (typeof (item items 0) =? "string"); [| apply Runs_lift].
    apply Runs_parseCallExpression. exact IH.
Qed.


(** The options that carry the default [d], if any. *)
Definition defaultOptions (d : option Value) : list (string * Value) :=
  match d with
  | Some v => [("default", v)]
  | None => []
  end.

(** From position [i] on, each entry is stored under the key of its path,
    type and default, and its slug is its path joined by underscores, an
    underscore and its position. *)
Fixpoint keyedFrom (i : nat) (l : Lookup PreAccessorInfo) : Prop :=
  match l with
  | [] => True
  | (key, info) :: rest =>
      key = keyForAccessor (path info) (type info)
              (defaultOptions (default info))
      /\ slug info = joinPath (path info) ++ "_" ++ decimal i
      /\ keyedFrom (S i) rest
  end.

(** A lookup as [withAccessorArgs] builds it: no key twice, and every
    entry under its key with its slug. *)
Definition wellKeyed (l : Lookup PreAccessorInfo) : Prop :=
  keyedFrom 0 l /\ NoDup (map fst l).

Definition slugs (l : Lookup PreAccessorInfo) : list string :=
  map (fun entry => slug (snd entry)) l.

Lemma keyedFrom_app i l1 l2 :
  keyedFrom i l1 -> keyedFrom (i + List.length l1) l2 ->
  keyedFrom i (l1 ++ l2)%list.
Proof.
  revert i. induction l1 as [| [key info] l1 IH]; intros i; simpl.
  - now rewrite Nat.add_0_r.
  - intros (Hkey & Hslug & Hrest) Hl2. repeat split; auto.
    apply IH; [assumption |].
    now replace (S i + List.length l1) with (i + S (List.length l1)) by lia.
Qed.

Lemma keyForAccessor_default accessorPath T options :
  keyForAccessor accessorPath T options
  = keyForAccessor accessorPath T
      (defaultOptions (lookupField "default" options)).
Proof.
  unfold keyForAccessor. now destruct (lookupField "default" options).
Qed.

Lemma register_wellKeyed encoded T l :
  wellKeyed l -> wellKeyed (register encoded T l).
Proof.
  intros [Hkeyed Hnodup].
  destruct (accessorOf encoded) as [[accessorPath options] | m | ] eqn:Hacc.
  - split; [| eapply register_NoDup; eassumption].
    destruct (lookup (keyForAccessor accessorPath T options) l)
      as [info |] eqn:Hlookup.
    + now rewrite (register_known _ _ _ Hacc Hlookup).
    + rewrite (register_new _ _ _ Hacc Hlookup).
      apply keyedFrom_app; [assumption |]. cbn [keyedFrom firstInfo].
      cbn [path type default slug].
      repeat split. apply keyForAccessor_default.
  - unfold register, withAccessorArgs. unfold accessorOf in Hacc.
    rewrite Hacc. now split.
  - unfold register, withAccessorArgs. unfold accessorOf in Hacc.
    rewrite Hacc. now split.
Qed.

Definition wellKeyedContext (c : ParsingContext) : Prop :=
  wellKeyed (properties c) /\ wellKeyed (variables c).

Lemma Reaches_wellKeyed c c' :
  Reaches c c' -> wellKeyedContext c -> wellKeyedContext c'.
Proof.
  intros H Hc. induction H as [| c' encoded T _ IH | c' encoded T _ IH
                              | c' encoded T _ IH | c' encoded T _ IH];
    try assumption; destruct IH as [Hp Hv]; split.
  - rewrite (proj1 (withGetArgs_properties encoded T c')).
    now apply register_wellKeyed.
  - now rewrite (proj2 (withGetArgs_properties encoded T c')).
  - now rewrite (proj2 (withVarArgs_variables encoded T c')).
  - rewrite (proj1 (withVarArgs_variables encoded T c')).
    now apply register_wellKeyed.
Qed.

(** *** The slugs of a lookup are distinct *)

Lemma decimal_chars n :
  forallb isNumberChar (list_ascii_of_string (decimal n)) = true.
Proof.
  unfold decimal, NilZero.string_of_uint.
  destruct (Nat.to_uint n); try reflexivity;
    cbn [NilEmpty.string_of_uint list_ascii_of_string forallb];
    (rewrite andb_true_iff; split; [reflexivity |]);
    match goal with
    | |- forallb _ (list_ascii_of_string (NilEmpty.string_of_uint ?d)) = _ =>
        induction d; simpl; auto
    end.
Qed.

Lemma to_uint_not_nil n : Nat.to_uint n <> Decimal.Nil.
Proof.
  intro H.
  assert (Hn : n = 0)
    by (rewrite <- (DecimalNat.Unsigned.of_to n), H; reflexivity).
  subst n. discriminate H.
Qed.

Lemma decimal_inj n m : decimal n = decimal m -> n = m.
Proof.
  unfold decimal. intro H.
  apply (f_equal NilZero.uint_of_string) in H.
  rewrite !NilZero.usu in H by apply to_uint_not_nil.
  inversion H as [Huint]. apply (f_equal Nat.of_uint) in Huint.
  now rewrite !DecimalNat.Unsigned.of_to in Huint.
Qed.

Lemma number_chars_no_underscore a b :
  forallb isNumberChar (list_ascii_of_string (a ++ String "_" b)) = true ->
  False.
Proof.
  induction a as [| c a IH]; simpl.
  - discriminate.
  - intro H. apply andb_prop in H. tauto.
Qed.

(** The text after the last underscore. *)
Lemma underscore_suffix p1 p2 d1 d2 :
  forallb isNumberChar (list_ascii_of_string d1) = true ->
  forallb isNumberChar (list_ascii_of_string d2) = true ->
  p1 ++ String "_" d1 = p2 ++ String "_" d2 -> d1 = d2.
Proof.
  intros Hd1 Hd2. revert p2.
  induction p1 as [| c1 p1 IH]; intros [| c2 p2]; simpl; intro H.
  - now inversion H.
  - inversion H; subst. exfalso.
    eapply number_chars_no_underscore. eassumption.
  - inversion H; subst. exfalso.
    eapply number_chars_no_underscore. eassumption.
  - inversion H. eauto.
Qed.

Lemma keyedFrom_slugs i l s :
  keyedFrom i l -> In s (slugs l) ->
  exists p j, i <= j /\ s = p ++ String "_" (decimal j).
Proof.
  revert i. induction l as [| [key info] l IH]; intros i; simpl; [tauto |].
  intros (_ & Hslug & Hrest) [<- | Hin].
  - eexists _, i. split; [lia | exact Hslug].
  - destruct (IH _ Hrest Hin) as (p & j & Hj & ->).
    exists p, j. split; [lia | reflexivity].
Qed.

Lemma keyedFrom_NoDup i l : keyedFrom i l -> NoDup (slugs l).
Proof.
  revert i. induction l as [| [key info] l IH]; intros i; simpl.
  - constructor.
  - intros (_ & Hslug & Hrest). constructor; [| eapply IH; eassumption].
    intro Hin. destruct (keyedFrom_slugs _ _ _ Hrest Hin) as (p & j & Hj & Hs).
    simpl in Hs. rewrite Hslug in Hs.
    apply underscore_suffix in Hs; try apply decimal_chars.
    apply decimal_inj in Hs. lia.
Qed.

(** X16. [parse] keeps the lookups well formed, whether it returns or
    throws: no key twice, every entry under the key of its own path, type
    and default, with the slug of its position; so the slugs of a lookup
    are distinct. *)
Theorem parse_keeps_lookups fuel encoded T c :
  wellKeyed (properties c) -> wellKeyed (variables c) ->
  let c' := fst (parse colorFromString fuel encoded T c) in
  wellKeyed (properties c') /\ wellKeyed (variables c')
  /\ NoDup (slugs (properties c')) /\ NoDup (slugs (variables c')).
Proof.
  intros Hp Hv c'.
  destruct (@Reaches_wellKeyed c c' (Runs_parse fuel encoded T c)
              (conj Hp Hv)) as [Hp' Hv'].
  repeat split; try apply Hp'; try apply Hv';
    eapply keyedFrom_NoDup; [apply Hp' | apply Hv'].
Qed.

End ReachFacts.


(** ** A property read and processed *)

Section Composition.
Context {N : JsNumber} {E : JsEngine}.
Variable colorFromString : string -> Value + string.

#[local] Abbreviation parse := (Expr.parse colorFromString).
#[local] Abbreviation parseLiteralExpression :=
  (Expr.parseLiteralExpression colorFromString).
#[local] Abbreviation processAccessorValues :=
  (Expr.processAccessorValues colorFromString).

(** X17. A property read and processed: the key that the [get] node
    carries is the key under which [processAccessorValues] stores, for
    values that have the property, the value at the path coerced to the
    declared type, with the slug of the first registration. *)
Theorem parse_get_then_process fuel args T c e values out :
  parse (S fuel) (VArr (VStr "get" :: args)) T newParsingContext
  = (c, Return e) ->
  processAccessorValues values (properties c) = Return out ->
  exists accessorPath options,
    accessorOf (VStr "get" :: args) = Return (accessorPath, options)
    /\ e = CallExpression T "get"
             [LiteralExpression StringType
                (VStr (keyForAccessor accessorPath T options))]
    /\ forall leaf,
         Present values accessorPath leaf ->
         exists literal,
           parseLiteralExpression leaf T = Return literal
           /\ lookup (keyForAccessor accessorPath T options) out
              = Some {| postValue := exprValue literal;
                        postType := T;
                        postSlug := joinPath accessorPath ++ "_0" |}.
Proof.
  intros H Hout.
  rewrite (@parse_call _ _ colorFromString fuel "get" _ args T eq_refl) in H.
  unfold createCallExpressionParser in H. cbn [runValidators] in H.
  apply bind_Return_inv in H. destruct H as (parsed & c1 & H & Hret).
  unfold ret in Hret. inversion Hret; subst; clear Hret.
  apply bind_Return_inv in H. destruct H as (r & c1 & Hcount & H).
  apply hasArgsCount_Return in Hcount. destruct Hcount as (-> & _ & _).
  apply bind_Return_inv in H. destruct H as (r' & c1 & H & Hret).
  unfold withGetArgs, withAccessorArgs in H.
  fold (accessorOf (VStr "get" :: args)) in H.
  destruct (accessorOf (VStr "get" :: args))
    as [[accessorPath options] | m | ] eqn:Hacc;
    cbn [properties newParsingContext lookup isSome] in H;
    inversion H; subst; clear H.
  unfold ret in Hret. inversion Hret; subst; clear Hret.
  exists accessorPath, options. repeat split.
  intros leaf Hpresent.
  cbn [properties] in Hout.
  unfold Expr.processAccessorValues in Hout.
  cbn [processAccessorValuesFrom] in Hout.
  unfold processAccessor in Hout. cbn [path type default] in Hout.
  rewrite (@walkPath_Present _ _ _ _ true Hpresent) in Hout.
  cbn [negb] in Hout.
  destruct (parseLiteralExpression leaf T) as [literal | m | ] eqn:Hliteral;
    try discriminate Hout.
  exists literal. split; [reflexivity |].
  cbn [app] in Hout. inversion Hout; subst.
  cbn [lookup]. rewrite String.eqb_refl. unfold postInfo.
  cbn [slug List.length]. 
  now rewrite (@parseLiteralExpression_type _ colorFromString _ _ _ Hliteral).
Qed.

(** ** The result of [parse] does not depend on the fuel *)

(** X18. [parse] terminates on every encoded expression: with any fuel
    above the nesting depth of the input the model gives one and the same
    result, which is a return or a throw. *)
Theorem parse_total encoded T c :
  exists result,
    snd result <> OutOfFuel
    /\ forall fuel, depth encoded < fuel -> parse fuel encoded T c = result.
Proof.
  exists (parse (S (depth encoded)) encoded T c). split.
  - apply parse_terminates. lia.
  - intros fuel Hfuel. apply parse_fuel_independent; lia.
Qed.

End Composition.



(** ** The number of arguments *)

Section Arity.
Context {N : JsNumber} {E : JsEngine}.
Variable colorFromString : string -> Value + string.

#[local] Abbreviation parse := (Expr.parse colorFromString).

Lemma hasArgsCount_Throw lo hi encoded T c :
  ~ within lo hi (List.length encoded - 1) ->
  exists message,
    hasArgsCount lo hi encoded T c = (c, Throw ("expected " ++ message)).
Proof.
  unfold hasArgsCount, within. intro Hcount.
  destruct hi as [hi |].
  - destruct (Nat.eqb_spec lo hi) as [-> | Hne].
    + destruct (Nat.eqb_spec (List.length encoded - 1) hi) as [Heq | _];
        [exfalso; apply Hcount; lia |].
      eexists. reflexivity.
    + destruct (Nat.ltb_spec (List.length encoded - 1) lo);
        destruct (Nat.ltb_spec hi (List.length encoded - 1));
        try (exfalso; apply Hcount; lia); eexists; reflexivity.
  - destruct (Nat.ltb_spec (List.length encoded - 1) lo);
      [| exfalso; apply Hcount; split; [lia | exact I]].
    eexists. reflexivity.
Qed.

Lemma runValidators_first_Throw v v' rest encoded T c c' message :
  v encoded T c = (c', Throw message) ->
  runValidators (v :: v' :: rest) encoded T c = (c', Throw message).
Proof.
  intro H.
  change (runValidators (v :: v' :: rest) encoded T)
    with (bind (v encoded T)
               (fun _ => runValidators (v' :: rest) encoded T)).
  unfold bind. now rewrite H.
Qed.

(** X19. A call whose number of arguments is outside the bounds of its
    operator throws a message that starts with [expected], before any
    argument is parsed: the context is left as it was. *)
Theorem parse_wrong_argument_count fuel operator lo hi v others rest T c :
  lookup operator (validatorsOf (parse fuel))
  = Some (hasArgsCount lo hi :: v :: others) ->
  ~ within lo hi (List.length rest) ->
  exists message,
    parse (S fuel) (VArr (VStr operator :: rest)) T c
    = (c, Throw ("expected " ++ message)).
Proof.
  intros Hlookup Hcount.
  rewrite (@parse_call _ _ colorFromString fuel operator _ rest T Hlookup).
  rewrite <- (length_rest (VStr operator) rest) in Hcount.
  destruct (@hasArgsCount_Throw lo hi (VStr operator :: rest) T c Hcount)
    as [message Hthrow].
  exists message. unfold createCallExpressionParser, bind.
  erewrite runValidators_first_Throw by eassumption. reflexivity.
Qed.

Lemma hasArgsCount_passes lo operator rest T c :
  lo <= List.length rest ->
  hasArgsCount lo Infinity (VStr operator :: rest) T c = (c, Return None).
Proof.
  intro Hlo. unfold hasArgsCount, Infinity. rewrite length_rest.
  destruct (Nat.ltb_spec (List.length rest) lo); [lia | reflexivity].
Qed.

(** X20. An operator that takes an odd number of arguments ([case])
    rejects a call with an even number of them, once the count is high
    enough, before it parses any argument: the context is left as it
    was. *)
Theorem parse_odd_count_expected fuel operator lo v rest T c :
  lookup operator (validatorsOf (parse fuel))
  = Some [hasArgsCount lo Infinity; hasOddArgs; v] ->
  lo <= List.length rest ->
  List.length rest mod 2 = 0 ->
  parse (S fuel) (VArr (VStr operator :: rest)) T c
  = (c, Throw ("expected an odd number of arguments for " ++ operator
               ++ ", got " ++ decimal (List.length rest) ++ " instead")).
Proof.
  intros Hlookup Hlo Hmod.
  rewrite (@parse_call _ _ colorFromString fuel operator _ rest T Hlookup).
  unfold createCallExpressionParser. cbn [runValidators].
  unfold bind at 1. unfold bind at 1.
  rewrite (@hasArgsCount_passes lo operator rest T c Hlo).
  unfold bind, hasOddArgs. rewrite length_rest, Hmod. reflexivity.
Qed.

(** X21. An operator that takes an even number of arguments
    ([interpolate], [match-number], [match-string]) rejects a call with an
    odd number of them, once the count is high enough, before it parses
    any argument: the context is left as it was. *)
Theorem parse_even_count_expected fuel operator lo v rest T c :
  lookup operator (validatorsOf (parse fuel))
  = Some [hasArgsCount lo Infinity; hasEvenArgs; v] ->
  lo <= List.length rest ->
  List.length rest mod 2 = 1 ->
  parse (S fuel) (VArr (VStr operator :: rest)) T c
  = (c, Throw ("expected an even number of arguments for operation "
               ++ operator ++ ", got " ++ decimal (List.length rest)
               ++ " instead")).
Proof.
  intros Hlookup Hlo Hmod.
  rewrite (@parse_call _ _ colorFromString fuel operator _ rest T Hlookup).
  unfold createCallExpressionParser. cbn [runValidators].
  unfold bind at 1. unfold bind at 1.
  rewrite (@hasArgsCount_passes lo operator rest T c Hlo).
  unfold bind, hasEvenArgs. rewrite length_rest, Hmod. reflexivity.
Qed.

End Arity.

(** ** The simplified geometry type *)

(** X22. [computeGeometryType] returns [Point], [LineString],
    [Polygon] or the empty string, whatever the type of the geometry and
    however deep its collections are nested. *)
Theorem computeGeometryType_range geometry :
  In (computeGeometryType geometry) ["Point"; "LineString"; "Polygon"; ""].
Proof.
  revert geometry. fix IH 1. intros [| type geometries]; cbn [computeGeometryType].
  - simpl. tauto.
  - destruct (String.eqb_spec type "Point") as [-> | _]; [simpl; tauto |].
    destruct (String.eqb_spec type "LineString") as [-> | _]; [simpl; tauto |].
    destruct (String.eqb_spec type "Polygon") as [-> | _]; [simpl; tauto |].
    destruct (String.eqb_spec type "MultiPoint") as [-> | _]; [simpl; tauto |].
    destruct (String.eqb_spec type "MultiLineString") as [-> | _];
      [simpl; tauto |].
    destruct (String.eqb_spec type "MultiPolygon") as [-> | _];
      [simpl; tauto |].
    cbn [orb].
    destruct (String.eqb_spec type "Circle") as [-> | _]; [simpl; tauto |].
    destruct (type =? "GeometryCollection"); [| simpl; tauto].
    destruct geometries as [| first others]; [simpl; tauto |].
    apply IH.
Qed.


(** ** The icon image cache *)

Section LookupFacts.
Context {A : Type}.
Import IconImageCache.

Lemma lookup_assign_same key (v : A) l :
  lookup key (assign key v l) = Some v.
Proof.
  induction l as [| [k a] l IH]; simpl.
  - now rewrite String.eqb_refl.
  - destruct (k =? key) eqn:Hk; simpl; now rewrite Hk.
Qed.

Lemma lookup_assign_other key k (v : A) l :
  k <> key -> lookup k (assign key v l) = lookup k l.
Proof.
  intro Hne. induction l as [| [k' a] l IH]; simpl.
  - apply not_eq_sym in Hne. apply String.eqb_neq in Hne. now rewrite Hne.
  - destruct (String.eqb_spec k' key) as [-> | Hk]; simpl.
    + apply not_eq_sym in Hne. apply String.eqb_neq in Hne. now rewrite Hne.
    + now rewrite IH.
Qed.

Lemma assign_known key (v : A) l :
  isSome (lookup key l) = true ->
  map fst (assign key v l) = map fst l.
Proof.
  induction l as [| [k a] l IH]; simpl; [discriminate |].
  destruct (k =? key); simpl; [reflexivity |]. intro H. now rewrite IH.
Qed.

Lemma assign_new key (v : A) l :
  lookup key l = None -> assign key v l = (l ++ [(key, v)])%list.
Proof.
  induction l as [| [k a] l IH]; simpl; [reflexivity |].
  destruct (k =? key); [discriminate |]. intro H. now rewrite IH.
Qed.

Lemma lookup_delete key k (l : Lookup A) :
  lookup k (delete key l) = if k =? key then None else lookup k l.
Proof.
  unfold delete. induction l as [| [k' a] l IH]; simpl.
  - now destruct (k =? key).
  - destruct (String.eqb_spec k' key) as [-> | Hk]; simpl.
    + rewrite IH. destruct (String.eqb_spec k key) as [-> | Hne].
      * reflexivity.
      * apply not_eq_sym in Hne. apply String.eqb_neq in Hne.
        now rewrite Hne.
    + rewrite IH. destruct (String.eqb_spec k' k) as [-> | Hne].
      * apply String.eqb_neq in Hk. now rewrite Hk.
      * reflexivity.
Qed.

Lemma delete_absent key (l : Lookup A) :
  ~ In key (map fst l) -> delete key l = l.
Proof.
  unfold delete. induction l as [| [k a] l IH]; simpl; [reflexivity |].
  intro H. destruct (String.eqb_spec k key) as [-> | Hk]; [tauto |].
  simpl. rewrite IH; tauto.
Qed.

Lemma delete_keys key (l : Lookup A) k :
  In k (map fst (delete key l)) -> In k (map fst l).
Proof.
  unfold delete. induction l as [| [k' a] l IH]; simpl; [tauto |].
  destruct (k' =? key); simpl; tauto.
Qed.

Lemma delete_NoDup key (l : Lookup A) :
  NoDup (map fst l) -> NoDup (map fst (delete key l)).
Proof.
  induction l as [| [k a] l IH]; simpl; [constructor |].
  intro H. inversion H as [| ? ? Hnotin Hrest]; subst.
  unfold delete. simpl. destruct (k =? key); simpl; [now apply IH |].
  constructor; [| now apply IH]. intro Hin. apply Hnotin.
  eapply delete_keys. exact Hin.
Qed.

Lemma delete_length key (l : Lookup A) a :
  NoDup (map fst l) -> lookup key l = Some a ->
  S (List.length (delete key l)) = List.length l.
Proof.
  induction l as [| [k a'] l IH]; simpl; [discriminate |].
  intro H. inversion H as [| ? ? Hnotin Hrest]; subst.
  unfold delete. simpl.
  destruct (String.eqb_spec k key) as [-> | Hk]; simpl.
  - intros _. fold (delete key l). now rewrite delete_absent.
  - intro Hl. f_equal. now apply IH.
Qed.

Lemma delete_length_le key (l : Lookup A) :
  List.length (delete key l) <= List.length l.
Proof. apply filter_length_le. Qed.

End LookupFacts.

Section IconImageCacheFacts.
Import IconImageCache.
Variables Icon Pattern : Type.
Variables isRegularShape hasListener isLoading : Icon -> bool.
Variable createPattern : Icon -> Pattern.

#[local] Abbreviation Cache := (IconImageCache.Cache Icon Pattern).
#[local] Abbreviation expireKeys :=
  (IconImageCache.expireKeys isRegularShape hasListener).
#[local] Abbreviation expire := (IconImageCache.expire isRegularShape hasListener).
#[local] Abbreviation setSize :=
  (IconImageCache.setSize isRegularShape hasListener).
#[local] Abbreviation setIcon := (IconImageCache.set isLoading createPattern).

(** The counter counts the entries, and no key is there twice. *)
Definition Counted (s : Cache) : Prop :=
  NoDup (map fst (cache_ s))
  /\ cacheSize_ s = Z.of_nat (List.length (cache_ s)).

Lemma Counted_assign key icon patterns (s : Cache) :
  Counted s ->
  Counted {| cache_ := assign key icon (cache_ s);
             patternCache_ := patterns;
             cacheSize_ := if isSome (lookup key (cache_ s))
                           then cacheSize_ s else (cacheSize_ s + 1)%Z;
             maxCacheSize_ := maxCacheSize_ s |}.
Proof.
  intros [Hnodup Hsize]. unfold Counted. cbn [cache_ cacheSize_].
  destruct (lookup key (cache_ s)) as [old |] eqn:Hlookup; cbn [isSome].
  - assert (Hkeys : map fst (assign key icon (cache_ s))
                    = map fst (cache_ s))
      by (apply assign_known; now rewrite Hlookup).
    split; [now rewrite Hkeys |].
    rewrite Hsize, <- (length_map fst (assign _ _ _)), Hkeys.
    now rewrite length_map.
  - rewrite (@assign_new _ key icon _ Hlookup). split.
    + rewrite map_app. simpl.
      apply NoDup_app; [assumption | repeat constructor; simpl; tauto |].
      intros k Hin [<- | []]. apply lookup_None_keys in Hlookup. tauto.
    + rewrite length_app, Hsize. simpl. lia.
Qed.

Lemma Counted_expireKeys keys : forall i (s : Cache),
  Counted s -> Counted (fst (expireKeys keys i s)).
Proof.
  induction keys as [| key keys IH]; intros i s Hs; simpl; [assumption |].
  destruct (lookup key (cache_ s)) as [icon |] eqn:Hlookup; [| now apply IH].
  destruct (Nat.land i 3 =? 0)%nat; [| now apply IH].
  destruct icon as [icon |]; [| assumption].
  destruct (isRegularShape icon || negb (hasListener icon)); [| now apply IH].
  apply IH. destruct Hs as [Hnodup Hsize]. split; cbn [cache_ cacheSize_].
  - now apply delete_NoDup.
  - rewrite Hsize, <- (@delete_length _ key _ _ Hnodup Hlookup). lia.
Qed.

Lemma Counted_expire (s : Cache) : Counted s -> Counted (fst (expire s)).
Proof.
  intro Hs. unfold IconImageCache.expire.
  destruct (negb (canExpireCache s)); [assumption |].
  now apply Counted_expireKeys.
Qed.

(** X23. The counter of the cache counts its entries: it does in a new
    cache, and when it does it still does after [clear], after a [set]
    that returns, after [expire] and after [setSize]. *)
Theorem cache_counted (s : Cache) :
  Counted s ->
  Counted (create Icon Pattern)
  /\ Counted (clear s)
  /\ (forall src crossOrigin color icon pattern s',
        setIcon src crossOrigin color icon pattern s = (s', Return tt) ->
        Counted s')
  /\ Counted (fst (expire s))
  /\ (forall maxCacheSize, Counted (fst (setSize maxCacheSize s))).
Proof.
  intro Hs. split; [| split; [| split; [| split]]].
  - split; [constructor | reflexivity].
  - split; [constructor | reflexivity].
  - intros src crossOrigin color icon pattern s' H.
    unfold IconImageCache.set in H.
    destruct pattern;
      [destruct icon as [icon |]; [destruct (isLoading icon) |] |];
      inversion H; subst; now apply Counted_assign.
  - now apply Counted_expire.
  - intro maxCacheSize. unfold IconImageCache.setSize.
    apply Counted_expire. exact Hs.
Qed.


(** The cache after [set], whether it returns or throws. *)
Lemma set_cache src crossOrigin color icon pattern (s : Cache) :
  cache_ (fst (setIcon src crossOrigin color icon pattern s))
  = assign (getIconKey src crossOrigin color) icon (cache_ s).
Proof.
  unfold IconImageCache.set.
  destruct pattern;
    [destruct icon as [icon |]; [destruct (isLoading icon) |] |];
    reflexivity.
Qed.

(** X24. After [set], [get] gives the icon stored under the key of its
    source, cross origin and colour, and what it gave before under any
    other key. *)
Theorem set_then_get src crossOrigin color icon pattern (s : Cache) :
  let s' := fst (setIcon src crossOrigin color icon pattern s) in
  IconImageCache.get (getIconKey src crossOrigin color) s' = icon
  /\ forall key,
       key <> getIconKey src crossOrigin color ->
       IconImageCache.get key s' = IconImageCache.get key s.
Proof.
  intro s'. unfold IconImageCache.get. subst s'. rewrite set_cache. split.
  - now rewrite lookup_assign_same.
  - intros key Hkey. now rewrite lookup_assign_other.
Qed.

Lemma expireKeys_lookup keys : forall i (s : Cache) key,
  (forall v, lookup key (cache_ (fst (expireKeys keys i s))) = Some v ->
             lookup key (cache_ s) = Some v)
  /\ (forall icon,
        lookup key (cache_ s) = Some (Some icon) ->
        isRegularShape icon = false -> hasListener icon = true ->
        lookup key (cache_ (fst (expireKeys keys i s))) = Some (Some icon)).
Proof.
  induction keys as [| k keys IH]; intros i s key; simpl; [auto |].
  destruct (lookup k (cache_ s)) as [icon |] eqn:Hlookup; [| apply IH].
  destruct (Nat.land i 3 =? 0)%nat; [| apply IH].
  destruct icon as [icon |]; [| auto].
  destruct (isRegularShape icon || negb (hasListener icon)) eqn:Hevict;
    [| apply IH].
  match goal with
  | |- context [expireKeys keys (i + 1) ?s1] =>
      destruct (IH (i + 1) s1 key) as [Hkept Hlistened]
  end.
  cbn [cache_] in Hkept, Hlistened. rewrite lookup_delete in Hlistened.
  split.
  - intros v Hv. apply Hkept in Hv. rewrite lookup_delete in Hv.
    destruct (key =? k); [discriminate | exact Hv].
  - intros icon' Hicon Hshape Hlistener. apply Hlistened; try assumption.
    destruct (String.eqb_spec key k) as [-> | _]; [| exact Hicon].
    rewrite Hlookup in Hicon. inversion Hicon; subst.
    rewrite Hshape, Hlistener in Hevict. discriminate Hevict.
Qed.

(** X25. [expire] only evicts: an entry that is there after it was there
    before; an icon that has a listener and is not a [RegularShape] stays;
    and a cache that is not above its maximum is left as it is. *)
Theorem expire_only_evicts (s : Cache) key :
  (forall v, lookup key (cache_ (fst (expire s))) = Some v ->
             lookup key (cache_ s) = Some v)
  /\ (forall icon,
        lookup key (cache_ s) = Some (Some icon) ->
        isRegularShape icon = false -> hasListener icon = true ->
        lookup key (cache_ (fst (expire s))) = Some (Some icon))
  /\ ((cacheSize_ s <= maxCacheSize_ s)%Z -> expire s = (s, Return tt)).
Proof.
  unfold IconImageCache.expire, canExpireCache.
  destruct (Z.ltb_spec (maxCacheSize_ s) (cacheSize_ s)); cbn [negb].
  - destruct (expireKeys_lookup (map fst (cache_ s)) 0 s key) as [H1 H2].
    repeat split; auto. lia.
  - repeat split; auto.
Qed.

(** How many of the indices from [i] on are visited with a counter that
    is a multiple of four. *)
Lemma expireKeys_length keys : forall i (s : Cache),
  NoDup (map fst (cache_ s)) ->
  List.length (cache_ s) + (i + 3) / 4
  <= List.length (cache_ (fst (expireKeys keys i s)))
     + (i + List.length keys + 3) / 4.
Proof.
  induction keys as [| k keys IH]; intros i s Hnodup;
    cbn [IconImageCache.expireKeys List.length fst].
  - rewrite Nat.add_0_r. lia.
  - assert (Hmono : (i + List.length keys + 3) / 4
                    <= (i + S (List.length keys) + 3) / 4)
      by (apply Nat.Div0.div_le_mono; lia).
    assert (Hnext : forall s1 : Cache,
               NoDup (map fst (cache_ s1)) ->
               List.length (cache_ s1) + (i + 1 + 3) / 4
               <= List.length (cache_ (fst (expireKeys keys (i + 1) s1)))
                  + (i + S (List.length keys) + 3) / 4).
    { intros s1 H1. specialize (IH (i + 1) s1 H1).
      now replace (i + 1 + List.length keys) with (i + S (List.length keys))
        in IH by lia. }
    assert (Hstep : (i + 3) / 4 <= (i + 1 + 3) / 4)
      by (apply Nat.Div0.div_le_mono; lia).
    assert (Hall : (i + 3) / 4 <= (i + S (List.length keys) + 3) / 4)
      by (apply Nat.Div0.div_le_mono; lia).
    destruct (lookup k (cache_ s)) as [icon |] eqn:Hlookup;
      [| specialize (IH i s Hnodup); lia].
    destruct (Nat.eqb_spec (Nat.land i 3) 0) as [Hland | _]; cbv iota;
      [| specialize (Hnext s Hnodup); lia].
    destruct icon as [icon |]; [| cbn [fst]; lia].
    destruct (isRegularShape icon || negb (hasListener icon)); cbv iota;
      [| specialize (Hnext s Hnodup); lia].
    match goal with
    | |- context [expireKeys keys (i + 1) ?s1] =>
        specialize (Hnext s1 (@delete_NoDup _ k _ Hnodup))
    end.
    cbn [cache_] in Hnext.
    pose proof (@delete_length _ k _ _ Hnodup Hlookup) as Hlen.
    change 3 with (Nat.ones 2) in Hland. rewrite Nat.land_ones in Hland.
    change (2 ^ 2) with 4 in Hland.
    assert (Hfour : (i + 1 + 3) / 4 = S ((i + 3) / 4)).
    { pose proof (Nat.div_mod_eq i 4) as Hi. rewrite Hland in Hi.
      rewrite Nat.add_0_r in Hi. rewrite Hi.
      replace (4 * (i / 4) + 1 + 3) with ((1 + i / 4) * 4) by lia.
      replace (4 * (i / 4) + 3) with (3 + (i / 4) * 4) by lia.
      rewrite Nat.div_mul by lia. rewrite Nat.div_add by lia.
      reflexivity. }
    lia.
Qed.

(** X26. [expire] evicts at most one entry in four, the first of each
    four: it can leave the cache above its maximum. *)
Theorem expire_at_most_a_quarter (s : Cache) :
  NoDup (map fst (cache_ s)) ->
  List.length (cache_ s)
  <= List.length (cache_ (fst (expire s)))
     + (List.length (cache_ s) + 3) / 4.
Proof.
  intro Hnodup. unfold IconImageCache.expire.
  destruct (negb (canExpireCache s)); [simpl; lia |].
  pose proof (expireKeys_length (map fst (cache_ s)) 0 s Hnodup) as H.
  rewrite length_map in H. change ((0 + 3) / 4) with 0 in H.
  change (0 + List.length (cache_ s)) with (List.length (cache_ s)) in H.
  lia.
Qed.

(** X27. A [set] that asks for the pattern of no icon throws after it has
    stored the entry and before it counts it: under a new key the cache
    then holds one entry more than its counter says. *)
Theorem set_null_pattern_uncounted src crossOrigin color (s : Cache) :
  Counted s ->
  lookup (getIconKey src crossOrigin color) (cache_ s) = None ->
  let result := setIcon src crossOrigin color None true s in
  snd result
  = Throw "Cannot read properties of null (reading 'getImageState')"
  /\ cache_ (fst result)
     = (cache_ s ++ [(getIconKey src crossOrigin color, None)])%list
  /\ Z.of_nat (List.length (cache_ (fst result)))
     = (cacheSize_ (fst result) + 1)%Z.
Proof.
  intros [_ Hsize] Hnew result. subst result.
  unfold IconImageCache.set. cbn [fst snd cache_ cacheSize_].
  rewrite (@assign_new _ _ None _ Hnew), length_app, Hsize. simpl.
  repeat split. lia.
Qed.

End IconImageCacheFacts.

Section IconKeyFacts.
Import IconImageCache.

(** The text has no colon. *)
Definition noColon (s : string) : bool :=
  forallb (fun c => negb (c =? ":")%char) (list_ascii_of_string s).

Lemma colon_in a b : noColon (a ++ String ":" b) = false.
Proof.
  unfold noColon. induction a as [| c a IH]; simpl.
  - reflexivity.
  - rewrite IH. apply andb_false_r.
Qed.

(** The text before and the text after the last colon. *)
Lemma last_colon p1 p2 d1 d2 :
  noColon d1 = true -> noColon d2 = true ->
  p1 ++ String ":" d1 = p2 ++ String ":" d2 -> p1 = p2 /\ d1 = d2.
Proof.
  intros Hd1 Hd2. revert p2.
  induction p1 as [| c1 p1 IH]; intros [| c2 p2]; simpl; intro H.
  - inversion H. auto.
  - inversion H; subst. now rewrite colon_in in Hd1.
  - inversion H; subst. now rewrite colon_in in Hd2.
  - inversion H; subst.
    match goal with
    | Heq : p1 ++ _ = p2 ++ _ |- _ =>
        destruct (IH _ Heq) as [-> ->]
    end.
    auto.
Qed.

(** X28. When no cross origin and no colour has a colon, the key
    determines the source, the text of the cross origin and the text of
    the colour (a cross origin or a colour that is [null] has the text of
    the string [null]). *)
Theorem getIconKey_inj src1 crossOrigin1 color1 src2 crossOrigin2 color2 :
  noColon (text crossOrigin1) = true -> noColon (text crossOrigin2) = true ->
  noColon (text color1) = true -> noColon (text color2) = true ->
  getIconKey src1 crossOrigin1 color1 = getIconKey src2 crossOrigin2 color2 ->
  src1 = src2 /\ text crossOrigin1 = text crossOrigin2
  /\ text color1 = text color2.
Proof.
  unfold getIconKey. intros Ho1 Ho2 Hc1 Hc2 H.
  change (src1 ++ ":" ++ text crossOrigin1 ++ ":" ++ text color1)
    with (src1 ++ String ":" (text crossOrigin1 ++ String ":" (text color1)))
    in H.
  change (src2 ++ ":" ++ text crossOrigin2 ++ ":" ++ text color2)
    with (src2 ++ String ":" (text crossOrigin2 ++ String ":" (text color2)))
    in H.
  change (String ":" (text crossOrigin1 ++ String ":" (text color1)))
    with ((String ":" (text crossOrigin1)) ++ String ":" (text color1)) in H.
  change (String ":" (text crossOrigin2 ++ String ":" (text color2)))
    with ((String ":" (text crossOrigin2)) ++ String ":" (text color2)) in H.
  rewrite <- !append_assoc in H.
  apply last_colon in H; try assumption. destruct H as [H ->].
  apply last_colon in H; try assumption. destruct H as [-> ->]. auto.
Qed.

End IconKeyFacts.

(** ** Nothing is rolled back

    A call parses its sub-expressions one after the other, each from the
    context that the one before left.  When one of them throws, the call
    throws and leaves the context that this sub-expression left: what
    the sub-expressions parsed before it registered is still there. *)

Section OrderFacts.
Context {N : JsNumber} {E : JsEngine}.

(** A sub-expression that a call parses: the encoded value and the type
    it is parsed for. *)
Definition Step : Type := (Value * PassedType)%type.

(** The sub-expressions that a [for] loop parses: [count] iterations from
    [start] by [step], the iteration [i] parsing [stepsAt i]. *)
Fixpoint loopSteps (count start step : nat) (stepsAt : nat -> list Step)
  : list Step :=
  match count with
  | 0 => []
  | S count' =>
      (stepsAt start ++ loopSteps count' (start + step) step stepsAt)%list
  end.

(** The type of the result [i] among those parsed so far. *)
Definition typeAt (i : nat) (parsed : list Expression) : PassedType :=
  exprType (nth i parsed (NotExpression VUndefined)).

(** The check lets the call through. *)
Definition accepts (check : ArgValidator) (encoded : list Value)
    (T : PassedType) : Prop :=
  forall c, check encoded T c = (c, Return None).

Section Chains.
Variable parseArg : Value -> PassedType -> Ctx Expression.

(** [Parsed steps c parsed c']: the sub-expressions [steps] are parsed in
    turn from [c], each from the context that the one before left; every
    one returns, with the results [parsed], and the last one leaves
    [c']. *)
Inductive Parsed
  : list Step -> ParsingContext -> list Expression -> ParsingContext -> Prop :=
| Parsed_nil c : Parsed [] c [] c
| Parsed_cons x A steps c c1 e parsed c2 :
    parseArg x A c = (c1, Return e) ->
    Parsed steps c1 parsed c2 ->
    Parsed ((x, A) :: steps) c (e :: parsed) c2.

Lemma Parsed_app_inv steps1 steps2 c parsed c' :
  Parsed (steps1 ++ steps2) c parsed c' ->
  exists parsed1 parsed2 c1,
    parsed = (parsed1 ++ parsed2)%list
    /\ Parsed steps1 c parsed1 c1 /\ Parsed steps2 c1 parsed2 c'.
Proof.
  revert c parsed.
  induction steps1 as [| [x A] steps1 IH]; intros c parsed H; simpl in H.
  - exists [], parsed, c. repeat split; [constructor | assumption].
  - inversion H as [| ? ? ? ? c1 e rest ? Hparse Hrest]; subst.
    apply IH in Hrest.
    destruct Hrest as (parsed1 & parsed2 & c2 & -> & H1 & H2).
    exists (e :: parsed1), parsed2, c2.
    repeat split; [econstructor; eassumption | assumption].
Qed.

(** What is put around the parse of a sub-expression, nothing or a
    [try ... catch] that throws again: it keeps what returns and the
    context, and it throws when the parse throws. *)
Definition Wraps (wrap : Ctx Expression -> Ctx Expression) : Prop :=
  forall m c,
    (forall c' e, m c = (c', Return e) -> wrap m c = (c', Return e))
    /\ (forall c' message, m c = (c', Throw message) ->
        exists message', wrap m c = (c', Throw message')).

Lemma Wraps_none : Wraps (fun m => m).
Proof. intros m c. split; eauto. Qed.

Lemma Wraps_rethrow prefix : Wraps (rethrow prefix).
Proof.
  intros m c. unfold rethrow. split.
  - intros c' e ->. reflexivity.
  - intros c' message ->. eauto.
Qed.

(** The computation [body acc] parses [steps] and returns [acc] with
    their results after it, when they are accepted; it throws where the
    first of them throws. *)
Definition Takes (steps : list Step) (accept : list Expression -> bool)
    (body : list Expression -> Ctx (list Expression)) : Prop :=
  (forall acc c parsed c',
     Parsed steps c parsed c' -> accept parsed = true ->
     body acc c = (c', Return (acc ++ parsed)%list))
  /\ (forall acc done x A later c parsed cb ca message,
        steps = (done ++ (x, A) :: later)%list ->
        Parsed done c parsed cb -> accept parsed = true ->
        parseArg x A cb = (ca, Throw message) ->
        exists message', body acc c = (ca, Throw message')).

(** The computation [m] throws where the first of the sub-expressions
    [steps] throws, those before it having been parsed and accepted. *)
Definition Throws {B : Type} (steps : list Expression -> list Step)
    (accept : list Expression -> bool) (m : Ctx B) : Prop :=
  forall done x A later c parsed cb ca message,
    steps parsed = (done ++ (x, A) :: later)%list ->
    Parsed done c parsed cb -> accept parsed = true ->
    parseArg x A cb = (ca, Throw message) ->
    exists message', m c = (ca, Throw message').

Definition allAccepted (parsed : list Expression) : bool := true.

Lemma Takes_one wrap x A :
  Wraps wrap ->
  Takes [(x, A)] allAccepted
    (fun acc => e <- wrap (parseArg x A) ;; ret (acc ++ [e])%list).
Proof.
  intro Hwrap. split.
  - intros acc c parsed c' H _.
    inversion H as [| ? ? ? ? c1 e rest ? Hparse Hrest]; subst.
    inversion Hrest; subst.
    unfold bind. now rewrite (proj1 (Hwrap _ _) _ _ Hparse).
  - intros acc done x' A' later c parsed cb ca message Hsteps Hdone _ Hthrow.
    destruct done as [| step done]; simpl in Hsteps.
    + inversion Hsteps; subst. inversion Hdone; subst.
      destruct (proj2 (Hwrap _ _) _ _ Hthrow) as [message' Hw].
      exists message'. unfold bind. now rewrite Hw.
    + inversion Hsteps as [[Hstep Hnil]]. now destruct done.
Qed.

Lemma Takes_two wrap1 wrap2 x A y B :
  Wraps wrap1 -> Wraps wrap2 ->
  Takes [(x, A); (y, B)] allAccepted
    (fun acc =>
       a <- wrap1 (parseArg x A) ;;
       b <- wrap2 (parseArg y B) ;;
       ret (acc ++ [a; b])%list).
Proof.
  intros Hwrap1 Hwrap2. split.
  - intros acc c parsed c' H _.
    inversion H as [| ? ? ? ? c1 a rest ? Hx Hrest]; subst.
    inversion Hrest as [| ? ? ? ? c2 b rest' ? Hy Hrest']; subst.
    inversion Hrest'; subst.
    unfold bind. rewrite (proj1 (Hwrap1 _ _) _ _ Hx).
    now rewrite (proj1 (Hwrap2 _ _) _ _ Hy).
  - intros acc done x' A' later c parsed cb ca message Hsteps Hdone _ Hthrow.
    destruct done as [| step1 done]; simpl in Hsteps.
    + inversion Hsteps; subst. inversion Hdone; subst.
      destruct (proj2 (Hwrap1 _ _) _ _ Hthrow) as [message' Hw].
      exists message'. unfold bind. now rewrite Hw.
    + inversion Hsteps as [[Hstep1 Hrest]]. subst step1.
      inversion Hdone as [| ? ? ? ? c1 a rest ? Hx Hdone']; subst.
      destruct done as [| step2 done]; simpl in Hrest.
      * inversion Hrest; subst. inversion Hdone'; subst.
        destruct (proj2 (Hwrap2 _ _) _ _ Hthrow) as [message' Hw].
        exists message'. unfold bind.
        rewrite (proj1 (Hwrap1 _ _) _ _ Hx). now rewrite Hw.
      * inversion Hrest as [[Hstep2 Hnil]]. now destruct done.
Qed.

Lemma Takes_literal wrap x A rejected :
  Wraps wrap ->
  Takes [(x, A)] (forallb isLiteral)
    (fun acc =>
       color <- wrap (parseArg x A) ;;
       if negb (isLiteral color) then throw rejected
       else ret (acc ++ [color])%list).
Proof.
  intro Hwrap. split.
  - intros acc c parsed c' H Haccept.
    inversion H as [| ? ? ? ? c1 e rest ? Hparse Hrest]; subst.
    inversion Hrest; subst.
    simpl in Haccept. apply andb_prop in Haccept.
    destruct Haccept as [Hliteral _].
    unfold bind. rewrite (proj1 (Hwrap _ _) _ _ Hparse).
    now rewrite Hliteral.
  - intros acc done x' A' later c parsed cb ca message Hsteps Hdone _ Hthrow.
    destruct done as [| step done]; simpl in Hsteps.
    + inversion Hsteps; subst. inversion Hdone; subst.
      destruct (proj2 (Hwrap _ _) _ _ Hthrow) as [message' Hw].
      exists message'. unfold bind. now rewrite Hw.
    + inversion Hsteps as [[Hstep Hnil]]. now destruct done.
Qed.

(** A loop whose body takes the steps of each iteration takes the steps
    of the loop. *)
Lemma Takes_forLoop stepsAt accept
    (body : nat -> list Expression -> Ctx (list Expression)) step :
  (forall i, Takes (stepsAt i) accept (body i)) ->
  accept [] = true ->
  (forall parsed1 parsed2,
     accept (parsed1 ++ parsed2)%list = accept parsed1 && accept parsed2) ->
  forall count start,
    Takes (loopSteps count start step stepsAt) accept
      (fun acc => forLoop count start step body acc).
Proof.
  intros Hbody Hnil Happ.
  induction count as [| count IH]; intro start; split.
  - intros acc c parsed c' H _. inversion H; subst. simpl.
    unfold ret. now rewrite app_nil_r.
  - intros acc done x A later c parsed cb ca message Hsteps.
    simpl in Hsteps. now destruct done.
  - intros acc c parsed c' H Haccept. cbn [loopSteps] in H.
    apply Parsed_app_inv in H.
    destruct H as (parsed1 & parsed2 & c1 & -> & H1 & H2).
    rewrite Happ in Haccept. apply andb_prop in Haccept.
    destruct Haccept as [Haccept1 Haccept2].
    cbn [forLoop]. unfold bind.
    rewrite (proj1 (Hbody start) acc c parsed1 c1 H1 Haccept1).
    rewrite (proj1 (IH (start + step)) _ _ _ _ H2 Haccept2).
    now rewrite app_assoc.
  - intros acc done x A later c parsed cb ca message Hsteps Hdone Haccept
      Hthrow.
    cbn [loopSteps] in Hsteps. cbn [forLoop].
    apply app_eq_app in Hsteps.
    destruct Hsteps as (l & [[Hfirst Hrest] | [Hfirst Hrest]]).
    + (* the iteration at [start] holds the one that throws *)
      destruct l as [| step1 l].
      * rewrite app_nil_r in Hfirst. simpl in Hrest. subst done.
        rewrite <- (app_nil_r parsed) in Haccept.
        destruct (proj2 (IH (start + step)) (acc ++ parsed)%list
                    [] x A later cb [] cb ca message
                    (eq_sym Hrest) (Parsed_nil cb) Hnil Hthrow)
          as [message' Hloop].
        exists message'. unfold bind.
        rewrite app_nil_r in Haccept.
        rewrite (proj1 (Hbody start) acc c parsed cb Hdone Haccept).
        exact Hloop.
      * simpl in Hrest. inversion Hrest; subst.
        destruct (proj2 (Hbody start) acc done x A l c parsed cb ca message
                    Hfirst Hdone Haccept Hthrow) as [message' Hb].
        exists message'. unfold bind. now rewrite Hb.
    + (* it is in a later iteration *)
      subst done. apply Parsed_app_inv in Hdone.
      destruct Hdone as (parsed1 & parsed2 & c1 & -> & H1 & H2).
      rewrite Happ in Haccept. apply andb_prop in Haccept.
      destruct Haccept as [Haccept1 Haccept2].
      destruct (proj2 (IH (start + step)) (acc ++ parsed1)%list
                  l x A later c1 parsed2 cb ca message
                  Hrest H2 Haccept2 Hthrow) as [message' Hloop].
      exists message'. unfold bind.
      rewrite (proj1 (Hbody start) acc c parsed1 c1 H1 Haccept1).
      exact Hloop.
Qed.

Lemma Throws_ext {B : Type} steps accept (m m' : Ctx B) :
  (forall c, m c = m' c) -> Throws steps accept m -> Throws steps accept m'.
Proof.
  intros Hext Hm done x A later c parsed cb ca message Hsteps Hdone Haccept
    Hthrow.
  rewrite <- Hext. eapply Hm; eassumption.
Qed.

Lemma Throws_nil {B : Type} accept (m : Ctx B) : Throws (fun _ => []) accept m.
Proof.
  intros done x A later c parsed cb ca message Hsteps. now destruct done.
Qed.

(** A sub-expression parsed first, and then what follows it. *)
Lemma Throws_first {B : Type} wrap x A steps accept (k : Expression -> Ctx B) :
  Wraps wrap ->
  (forall e, Throws (fun parsed => steps (e :: parsed))
                    (fun parsed => accept (e :: parsed)) (k e)) ->
  Throws (fun parsed => (x, A) :: steps parsed) accept
    (bind (wrap (parseArg x A)) k).
Proof.
  intros Hwrap Hk done x' A' later c parsed cb ca message Hsteps Hdone
    Haccept Hthrow.
  destruct done as [| step done]; simpl in Hsteps.
  - inversion Hsteps; subst. inversion Hdone; subst.
    destruct (proj2 (Hwrap _ _) _ _ Hthrow) as [message' Hw].
    exists message'. unfold bind. now rewrite Hw.
  - inversion Hsteps as [[Hstep Hrest]]. subst step.
    inversion Hdone as [| ? ? ? ? c1 e rest ? Hx Hdone']; subst.
    destruct (Hk e done x' A' later c1 rest cb ca message
                Hrest Hdone' Haccept Hthrow) as [message' Hm].
    exists message'. unfold bind.
    now rewrite (proj1 (Hwrap _ _) _ _ Hx).
Qed.

(** A loop, and what follows it. *)
Lemma Throws_forLoop {B : Type} stepsAt accept
    (body : nat -> list Expression -> Ctx (list Expression))
    count start step acc (k : list Expression -> Ctx B) :
  (forall i, Takes (stepsAt i) accept (body i)) ->
  accept [] = true ->
  (forall parsed1 parsed2,
     accept (parsed1 ++ parsed2)%list = accept parsed1 && accept parsed2) ->
  Throws (fun _ => loopSteps count start step stepsAt) accept
    (bind (forLoop count start step body acc) k).
Proof.
  intros Hbody Hnil Happ done x A later c parsed cb ca message Hsteps Hdone
    Haccept Hthrow.
  destruct (proj2 (@Takes_forLoop stepsAt accept body step Hbody Hnil Happ
                     count start)
              acc done x A later c parsed cb ca message
              Hsteps Hdone Haccept Hthrow) as [message' Hloop].
  exists message'. unfold bind. now rewrite Hloop.
Qed.

(** A loop, then one more sub-expression. *)
Lemma Throws_forLoop_then {B : Type} stepsAt
    (body : nat -> list Expression -> Ctx (list Expression))
    count start step acc x A (k : list Expression -> Ctx B) :
  (forall i, Takes (stepsAt i) allAccepted (body i)) ->
  (forall out, Throws (fun _ => [(x, A)]) allAccepted (k out)) ->
  Throws (fun _ => (loopSteps count start step stepsAt ++ [(x, A)])%list)
    allAccepted (bind (forLoop count start step body acc) k).
Proof.
  intros Hbody Hk done x' A' later c parsed cb ca message Hsteps Hdone
    Haccept Hthrow.
  pose proof (@Takes_forLoop stepsAt allAccepted body step Hbody eq_refl
                (fun _ _ => eq_refl) count start) as [Hreturn Hfail].
  assert (Hlast : done = loopSteps count start step stepsAt ->
                  (x', A') = (x, A) ->
                  exists message',
                    bind (forLoop count start step body acc) k c
                    = (ca, Throw message')).
  { intros -> Heq. inversion Heq; subst.
    destruct (Hk (acc ++ parsed)%list [] x A [] cb [] cb ca message
                eq_refl (Parsed_nil cb) eq_refl Hthrow) as [message' Hm].
    exists message'. unfold bind.
    now rewrite (Hreturn acc c parsed cb Hdone eq_refl). }
  apply app_eq_app in Hsteps.
  destruct Hsteps as (l & [[Hloop Hrest] | [Hloop Hrest]]).
  - destruct l as [| step1 l].
    + rewrite app_nil_r in Hloop. simpl in Hrest.
      apply Hlast; [now symmetry | now inversion Hrest].
    + simpl in Hrest. inversion Hrest; subst.
      destruct (Hfail acc done x' A' l c parsed cb ca message
                  Hloop Hdone eq_refl Hthrow) as [message' Hm].
      exists message'. unfold bind. now rewrite Hm.
  - destruct l as [| step1 l].
    + rewrite app_nil_r in Hloop. simpl in Hrest.
      apply Hlast; [assumption | now inversion Hrest].
    + simpl in Hrest. inversion Hrest as [[Hstep Hnil]].
      now destruct l.
Qed.

(** *** The validators that parse arguments *)

Lemma Throws_withArgsOfType (A : ValueType) encoded T :
  Throws
    (fun _ => loopSteps (List.length encoded - 1) 0 1
                (fun i => [(item encoded (i + 1), Declared A)]))
    allAccepted (withArgsOfType parseArg A encoded T).
Proof.
  unfold withArgsOfType. apply Throws_forLoop; auto.
  intro i. apply (@Takes_one (fun m => m)). exact Wraps_none.
Qed.

Lemma Throws_withMatchArgs (inputType : ValueType) encoded T :
  Throws
    (fun parsed =>
       (item encoded 1, Declared inputType)
       :: (item encoded (List.length encoded - 1), T)
       :: loopSteps (pairsBelow (List.length encoded - 1 - 2)) 0 2
            (fun i => [(item encoded (i + 2), typeAt 0 parsed);
                       (item encoded (i + 3), typeAt 1 parsed)]))
    allAccepted (withMatchArgs parseArg inputType encoded T).
Proof.
  unfold withMatchArgs.
  apply (@Throws_first _ (fun m => m)); [exact Wraps_none |].
  intro input.
  apply (@Throws_first _ (fun m => m)); [exact Wraps_none |].
  intro fallback. unfold typeAt. cbn [nth].
  apply Throws_forLoop; auto.
  intro i. apply (@Takes_two (rethrow _) (rethrow _)); apply Wraps_rethrow.
Qed.

Lemma Throws_withInterpolateArgs encoded T base :
  interpolationBase (item encoded 1) = Return base ->
  Throws
    (fun _ =>
       (item encoded 2, Declared NumberType)
       :: loopSteps (pairsBelow (List.length encoded - 3)) 0 2
            (fun i => [(item encoded (i + 3), Declared NumberType);
                       (item encoded (i + 4), T)]))
    allAccepted (withInterpolateArgs parseArg encoded T).
Proof.
  intro Hbase. unfold withInterpolateArgs.
  eapply Throws_ext.
  { intro c. unfold bind at 1, lift. rewrite Hbase. reflexivity. }
  apply (@Throws_first _ (rethrow _)); [apply Wraps_rethrow |].
  intro input.
  apply Throws_forLoop; auto.
  intro i. apply (@Takes_two (rethrow _) (rethrow _)); apply Wraps_rethrow.
Qed.

Lemma Throws_withCaseArgs encoded T :
  Throws
    (fun parsed =>
       (item encoded (List.length encoded - 1), T)
       :: loopSteps (pairsBelow (List.length encoded - 1 - 1)) 0 2
            (fun i => [(item encoded (i + 1), Declared BooleanType);
                       (item encoded (i + 2), typeAt 0 parsed)]))
    allAccepted (withCaseArgs parseArg encoded T).
Proof.
  unfold withCaseArgs.
  apply (@Throws_first _ (fun m => m)); [exact Wraps_none |].
  intro fallback. unfold typeAt. cbn [nth].
  apply Throws_forLoop; auto.
  intro i. apply (@Takes_two (rethrow _) (rethrow _)); apply Wraps_rethrow.
Qed.

Lemma Throws_needle {B : Type} x A (k : Expression -> Ctx B) :
  Throws (fun _ => [(x, A)]) allAccepted (bind (parseArg x A) k).
Proof.
  apply (@Throws_first _ (fun m => m) x A (fun _ => []));
    [exact Wraps_none |].
  intro e. apply Throws_nil.
Qed.

Lemma Throws_withInArgs_numbers encoded T haystack :
  item encoded 2 = VArr haystack ->
  typeof (item haystack 0) <> "string" ->
  Throws
    (fun _ =>
       (loopSteps (List.length haystack) 0 1
          (fun i => [(item haystack i, Declared NumberType)])
        ++ [(item encoded 1, Declared NumberType)])%list)
    allAccepted (withInArgs parseArg encoded T).
Proof.
  intros Hhaystack Hfirst. unfold withInArgs. rewrite Hhaystack.
  destruct (item haystack 0); try (now contradiction Hfirst);
    (apply Throws_forLoop_then;
     [ intro i; apply (@Takes_one (rethrow _)); apply Wraps_rethrow
     | intro out; apply Throws_needle ]).
Qed.

Lemma Throws_withInArgs_strings encoded T haystack literal :
  item encoded 2 = VArr haystack ->
  item haystack 0 = VStr "literal" ->
  item haystack 1 = VArr literal ->
  Throws
    (fun _ =>
       (loopSteps (List.length literal) 0 1
          (fun i => [(item literal i, Declared StringType)])
        ++ [(item encoded 1, Declared StringType)])%list)
    allAccepted (withInArgs parseArg encoded T).
Proof.
  intros Hhaystack Hfirst Hsecond. unfold withInArgs.
  rewrite Hhaystack, Hfirst, Hsecond. cbn [String.eqb Ascii.eqb Bool.eqb negb].
  apply Throws_forLoop_then.
  - intro i. apply (@Takes_one (rethrow _)). apply Wraps_rethrow.
  - intro out. apply Throws_needle.
Qed.

Lemma Throws_withPaletteArgs encoded T colors :
  item encoded 2 = VArr colors ->
  Throws
    (fun _ =>
       (item encoded 1, Declared NumberType)
       :: loopSteps (List.length colors) 0 1
            (fun i => [(item colors i, Declared ColorType)]))
    (fun parsed => forallb isLiteral (tl parsed))
    (withPaletteArgs parseArg encoded T).
Proof.
  intro Hcolors. unfold withPaletteArgs. rewrite Hcolors.
  apply (@Throws_first _ (rethrow _)); [apply Wraps_rethrow |].
  intro index. cbn [tl].
  apply Throws_forLoop.
  - intro i. apply (@Takes_literal (rethrow _)). apply Wraps_rethrow.
  - reflexivity.
  - apply forallb_app.
Qed.

End Chains.

Variable colorFromString : string -> Value + string.

#[local] Abbreviation parse := (Expr.parse colorFromString).

(** [Order fuel encoded T parsed steps]: [steps] are the sub-expressions
    that the call [encoded], parsed for [T], parses once its arguments
    are counted, in the order in which its last validator parses them and
    each with the type it is parsed for.  [parsed] are the results of
    those parsed so far: a match parses its values for the type of the
    parsed input and its outputs for the type of the parsed fallback, a
    case parses its outputs for the type of the parsed fallback, and a
    palette goes on to the next colour when the parsed ones are
    literals. *)
Inductive Order (fuel : nat) (encoded : list Value) (T : PassedType)
    (parsed : list Expression) : list Step -> Prop :=
| Order_withArgsOfType lo hi (A : ValueType) :
    typeof (item encoded 0) = "string" ->
    lookup (operatorOf encoded) (validatorsOf (parse fuel))
    = Some [hasArgsCount lo hi; withArgsOfType (parse fuel) A] ->
    accepts (hasArgsCount lo hi) encoded T ->
    Order fuel encoded T parsed
      (loopSteps (List.length encoded - 1) 0 1
         (fun i => [(item encoded (i + 1), Declared A)]))
| Order_withMatchArgs (inputType : ValueType) :
    typeof (item encoded 0) = "string" ->
    lookup (operatorOf encoded) (validatorsOf (parse fuel))
    = Some [hasArgsCount 4 Infinity; hasEvenArgs;
            withMatchArgs (parse fuel) inputType] ->
    accepts (hasArgsCount 4 Infinity) encoded T ->
    accepts hasEvenArgs encoded T ->
    Order fuel encoded T parsed
      ((item encoded 1, Declared inputType)
       :: (item encoded (List.length encoded - 1), T)
       :: loopSteps (pairsBelow (List.length encoded - 1 - 2)) 0 2
            (fun i => [(item encoded (i + 2), typeAt 0 parsed);
                       (item encoded (i + 3), typeAt 1 parsed)]))
| Order_withInterpolateArgs base :
    item encoded 0 = VStr "interpolate" ->
    accepts (hasArgsCount 6 Infinity) encoded T ->
    accepts hasEvenArgs encoded T ->
    interpolationBase (item encoded 1) = Return base ->
    Order fuel encoded T parsed
      ((item encoded 2, Declared NumberType)
       :: loopSteps (pairsBelow (List.length encoded - 3)) 0 2
            (fun i => [(item encoded (i + 3), Declared NumberType);
                       (item encoded (i + 4), T)]))
| Order_withCaseArgs :
    item encoded 0 = VStr "case" ->
    accepts (hasArgsCount 3 Infinity) encoded T ->
    accepts hasOddArgs encoded T ->
    Order fuel encoded T parsed
      ((item encoded (List.length encoded - 1), T)
       :: loopSteps (pairsBelow (List.length encoded - 1 - 1)) 0 2
            (fun i => [(item encoded (i + 1), Declared BooleanType);
                       (item encoded (i + 2), typeAt 0 parsed)]))
| Order_withInArgs_numbers haystack :
    item encoded 0 = VStr "in" ->
    accepts (hasArgsCount 2 (Some 2)) encoded T ->
    item encoded 2 = VArr haystack ->
    typeof (item haystack 0) <> "string" ->
    Order fuel encoded T parsed
      (loopSteps (List.length haystack) 0 1
         (fun i => [(item haystack i, Declared NumberType)])
       ++ [(item encoded 1, Declared NumberType)])%list
| Order_withInArgs_strings haystack literal :
    item encoded 0 = VStr "in" ->
    accepts (hasArgsCount 2 (Some 2)) encoded T ->
    item encoded 2 = VArr haystack ->
    item haystack 0 = VStr "literal" ->
    item haystack 1 = VArr literal ->
    Order fuel encoded T parsed
      (loopSteps (List.length literal) 0 1
         (fun i => [(item literal i, Declared StringType)])
       ++ [(item encoded 1, Declared StringType)])%list
| Order_withPaletteArgs colors :
    item encoded 0 = VStr "palette" ->
    accepts (hasArgsCount 2 (Some 2)) encoded T ->
    item encoded 2 = VArr colors ->
    forallb isLiteral (tl parsed) = true ->
    Order fuel encoded T parsed
      ((item encoded 1, Declared NumberType)
       :: loopSteps (List.length colors) 0 1
            (fun i => [(item colors i, Declared ColorType)])).

(** A call whose operator has a parser is parsed by that parser. *)
Lemma parse_parser fuel encoded validators T c :
  typeof (item encoded 0) = "string" ->
  lookup (operatorOf encoded) (validatorsOf (parse fuel)) = Some validators ->
  parse (S fuel) (VArr encoded) T c
  = createCallExpressionParser validators encoded T c.
Proof.
  intros Hstring Hlookup. cbn [Expr.parse].
  destruct encoded as [| first rest]; [discriminate Hstring |].
  cbn [List.length Nat.eqb]. rewrite Hstring. cbn [String.eqb Ascii.eqb Bool.eqb].
  unfold parseCallExpression, parsers. now rewrite Hlookup.
Qed.

Lemma item_operator encoded operator :
  item encoded 0 = VStr operator ->
  typeof (item encoded 0) = "string" /\ operatorOf encoded = operator.
Proof. unfold operatorOf. now intros ->. Qed.

(** The last validator of a chain runs from the context in which the call
    started, once the checks before it let the call through; when it
    throws, the call throws. *)
Lemma createCallExpressionParser_throws2 check v encoded T c ca message :
  accepts check encoded T ->
  v encoded T c = (ca, Throw message) ->
  createCallExpressionParser [check; v] encoded T c = (ca, Throw message).
Proof.
  intros Hcheck Hv. unfold createCallExpressionParser.
  cbn [runValidators]. unfold bind. now rewrite Hcheck, Hv.
Qed.

Lemma createCallExpressionParser_throws3 check1 check2 v encoded T c ca
    message :
  accepts check1 encoded T -> accepts check2 encoded T ->
  v encoded T c = (ca, Throw message) ->
  createCallExpressionParser [check1; check2; v] encoded T c
  = (ca, Throw message).
Proof.
  intros Hcheck1 Hcheck2 Hv. unfold createCallExpressionParser.
  cbn [runValidators]. unfold bind. now rewrite Hcheck1, Hcheck2, Hv.
Qed.

Lemma Parsed_grows fuel steps c parsed c' :
  Parsed (parse fuel) steps c parsed c' -> grows c c'.
Proof.
  induction 1 as [c | x A steps c c1 e parsed c2 Hparse Hrest IH].
  - apply grows_refl.
  - eapply grows_trans; [| exact IH].
    pose proof (Grows_parse colorFromString fuel x A c) as Hgrows.
    now rewrite Hparse in Hgrows.
Qed.


End OrderFacts.

(** * Concrete runs

    The theorems at inputs of the repository's tests, on the integer
    instance of the numbers and the colour parser [cssColor]. *)

Definition get (key : string) : Value := VArr [VStr "get"; VStr key].

(** The call node and the entry that [['get', key]] gives at type [T]
    in a lookup of [count] entries. *)
Definition getNode (key : string) (T : ValueType) : Expression :=
  CallExpression T "get"
    [LiteralExpression StringType
       (VStr (keyForAccessor [VStr key] T []))].

Definition getEntry (key : string) (T : ValueType) (count : nat)
  : string * PreAccessorInfo :=
  (keyForAccessor [VStr key] T [], firstInfo [VStr key] T [] count).

Definition red : Value := VArr [num 255; num 0; num 0; num 1].

(** [['case', ['>', ['get', 'attr'], 3], 'red', [255, 0, 0]]] *)
Definition caseExpression : Value :=
  VArr [VStr "case"; VArr [VStr ">"; get "attr"; num 3]; VStr "red";
        VArr [num 255; num 0; num 0]].

Definition caseTree : Expression :=
  CallExpression ColorType "case"
    [CallExpression BooleanType ">"
       [getNode "attr" NumberType; LiteralExpression NumberType (num 3)];
     LiteralExpression ColorType red;
     LiteralExpression ColorType red].

Definition caseContext : ParsingContext :=
  {| variables := []; properties := [getEntry "attr" NumberType 0];
     featureId := false; geometryType := false |}.

Lemma parse_type_witness :
  parse cssColor 3 caseExpression ColorType newParsingContext
  = (caseContext, Return caseTree)
  /\ exprType caseTree = ColorType.
Proof.
  refine (let H := _ in conj H (parse_type _ _ _ _ _ H)).
  reflexivity.
Defined.

(** [['concat', 'Feature ', ['id']]] *)
Definition concatExpression : Value :=
  VArr [VStr "concat"; VStr "Feature "; VArr [VStr "id"]].

Definition concatTree : Expression :=
  CallExpression StringType "concat"
    [LiteralExpression StringType (VStr "Feature ");
     CallExpression StringType "id" []].

Definition concatContext : ParsingContext :=
  {| variables := []; properties := [];
     featureId := true; geometryType := false |}.

Lemma parse_usage_flags_witness :
  parse cssColor 2 concatExpression StringType newParsingContext
  = (concatContext, Return concatTree)
  /\ (featureId concatContext = true <-> hasOperator "id" concatTree = true)
  /\ (geometryType concatContext = true
      <-> hasOperator "geometry-type" concatTree = true).
Proof.
  refine (let H := _ in conj H (parse_usage_flags _ _ _ _ H)).
  reflexivity.
Defined.

Lemma parse_in_bare_string_array_witness :
  "abcd" <> "literal"
  /\ parse cssColor 1
       (VArr [VStr "in"; get "attr";
              VArr [VStr "abcd"; VStr "efgh"; VStr "ijkl"]])
       BooleanType newParsingContext
     = (newParsingContext,
        Throw ("for the " ++ quoted "in"
               ++ " operator, a string array should be wrapped in a "
               ++ quoted "literal"
               ++ " operator to disambiguate from expressions")).
Proof.
  split; [discriminate |].
  apply (parse_in_bare_string_array cssColor); discriminate.
Defined.

(** [['+', ['get', 'a'], 'x']] throws on its second argument, after the
    accessor of the first one was registered. *)
Definition sumContext : ParsingContext :=
  {| variables := []; properties := [getEntry "a" NumberType 0];
     featureId := false; geometryType := false |}.


(** The integer instance prints its finite numbers as JSON needs. *)
Lemma string_of_uint_chars d :
  forallb isNumberChar
    (list_ascii_of_string (NilEmpty.string_of_uint d)) = true.
Proof. induction d; simpl; auto. Qed.

Lemma to_int_not_nil z :
  Z.to_int z <> Decimal.Pos Decimal.Nil
  /\ Z.to_int z <> Decimal.Neg Decimal.Nil.
Proof.
  destruct z as [| p | p]; simpl; split; try discriminate;
    intro H; inversion H as [Hp];
    exact (DecimalPos.Unsigned.to_uint_nonnil p Hp).
Qed.

Lemma IntegerNumber_JsonNumbers : @JsonNumbers IntegerNumber.
Proof.
  split.
  - intros [| negative | z]; simpl; try discriminate. intros _.
    destruct (Z.to_int z) as [d | d]; simpl.
    + destruct d; try apply string_of_uint_chars. reflexivity.
    + destruct d; try apply string_of_uint_chars. reflexivity.
  - intros [| negative | z]; simpl; try discriminate. intros _.
    destruct (Z.to_int z) as [d | d]; simpl; [| discriminate].
    destruct d; discriminate.
  - intros [| negative1 | z1] [| negative2 | z2]; simpl;
      try discriminate. intros _ _ H.
    apply (f_equal NilZero.int_of_string) in H.
    destruct (to_int_not_nil z1) as [Hpos1 Hneg1].
    destruct (to_int_not_nil z2) as [Hpos2 Hneg2].
    rewrite !NilZero.isi in H by assumption.
    inversion H as [Hint]. apply (f_equal Z.of_int) in Hint.
    rewrite !DecimalZ.of_to in Hint. now subst.
Qed.

(** Two accessors on the same path, the second with a default. *)
Lemma register_accessor_witness :
  register (N := IntegerNumber) [VStr "get"; VStr "foo"] StringType
    (register [VStr "get"; VStr "foo"] StringType []) =
  register [VStr "get"; VStr "foo"] StringType []
  /\ keyForAccessor (N := IntegerNumber) [VStr "foo"] StringType []
     <> keyForAccessor [VStr "foo"] StringType [("default", VStr "x")]
  /\ List.length
       (register [VStr "get"; VStr "foo"; VObj [("default", VStr "x")]]
          StringType
          (register (N := IntegerNumber) [VStr "get"; VStr "foo"]
             StringType [])) = 2
  /\ variables
       (fst (parse cssColor 1 (VArr [VStr "var"; VStr "foo"]) StringType
               newParsingContext))
     = register [VStr "var"; VStr "foo"] StringType []
  /\ properties
       (fst (parse cssColor 1 (VArr [VStr "var"; VStr "foo"]) StringType
               newParsingContext))
     = [].
Proof.
  pose proof (@register_accessor IntegerNumber SomeEngine cssColor
                [VStr "get"; VStr "foo"] StringType
                [VStr "foo"] []
                [VStr "get"; VStr "foo"; VObj [("default", VStr "x")]]
                StringType [VStr "foo"] [("default", VStr "x")] []
                eq_refl eq_refl (NoDup_nil _)) as H.
  cbv zeta in H.
  destruct H as (Hsame & _ & _ & _ & Htwo & _ & Hdiffer & _ & Hvar).
  assert (Hkeys : keyForAccessor (N := IntegerNumber) [VStr "foo"]
                    StringType []
                  <> keyForAccessor [VStr "foo"] StringType
                       [("default", VStr "x")]).
  { apply Hdiffer;
      [ exact IntegerNumber_JsonNumbers | reflexivity | reflexivity
      | exact I | reflexivity | ].
    right. right. discriminate. }
  split; [exact Hsame |]. split; [exact Hkeys |].
  split; [| exact (Hvar 0 (VStr "foo") [] (Declared StringType)
                     newParsingContext)].
  rewrite Htwo; [reflexivity | exact Hkeys | reflexivity | reflexivity].
Defined.

(** [{a: {b: 42}}] read by [['get', 'a', 'b']] as a number. *)
Definition nestedValues : Value := VObj [("a", VObj [("b", num 42)])].

Definition nestedKey : string :=
  keyForAccessor [VStr "a"; VStr "b"] NumberType [].

Definition nestedInfo : PreAccessorInfo :=
  firstInfo [VStr "a"; VStr "b"] NumberType [] 0.

Definition nestedOut : Lookup PostAccessorInfo :=
  [(nestedKey, {| postValue := num 42; postType := NumberType;
                  postSlug := "a_b_0" |})].

Lemma nestedValues_present :
  Present nestedValues [VStr "a"; VStr "b"] (num 42).
Proof.
  apply Present_step; [reflexivity | reflexivity |].
  change (Present (VObj [("b", num 42)]) [VStr "b"]
            (getProp (VObj [("b", num 42)]) (propertyKey (VStr "b")))).
  apply Present_last; reflexivity.
Qed.

Lemma processAccessorValues_entries_witness :
  register [VStr "get"; VStr "a"; VStr "b"] NumberType []
  = [(nestedKey, nestedInfo)]
  /\ processAccessorValues cssColor nestedValues [(nestedKey, nestedInfo)]
     = Return nestedOut
  /\ exists e,
       parseLiteralExpression cssColor (num 42) NumberType = Return e
       /\ lookup nestedKey nestedOut
          = Some {| postValue := exprValue e; postType := NumberType;
                    postSlug := "a_b_0" |}.
Proof.
  split; [reflexivity |].
  assert (Hout : processAccessorValues cssColor nestedValues
                   [(nestedKey, nestedInfo)] = Return nestedOut)
    by reflexivity.
  split; [exact Hout |].
  assert (Hnodup : NoDup (map fst [(nestedKey, nestedInfo)]))
    by (repeat constructor; simpl; tauto).
  assert (Hinfo : lookup nestedKey [(nestedKey, nestedInfo)]
                  = Some nestedInfo) by reflexivity.
  exact (proj1 (@processAccessorValues_entries IntegerNumber cssColor
                  nestedValues [(nestedKey, nestedInfo)] nestedOut nestedKey
                  nestedInfo Hnodup Hout Hinfo)
               (num 42) nestedValues_present).
Defined.

(** An evaluator for the concrete runs: the integers of the instance
    are the rationals they denote, the colours are mixed on their own
    channels, and no other call than [interpolate] is compiled. *)
Definition intRational (n : IntNumber) : option Q :=
  match n with
  | IInt z => Some (inject_Z z)
  | _ => None
  end.

Definition evaluate : Expression -> Cpu.EvaluationContext -> option Cpu.Output :=
  Cpu.compileExpression (fun _ _ => 1%Q) (fun channels => channels)
    (fun channels => channels) intRational (fun _ _ _ _ => None).

Definition newEvaluationContext : Cpu.EvaluationContext :=
  {| Cpu.properties := []; Cpu.variables := []; Cpu.featureId := None;
     Cpu.geometryType := None; Cpu.resolution := None |}.

Definition numberOutput (z : Z) : Cpu.Output := Cpu.NumberOutput (inject_Z z).

(** [['interpolate', ['linear'], x, -1, -1, 0, 0, 1, 100, 2, 1000]], the
    stops of the test [interpolate expressions]. *)
Definition stopsExpression (x : Z) : Value :=
  VArr [VStr "interpolate"; VArr [VStr "linear"]; num x;
        num (-1); num (-1); num 0; num 0; num 1; num 100; num 2; num 1000].

Definition stopsArguments (x : Z) : list Expression :=
    [LiteralExpression NumberType (num 1);
     LiteralExpression NumberType (num x);
     LiteralExpression NumberType (num (-1));
     LiteralExpression NumberType (num (-1));
     LiteralExpression NumberType (num 0);
     LiteralExpression NumberType (num 0);
     LiteralExpression NumberType (num 1);
     LiteralExpression NumberType (num 100);
     LiteralExpression NumberType (num 2);
     LiteralExpression NumberType (num 1000)].

Definition stopsTree (x : Z) : Expression :=
  CallExpression NumberType "interpolate" (stopsArguments x).

Definition testStops : list Cpu.Stop :=
  [(inject_Z (-1), numberOutput (-1)); (inject_Z 0, numberOutput 0);
   (inject_Z 1, numberOutput 100); (inject_Z 2, numberOutput 1000)].

Lemma testStops_nonDecreasing : Cpu.nonDecreasing testStops.
Proof. repeat split; discriminate. Defined.

Lemma interpolate_clamped_witness :
  parse cssColor 2 (stopsExpression (-2)) NumberType newParsingContext
  = (newParsingContext, Return (stopsTree (-2)))
  /\ parse cssColor 2 (stopsExpression 3) NumberType newParsingContext
     = (newParsingContext, Return (stopsTree 3))
  /\ Cpu.nonDecreasing testStops
  /\ evaluate (stopsTree (-2)) newEvaluationContext = Some (numberOutput (-1))
  /\ evaluate (stopsTree 3) newEvaluationContext = Some (numberOutput 1000).
Proof.
  split; [reflexivity |]. split; [reflexivity |].
  split; [exact testStops_nonDecreasing |].
  split.
  - refine (proj1 (@interpolate_clamped IntegerNumber (fun _ _ => 1%Q)
                     (fun channels => channels) (fun channels => channels)
                     intRational (fun _ _ _ _ => None)
                     NumberType (stopsArguments (-2)) newEvaluationContext
                     (inject_Z 1) (inject_Z (-2)) _
                     (inject_Z (-1), numberOutput (-1)) _
                     eq_refl eq_refl testStops_nonDecreasing) _).
    discriminate.
  - refine (proj2 (@interpolate_clamped IntegerNumber (fun _ _ => 1%Q)
                     (fun channels => channels) (fun channels => channels)
                     intRational (fun _ _ _ _ => None)
                     NumberType (stopsArguments 3) newEvaluationContext
                     (inject_Z 1) (inject_Z 3) _
                     (inject_Z (-1), numberOutput (-1)) _
                     eq_refl eq_refl testStops_nonDecreasing) _ _).
    + discriminate.
    + reflexivity.
Defined.

(** ** The further properties at concrete inputs *)

Definition lit (z : Z) : Expression := LiteralExpression NumberType (num z).

Definition text (s : string) : Expression :=
  LiteralExpression StringType (VStr s).

(** [['upcase', 'a']] *)
Lemma parse_unknown_operator_witness :
  ~ In "upcase" operators
  /\ ~ In "upcase" inheritedNames
  /\ parse cssColor 1 (VArr [VStr "upcase"; VStr "a"]) StringType
       newParsingContext
     = (newParsingContext, Throw "unknown operator: upcase").
Proof.
  assert (H1 : ~ In "upcase" operators).
  { intro H. repeat (destruct H as [H | H]; [discriminate H |]). exact H. }
  assert (H2 : ~ In "upcase" inheritedNames).
  { intro H. repeat (destruct H as [H | H]; [discriminate H |]). exact H. }
  exact (conj H1 (conj H2
           (@parse_unknown_operator IntegerNumber SomeEngine cssColor 0 "upcase"
              [VStr "a"] StringType newParsingContext H1 H2))).
Defined.

(** [['get', true]], in a context that has an accessor. *)
Lemma parse_accessor_rejected_witness :
  In "get" ["get"; "has"; "var"]
  /\ parse cssColor 1 (VArr [VStr "get"; VBool true]) NumberType caseContext
     = (caseContext,
        Throw "expected a string key or numeric array index for a get operation, got true")
  /\ caseContext = caseContext.
Proof.
  assert (H1 : In "get" ["get"; "has"; "var"]) by (simpl; auto).
  assert (H2 : parse cssColor 1 (VArr [VStr "get"; VBool true]) NumberType
                 caseContext
               = (caseContext,
                  Throw "expected a string key or numeric array index for a get operation, got true"))
    by reflexivity.
  exact (conj H1 (conj H2
           (@parse_accessor_rejected IntegerNumber SomeEngine cssColor 0 "get"
              [VBool true] NumberType caseContext caseContext _ H1 H2))).
Defined.

(** [['+', 1, 2, 3]] *)
Definition sumTree : Expression :=
  CallExpression NumberType "+" [lit 1; lit 2; lit 3].


Lemma parse_case_branches_witness :
  parse cssColor 3 caseExpression ColorType newParsingContext
  = (caseContext, Return caseTree)
  /\ exists branches fallback,
       caseTree = CallExpression ColorType "case" (branches ++ [fallback])
       /\ List.length branches + 1 = 3
       /\ 3 <= 3
       /\ pairsTyped BooleanType ColorType branches
       /\ typed ColorType fallback.
Proof.
  assert (H : parse cssColor 3 caseExpression ColorType newParsingContext
              = (caseContext, Return caseTree)) by reflexivity.
  exact (conj H
           (@parse_case_branches IntegerNumber SomeEngine cssColor 2
              [VArr [VStr ">"; get "attr"; num 3]; VStr "red";
               VArr [num 255; num 0; num 0]]
              ColorType newParsingContext caseContext caseTree eq_refl H)).
Defined.

(** [['match-number', 1, 1, 'a', 2, 'b', 'c']] *)
Definition matchTree : Expression :=
  CallExpression StringType "match-number"
    [lit 1; lit 1; text "a"; lit 2; text "b"; text "c"].

Lemma parse_match_arms_witness :
  parse cssColor 2
    (VArr [VStr "match-number"; num 1; num 1; VStr "a"; num 2; VStr "b";
           VStr "c"])
    StringType newParsingContext
  = (newParsingContext, Return matchTree)
  /\ exists input arms fallback,
       matchTree
       = CallExpression StringType "match-number"
           (input :: arms ++ [fallback])
       /\ List.length arms + 2 = 6
       /\ 4 <= 6
       /\ typed NumberType input
       /\ pairsTyped NumberType StringType arms
       /\ typed StringType fallback.
Proof.
  assert (H : parse cssColor 2
                (VArr [VStr "match-number"; num 1; num 1; VStr "a"; num 2;
                       VStr "b"; VStr "c"])
                StringType newParsingContext
              = (newParsingContext, Return matchTree)) by reflexivity.
  exact (conj H
           (@parse_match_arms IntegerNumber SomeEngine cssColor 1 "match-number"
              NumberType [num 1; num 1; VStr "a"; num 2; VStr "b"; VStr "c"]
              StringType newParsingContext newParsingContext matchTree
              eq_refl eq_refl H)).
Defined.

(** [['interpolate', ['linear'], 5, 0, 10, 1, 20]] *)
Definition interpolateTree : Expression :=
  CallExpression NumberType "interpolate"
    [lit 1; lit 5; lit 0; lit 10; lit 1; lit 20].

Lemma parse_interpolate_stops_witness :
  parse cssColor 2
    (VArr [VStr "interpolate"; VArr [VStr "linear"]; num 5; num 0; num 10;
           num 1; num 20])
    NumberType newParsingContext
  = (newParsingContext, Return interpolateTree)
  /\ exists base input stops,
       interpolateTree
       = CallExpression NumberType "interpolate"
           (LiteralExpression NumberType (VNum base) :: input :: stops)
       /\ interpolationBase (VArr [VStr "linear"]) = Return base
       /\ List.length stops + 2 = 6
       /\ 6 <= 6
       /\ typed NumberType input
       /\ pairsTyped NumberType NumberType stops.
Proof.
  assert (H : parse cssColor 2
                (VArr [VStr "interpolate"; VArr [VStr "linear"]; num 5;
                       num 0; num 10; num 1; num 20])
                NumberType newParsingContext
              = (newParsingContext, Return interpolateTree)) by reflexivity.
  exact (conj H
           (@parse_interpolate_stops IntegerNumber SomeEngine cssColor 1
              [VArr [VStr "linear"]; num 5; num 0; num 10; num 1; num 20]
              NumberType newParsingContext newParsingContext interpolateTree
              eq_refl H)).
Defined.

(** [['in', 2, [1, 2, 3]]] *)
Definition inTree : Expression :=
  CallExpression BooleanType "in" [lit 2; lit 1; lit 2; lit 3].

Lemma parse_in_haystack_witness :
  parse cssColor 2 (VArr [VStr "in"; num 2; VArr [num 1; num 2; num 3]])
    BooleanType newParsingContext
  = (newParsingContext, Return inTree)
  /\ exists encodedNeedle haystack needle items needleType,
       [num 2; VArr [num 1; num 2; num 3]] = [encodedNeedle; VArr haystack]
       /\ inTree = CallExpression BooleanType "in" (needle :: items)
       /\ typed needleType needle
       /\ Forall (typed needleType) items
       /\ ((typeof (item haystack 0) <> "string"
            /\ needleType = NumberType
            /\ List.length items = List.length haystack)
           \/ (exists literal,
                 item haystack 0 = VStr "literal"
                 /\ item haystack 1 = VArr literal
                 /\ needleType = StringType
                 /\ List.length items = List.length literal)).
Proof.
  assert (H : parse cssColor 2
                (VArr [VStr "in"; num 2; VArr [num 1; num 2; num 3]])
                BooleanType newParsingContext
              = (newParsingContext, Return inTree)) by reflexivity.
  exact (conj H
           (@parse_in_haystack IntegerNumber SomeEngine cssColor 1
              [num 2; VArr [num 1; num 2; num 3]] BooleanType
              newParsingContext newParsingContext inTree eq_refl H)).
Defined.

(** [['palette', 1, ['red', [0, 255, 0]]]] *)
Definition paletteTree : Expression :=
  CallExpression ColorType "palette"
    [lit 1; LiteralExpression ColorType red;
     LiteralExpression ColorType (VArr [num 0; num 255; num 0; num 1])].


(** The colour parser of the concrete runs gives colours. *)
Lemma cssColor_conforms : colorsConform cssColor.
Proof.
  intros s color. unfold cssColor.
  destruct (s =? "red"); intro H; inversion H. reflexivity.
Defined.

Lemma parseLiteralExpression_conforms_witness :
  colorsConform cssColor
  /\ parseLiteralExpression cssColor (VStr "red") ColorType
     = Return (LiteralExpression ColorType red)
  /\ exists value,
       LiteralExpression ColorType red = LiteralExpression ColorType value
       /\ conforms ColorType value = true.
Proof.
  exact (conj cssColor_conforms (conj eq_refl
           (@parseLiteralExpression_conforms IntegerNumber cssColor
              (VStr "red") ColorType (LiteralExpression ColorType red)
              cssColor_conforms eq_refl))).
Defined.

(** [[255, 0, 0]] as a colour gets its alpha once. *)
Lemma parseLiteralExpression_idempotent_witness :
  colorsConform cssColor
  /\ parseLiteralExpression cssColor (VArr [num 255; num 0; num 0]) ColorType
     = Return (LiteralExpression ColorType red)
  /\ parseLiteralExpression cssColor red ColorType
     = Return (LiteralExpression ColorType red).
Proof.
  exact (conj cssColor_conforms (conj eq_refl
           (@parseLiteralExpression_idempotent IntegerNumber cssColor
              (VArr [num 255; num 0; num 0]) ColorType
              (LiteralExpression ColorType red) cssColor_conforms eq_refl))).
Defined.

(** An accessor that the values have, and one that they have not and
    that has no default. *)
Definition missingKey : string := keyForAccessor [VStr "c"] StringType [].

Definition missingInfo : PreAccessorInfo := firstInfo [VStr "c"] StringType [] 1.


(** [{a: {b: 42}}] read by [['get', 'a']] as a number: an object is not a
    number. *)
Definition objectInfo : PreAccessorInfo := firstInfo [VStr "a"] NumberType [] 1.

Lemma processAccessorValues_rejects_witness :
  In ("a", objectInfo) [(nestedKey, nestedInfo); ("a", objectInfo)]
  /\ processAccessor cssColor nestedValues objectInfo
     = Throw "expected a number"
  /\ exists message,
       processAccessorValues cssColor nestedValues
         [(nestedKey, nestedInfo); ("a", objectInfo)]
       = Throw message.
Proof.
  assert (H1 : In ("a", objectInfo)
                 [(nestedKey, nestedInfo); ("a", objectInfo)])
    by (simpl; auto).
  assert (H2 : processAccessor cssColor nestedValues objectInfo
               = Throw "expected a number") by reflexivity.
  exact (conj H1 (conj H2
           (@processAccessorValues_rejects IntegerNumber cssColor
              nestedValues [(nestedKey, nestedInfo); ("a", objectInfo)]
              "a" objectInfo "expected a number" H1 H2))).
Defined.

Lemma parse_registers_what_it_reads_witness :
  parse cssColor 3 caseExpression ColorType newParsingContext
  = (caseContext, Return caseTree)
  /\ isSome (lookup (keyForAccessor [VStr "attr"] NumberType [])
               (properties caseContext))
     = isSome (lookup (keyForAccessor [VStr "attr"] NumberType [])
                 (properties newParsingContext))
       || uses PropertyAccessors (keyForAccessor [VStr "attr"] NumberType [])
            caseTree
  /\ isSome (lookup (keyForAccessor [VStr "attr"] NumberType [])
               (variables caseContext))
     = isSome (lookup (keyForAccessor [VStr "attr"] NumberType [])
                 (variables newParsingContext))
       || uses VariableAccessors (keyForAccessor [VStr "attr"] NumberType [])
            caseTree.
Proof.
  assert (H : parse cssColor 3 caseExpression ColorType newParsingContext
              = (caseContext, Return caseTree)) by reflexivity.
  exact (conj H
           (@parse_registers_what_it_reads IntegerNumber SomeEngine cssColor 3
              caseExpression ColorType newParsingContext caseContext caseTree
              (keyForAccessor [VStr "attr"] NumberType []) H)).
Defined.

(** [['get', 'a', 'b']] as a number, then [{a: {b: 42}}]. *)
Definition nestedContext : ParsingContext :=
  {| variables := []; properties := [(nestedKey, nestedInfo)];
     featureId := false; geometryType := false |}.

Definition nestedNode : Expression :=
  CallExpression NumberType "get"
    [LiteralExpression StringType (VStr nestedKey)].

Lemma parse_get_then_process_witness :
  parse cssColor 1 (VArr [VStr "get"; VStr "a"; VStr "b"]) NumberType
    newParsingContext
  = (nestedContext, Return nestedNode)
  /\ processAccessorValues cssColor nestedValues (properties nestedContext)
     = Return nestedOut
  /\ exists accessorPath options,
       accessorOf [VStr "get"; VStr "a"; VStr "b"]
       = Return (accessorPath, options)
       /\ nestedNode
          = CallExpression NumberType "get"
              [LiteralExpression StringType
                 (VStr (keyForAccessor accessorPath NumberType options))]
       /\ forall leaf,
            Present nestedValues accessorPath leaf ->
            exists literal,
              parseLiteralExpression cssColor leaf NumberType
              = Return literal
              /\ lookup (keyForAccessor accessorPath NumberType options)
                   nestedOut
                 = Some {| postValue := exprValue literal;
                           postType := NumberType;
                           postSlug := joinPath accessorPath ++ "_0" |}.
Proof.
  assert (H1 : parse cssColor 1 (VArr [VStr "get"; VStr "a"; VStr "b"])
                 NumberType newParsingContext
               = (nestedContext, Return nestedNode)) by reflexivity.
  assert (H2 : processAccessorValues cssColor nestedValues
                 (properties nestedContext)
               = Return nestedOut) by reflexivity.
  exact (conj H1 (conj H2
           (@parse_get_then_process IntegerNumber SomeEngine cssColor 0
              [VStr "a"; VStr "b"] NumberType nestedContext nestedNode
              nestedValues nestedOut H1 H2))).
Defined.

Lemma parse_keeps_lookups_witness :
  wellKeyed (properties (newParsingContext (N := IntegerNumber)))
  /\ wellKeyed (variables (newParsingContext (N := IntegerNumber)))
  /\ fst (parse cssColor 3 caseExpression ColorType newParsingContext)
     = caseContext
  /\ wellKeyed (properties caseContext)
  /\ wellKeyed (variables caseContext)
  /\ NoDup (slugs (properties caseContext))
  /\ NoDup (slugs (variables caseContext)).
Proof.
  assert (H : wellKeyed (@nil (string * PreAccessorInfo)))
    by (split; [exact I | constructor]).
  exact (conj H (conj H (conj eq_refl
           (@parse_keeps_lookups IntegerNumber SomeEngine cssColor 3 caseExpression
              ColorType newParsingContext H H)))).
Defined.

(** [['clamp', 1, 2]] *)
Lemma parse_wrong_argument_count_witness :
  ~ within 3 (Some 3) 2
  /\ exists message,
       parse cssColor 1 (VArr [VStr "clamp"; num 1; num 2]) NumberType
         caseContext
       = (caseContext, Throw ("expected " ++ message)).
Proof.
  assert (H : ~ within 3 (Some 3) 2) by (unfold within; lia).
  exact (conj H
           (@parse_wrong_argument_count IntegerNumber SomeEngine cssColor 0 "clamp" 3
              (Some 3) (withArgsOfType (parse cssColor 0) NumberType) []
              [num 1; num 2] NumberType caseContext eq_refl H)).
Defined.

(** [['case', true, 1, false, 2]] *)
Lemma parse_odd_count_expected_witness :
  3 <= 4
  /\ 4 mod 2 = 0
  /\ parse cssColor 1
       (VArr [VStr "case"; VBool true; num 1; VBool false; num 2])
       NumberType caseContext
     = (caseContext,
        Throw "expected an odd number of arguments for case, got 4 instead").
Proof.
  assert (H1 : 3 <= 4) by lia.
  assert (H2 : 4 mod 2 = 0) by reflexivity.
  exact (conj H1 (conj H2
           (@parse_odd_count_expected IntegerNumber SomeEngine cssColor 0 "case" 3
              (withCaseArgs (parse cssColor 0))
              [VBool true; num 1; VBool false; num 2] NumberType caseContext
              eq_refl H1 H2))).
Defined.

(** [['match-string', ['get', 'type'], 'a', 1, 'b', 2]], without a
    fallback. *)
Lemma parse_even_count_expected_witness :
  4 <= 5
  /\ 5 mod 2 = 1
  /\ parse cssColor 1
       (VArr [VStr "match-string"; get "type"; VStr "a"; num 1; VStr "b";
              num 2])
       NumberType caseContext
     = (caseContext,
        Throw "expected an even number of arguments for operation match-string, got 5 instead").
Proof.
  assert (H1 : 4 <= 5) by lia.
  assert (H2 : 5 mod 2 = 1) by reflexivity.
  exact (conj H1 (conj H2
           (@parse_even_count_expected IntegerNumber SomeEngine cssColor 0
              "match-string" 4
              (withMatchArgs (parse cssColor 0) StringType)
              [get "type"; VStr "a"; num 1; VStr "b"; num 2] NumberType
              caseContext eq_refl H1 H2))).
Defined.

(** A cache of five icons, each of them its own flag [hasListener], with
    a maximum of two. *)
Definition iconCache : IconImageCache.Cache bool unit :=
  {| IconImageCache.cache_ :=
       [("a:null:null", Some false); ("b:null:null", Some false);
        ("c:null:null", Some true); ("d:null:null", Some false);
        ("e:null:null", Some false)];
     IconImageCache.patternCache_ := [];
     IconImageCache.cacheSize_ := 5;
     IconImageCache.maxCacheSize_ := 2 |}.

Definition iconCacheExpired : IconImageCache.Cache bool unit :=
  {| IconImageCache.cache_ :=
       [("b:null:null", Some false); ("c:null:null", Some true);
        ("d:null:null", Some false)];
     IconImageCache.patternCache_ := [];
     IconImageCache.cacheSize_ := 3;
     IconImageCache.maxCacheSize_ := 2 |}.

Lemma cache_counted_witness :
  Counted (IconImageCache.create bool unit)
  /\ Counted (IconImageCache.create bool unit)
  /\ Counted (IconImageCache.clear (IconImageCache.create bool unit))
  /\ (forall src crossOrigin color icon pattern s',
        IconImageCache.set (fun _ => false) (fun _ => tt) src crossOrigin
          color icon pattern (IconImageCache.create bool unit)
        = (s', Return tt) ->
        Counted s')
  /\ Counted (fst (IconImageCache.expire (fun _ => false) (fun b => b)
                     (IconImageCache.create bool unit)))
  /\ (forall maxCacheSize,
        Counted (fst (IconImageCache.setSize (fun _ => false) (fun b => b)
                        maxCacheSize (IconImageCache.create bool unit)))).
Proof.
  assert (H : Counted (IconImageCache.create bool unit))
    by (split; [constructor | reflexivity]).
  exact (conj H
           (@cache_counted bool unit (fun _ => false) (fun b => b)
              (fun _ => false) (fun _ => tt)
              (IconImageCache.create bool unit) H)).
Defined.

Lemma expire_at_most_a_quarter_witness :
  NoDup (map fst (IconImageCache.cache_ iconCache))
  /\ IconImageCache.expire (fun _ => false) (fun b => b) iconCache
     = (iconCacheExpired, Return tt)
  /\ List.length (IconImageCache.cache_ iconCache)
     <= List.length
          (IconImageCache.cache_
             (fst (IconImageCache.expire (fun _ => false) (fun b => b)
                     iconCache)))
        + (List.length (IconImageCache.cache_ iconCache) + 3) / 4.
Proof.
  assert (H : NoDup (map fst (IconImageCache.cache_ iconCache))).
  { repeat (constructor;
            [ intro Hin;
              repeat (destruct Hin as [Hin | Hin]; [discriminate Hin |]);
              exact Hin |]).
    constructor. }
  exact (conj H (conj eq_refl
           (@expire_at_most_a_quarter bool unit (fun _ => false)
              (fun b => b) iconCache H))).
Defined.

Lemma set_null_pattern_uncounted_witness :
  Counted (IconImageCache.create bool unit)
  /\ lookup (IconImageCache.getIconKey "icon.png" None None)
       (IconImageCache.cache_ (IconImageCache.create bool unit)) = None
  /\ (let result :=
        IconImageCache.set (fun _ => false) (fun _ => tt) "icon.png" None
          None None true (IconImageCache.create bool unit) in
      snd result
      = Throw "Cannot read properties of null (reading 'getImageState')"
      /\ IconImageCache.cache_ (fst result)
         = (IconImageCache.cache_ (IconImageCache.create bool unit)
            ++ [(IconImageCache.getIconKey "icon.png" None None, None)])%list
      /\ Z.of_nat (List.length (IconImageCache.cache_ (fst result)))
         = (IconImageCache.cacheSize_ (fst result) + 1)%Z).
Proof.
  assert (H : Counted (IconImageCache.create bool unit))
    by (split; [constructor | reflexivity]).
  exact (conj H (conj eq_refl
           (@set_null_pattern_uncounted bool unit (fun _ => false)
              (fun _ => tt) "icon.png" None None
              (IconImageCache.create bool unit) H eq_refl))).
Defined.

(** A source that is a URL has colons; the cross origin and the colour
    have none. *)
Lemma getIconKey_inj_witness :
  IconImageCache.getIconKey "https://example.com/icon.png" None (Some "red")
  = "https://example.com/icon.png:null:red"
  /\ "https://example.com/icon.png" = "https://example.com/icon.png"
  /\ IconImageCache.text None = IconImageCache.text (Some "null")
  /\ IconImageCache.text (Some "red") = IconImageCache.text (Some "red").
Proof.
  split; [reflexivity |].
  exact (@getIconKey_inj "https://example.com/icon.png" None (Some "red")
           "https://example.com/icon.png" (Some "null") (Some "red")
           eq_refl eq_refl eq_refl eq_refl eq_refl).
Defined.

(** * Where the code departs from the specification *)

(** C2. The defaults [Infinity] and [-Infinity] make two accessors that
    differ in their default only; JSON writes both defaults [null], the
    two accessors have the same key, and the second registration adds
    nothing: the lookup has the one entry of the first. *)
Lemma register_infinite_defaults :
  accessorOf (N := IntegerNumber)
    [VStr "get"; VStr "a"; VObj [("default", VNum (IInfinity false))]]
  = Return ([VStr "a"], [("default", VNum (IInfinity false))])
  /\ accessorOf (N := IntegerNumber)
       [VStr "get"; VStr "a"; VObj [("default", VNum (IInfinity true))]]
     = Return ([VStr "a"], [("default", VNum (IInfinity true))])
  /\ VNum (IInfinity false) <> VNum (IInfinity true)
  /\ register
       [VStr "get"; VStr "a"; VObj [("default", VNum (IInfinity true))]]
       NumberType
       (register (N := IntegerNumber)
          [VStr "get"; VStr "a"; VObj [("default", VNum (IInfinity false))]]
          NumberType [])
     = [(keyForAccessor [VStr "a"] NumberType
           [("default", VNum (IInfinity false))],
         {| slug := "a_0"; path := [VStr "a"]; type := NumberType;
            default := Some (VNum (IInfinity false)) |})].
Proof. repeat split. discriminate. Qed.

(** The same happens with a default of [undefined] and no default: JSON
    leaves out a property that is [undefined]. *)
Lemma register_undefined_default :
  register [VStr "get"; VStr "a"] NumberType
    (register (N := IntegerNumber)
       [VStr "get"; VStr "a"; VObj [("default", VUndefined)]]
       NumberType [])
  = [(keyForAccessor [VStr "a"] NumberType [],
      {| slug := "a_0"; path := [VStr "a"]; type := NumberType;
         default := Some VUndefined |})].
Proof. reflexivity. Qed.

(** C3. [true] is coerced to the numberOutput 1. *)
Lemma boolean_to_number_returns :
  parseLiteralExpression cssColor (VBool true) NumberType
  = Return (LiteralExpression NumberType (num 1)).
Proof. reflexivity. Qed.

(** C5. With the same arguments [match-number] parses and [match] is
    unknown. *)
Lemma match_is_not_match_number :
  parse cssColor 2
    (VArr [VStr "match"; num 1; num 1; VStr "one"; VStr "other"])
    StringType newParsingContext
  = (newParsingContext, Throw "unknown operator: match")
  /\ parse cssColor 2
       (VArr [VStr "match-number"; num 1; num 1; VStr "one"; VStr "other"])
       StringType newParsingContext
     = (newParsingContext,
        Return (CallExpression StringType "match-number"
                  [LiteralExpression NumberType (num 1);
                   LiteralExpression NumberType (num 1);
                   LiteralExpression StringType (VStr "one");
                   LiteralExpression StringType (VStr "other")])).
Proof. split; reflexivity. Qed.

(** C8. [['get', {}]] registers an accessor with an empty path.  The walk
    along it meets no missing segment and ends at the values themselves,
    yet the output has no entry for it. *)
Lemma processAccessorValues_empty_path :
  properties
    (fst (parse cssColor 2 (VArr [VStr "get"; VObj []]) BooleanType
            newParsingContext))
  = [(keyForAccessor [] BooleanType [],
      {| slug := "_0"; path := []; type := BooleanType; default := None |})]
  /\ ownWalk (VObj [("a", num 1)]) [] = Some (VObj [("a", num 1)])
  /\ parseLiteralExpression cssColor (VObj [("a", num 1)]) BooleanType
     = Return (LiteralExpression BooleanType (VBool true))
  /\ processAccessorValues cssColor (VObj [("a", num 1)])
       [(keyForAccessor [] BooleanType [],
         {| slug := "_0"; path := []; type := BooleanType;
            default := None |})]
     = Return [].
Proof. repeat split. Qed.

(** C9. The test [interpolate (linear no delta)],
    [['interpolate', ['linear'], 42, 42, 1, 42, 2]]: the stops (42, 1)
    and (42, 2) do not decrease, the input 42 is at the last stop, and
    the compiled expression gives the first output, not the last one. *)
Lemma interpolate_equal_stops :
  parse cssColor 2
    (VArr [VStr "interpolate"; VArr [VStr "linear"]; num 42;
           num 42; num 1; num 42; num 2])
    NumberType newParsingContext
  = (newParsingContext,
     Return (CallExpression NumberType "interpolate"
               [lit 1; lit 42; lit 42; lit 1; lit 42; lit 2]))
  /\ Cpu.nonDecreasing [(inject_Z 42, numberOutput 1); (inject_Z 42, numberOutput 2)]
  /\ (inject_Z 42 <= inject_Z 42)%Q
  /\ evaluate (CallExpression NumberType "interpolate"
                 [lit 1; lit 42; lit 42; lit 1; lit 42; lit 2])
       newEvaluationContext
     = Some (numberOutput 1)
  /\ numberOutput 1 <> numberOutput 2.
Proof.
  repeat split; try reflexivity; discriminate.
Qed.
